(** * avos-bot: the graph-structured retrieval core

    A shallow embedding of
      - [helper/app/confluence_loader.py], class [HeaderBasedChunker], and
      - [helper/app/graph_rag_enhanced.py], class [EnhancedGraphRAG],
    together with the properties of them that the specification states.

    Conventions of the embedding.
      - A Python [str] is a [string]; character classes ([strip], [lower],
        [split]) are the ASCII ones.
      - A Python [float] is a binary64 [float] of the kernel, with the IEEE
        operations.  [x ** 0.5] is taken to be the IEEE square root.
      - A Python [int] is a [Z], or a [nat] where it counts or indexes.
      - A [dict] or [set] keyed by strings is a [gmap] or [gset].
      - A MongoDB document is a record whose optional fields are [option]s:
        [None] stands for an absent key. *)

From Stdlib Require Import Floats ZArith Uint63 Ascii String.
From stdpp Require Import gmap strings pretty list fin_maps sorting.

Set Warnings "-inexact-float,-clear-no-such-hyp".
Open Scope string_scope.
Open Scope list_scope.
Open Scope nat_scope.

(** ** Python string helpers *)

(** [str.isspace] on one ASCII character. *)
Definition py_isspace (c : ascii) : bool :=
  let n := nat_of_ascii c in
  ((9 <=? n)%nat && (n <=? 13)%nat) || ((28 <=? n)%nat && (n <=? 32)%nat).

Fixpoint py_lstrip (s : string) : string :=
  match s with
  | String c s' => if py_isspace c then py_lstrip s' else s
  | EmptyString => EmptyString
  end.

(** [s.strip()] *)
Definition py_strip (s : string) : string :=
  String.rev (py_lstrip (String.rev (py_lstrip s))).

(** Truth value of a [str]: non-empty. *)
Definition str_truthy (s : string) : bool :=
  match s with EmptyString => false | String _ _ => true end.

(** Truth value of [d.get(key)] for a string field: present and non-empty. *)
Definition opt_truthy (o : option string) : bool :=
  match o with Some s => str_truthy s | None => false end.

Definition py_lower_char (c : ascii) : ascii :=
  let n := nat_of_ascii c in
  if ((65 <=? n)%nat && (n <=? 90)%nat) then ascii_of_nat (n + 32) else c.

(** [s.lower()] *)
Fixpoint py_lower (s : string) : string :=
  match s with
  | String c s' => String (py_lower_char c) (py_lower s')
  | EmptyString => EmptyString
  end.

(** [needle in hay] *)
Fixpoint py_in (needle hay : string) : bool :=
  String.prefix needle hay ||
  match hay with
  | String _ hay' => py_in needle hay'
  | EmptyString => false
  end.

(** [sep.join(l)] *)
Fixpoint py_join (sep : string) (l : list string) : string :=
  match l with
  | [] => ""
  | [x] => x
  | x :: l' => x +:+ sep +:+ py_join sep l'
  end.

(** [c * n] for a one-character string [c]. *)
Fixpoint py_repeat (c : ascii) (n : nat) : string :=
  match n with
  | O => ""
  | S n' => String c (py_repeat c n')
  end.

(** [s.split(c)] for a one-character separator. *)
Fixpoint py_split_go (c : ascii) (cur : string) (s : string) : list string :=
  match s with
  | EmptyString => [String.rev cur]
  | String a s' =>
      if Ascii.eqb a c then String.rev cur :: py_split_go c "" s'
      else py_split_go c (String a cur) s'
  end.

Definition py_split (c : ascii) (s : string) : list string := py_split_go c "" s.

(** [s.split()]: the maximal runs of non-whitespace characters. *)
Fixpoint py_split_ws_go (cur : string) (s : string) : list string :=
  match s with
  | EmptyString => if str_truthy cur then [String.rev cur] else []
  | String a s' =>
      if py_isspace a
      then (if str_truthy cur then String.rev cur :: py_split_ws_go "" s'
            else py_split_ws_go "" s')
      else py_split_ws_go (String a cur) s'
  end.

Definition py_split_ws (s : string) : list string := py_split_ws_go "" s.

(** [l[:n]] for a possibly negative [n]. *)
Definition py_take {A} (n : Z) (l : list A) : list A :=
  if (0 <=? n)%Z then take (Z.to_nat n) l
  else take (Z.to_nat (Z.of_nat (length l) + n)) l.

(** ** Floats *)

(** [float(n)] for a count [n]. *)
Definition float_of_nat (n : nat) : float :=
  PrimFloat.of_uint63 (Uint63.of_Z (Z.of_nat n)).

(** [sorted(l, key=..., reverse=True)]: a stable sort into descending key
    order.  Elements are inserted from the right, each one in front of the
    first element whose key is not greater, so equal keys keep their order. *)
Fixpoint insert_desc {A} (key : A → float) (x : A) (l : list A) : list A :=
  match l with
  | [] => [x]
  | y :: l' =>
      if (key x <? key y)%float then y :: insert_desc key x l' else x :: l
  end.

Definition sort_desc {A} (key : A → float) (l : list A) : list A :=
  foldr (insert_desc key) [] l.

(** ** VectorMath: [EnhancedGraphRAG._cosine_similarity] *)

Definition dot_product (vec1 vec2 : list float) : float :=
  foldl (λ acc '(a, b), (acc + a * b)%float) 0%float (zip vec1 vec2).

Definition sum_squares (vec : list float) : float :=
  foldl (λ acc a, (acc + a * a)%float) 0%float vec.

Definition _cosine_similarity (vec1 vec2 : list float) : float :=
  let dot := dot_product vec1 vec2 in
  let norm1 := PrimFloat.sqrt (sum_squares vec1) in
  let norm2 := PrimFloat.sqrt (sum_squares vec2) in
  if (0 <? norm1 * norm2)%float then (dot / (norm1 * norm2))%float
  else 0%float.

(** ** HierarchicalChunker: [HeaderBasedChunker.chunk_content] *)

Module Chunker.

(** [self.header_tags] *)
Inductive header_tag := h1 | h2 | h3 | h4 | h5 | h6.

(** [int(element.name[1]) - 1] *)
Definition tag_index (t : header_tag) : nat :=
  match t with
  | h1 => 0 | h2 => 1 | h3 => 2 | h4 => 3 | h5 => 4 | h6 => 5
  end.

(** One element of [soup.find_all([...])], in document order.  A header
    carries [element.get_text()]; any other element ([p], [div], [ul], [ol],
    [table]) carries [self._extract_text_with_code(element)].  Parsing the
    HTML is the library's work and is not modelled. *)
Inductive element :=
  | Header (tag : header_tag) (text : string)
  | Block (text : string).

(** An entry of [current_headers]. *)
Record header_slot := { text : string; chunk_index : nat }.

(** An entry of a chunk's [header_path]. *)
Record path_entry := { pe_level : nat; pe_text : string; pe_chunk_id : string }.

Record chunk := {
  header : string;
  level : nat;
  parent_chunk_id : option string;
  parent_header : option string;
  header_path : list path_entry;
  depth : nat;
  children : list string;
  content : string;
  full_context : string
}.

(** [f"{page_id}-chunk-{i}"] *)
Definition chunk_id (page_id : string) (i : nat) : string :=
  page_id +:+ "-chunk-" +:+ pretty i.

Definition newline : string := String "010" "".

(** The state of the loop over [all_elements]. *)
Record loop_state := {
  chunks : list chunk;
  current_headers : list (option header_slot);
  current_chunk : option chunk;
  chunk_lines : list string  (* the local list [chunk_content] *)
}.

Definition initial_state : loop_state :=
  {| chunks := []; current_headers := replicate 6 None;
     current_chunk := None; chunk_lines := [] |}.

(** [if current_chunk and chunk_content: ... chunks.append(current_chunk)] *)
Definition save_chunk (st : loop_state) : list chunk :=
  match current_chunk st, chunk_lines st with
  | Some c, _ :: _ =>
      let body := py_join newline (chunk_lines st) in
      chunks st ++
      [ {| header := header c; level := level c;
           parent_chunk_id := parent_chunk_id c;
           parent_header := parent_header c;
           header_path := header_path c; depth := depth c;
           children := children c;
           content := body;
           full_context :=
             header c +:+ newline +:+
             py_repeat "=" (String.length (header c)) +:+ newline +:+ body |} ]
  | _, _ => chunks st
  end.

(** [for i in range(header_level - 1, -1, -1)]: the nearest open header above,
    taken as the parent only if its [chunk_index] is already in [chunks]. *)
Fixpoint find_parent (hs : list (option header_slot)) (n_chunks : nat)
    (page_id : string) (i : nat) : option (string * string) :=
  match i with
  | O => None
  | S j =>
      match hs !! j with
      | Some (Some slot) =>
          if decide (chunk_index slot < n_chunks)
          then Some (chunk_id page_id (chunk_index slot), text slot)
          else None
      | _ => find_parent hs n_chunks page_id j
      end
  end.

(** [for i in range(header_level)]: the open headers above, top down. *)
Definition build_header_path (hs : list (option header_slot))
    (page_id : string) (header_level : nat) : list path_entry :=
  omap id
    (imap (λ i o,
       (λ slot, {| pe_level := i + 1; pe_text := text slot;
                   pe_chunk_id := chunk_id page_id (chunk_index slot) |}) <$> o)
       (take header_level hs)).

(** One iteration of [for element in all_elements]. *)
Definition process_element (page_id : string) (st : loop_state) (el : element)
    : loop_state :=
  match el with
  | Header tag raw =>
      let chunks' := save_chunk st in
      let header_level := tag_index tag in
      let header_text := py_strip raw in
      let hs1 :=
        <[header_level :=
            Some {| text := header_text; chunk_index := length chunks' |}]>
          (current_headers st) in
      let hs2 :=
        foldl (λ hs i, <[i := None]> hs) hs1
              (seq (S header_level) (6 - S header_level)) in
      let parent := find_parent hs2 (length chunks') page_id header_level in
      {| chunks := chunks';
         current_headers := hs2;
         current_chunk :=
           Some {| header := header_text;
                   level := header_level + 1;
                   parent_chunk_id := fst <$> parent;
                   parent_header := snd <$> parent;
                   header_path := build_header_path hs2 page_id header_level;
                   depth := header_level;
                   children := [];
                   content := "";
                   full_context := "" |};
         chunk_lines := [] |}
  | Block text =>
      match current_chunk st with
      | Some _ =>
          if str_truthy (py_strip text)
          then {| chunks := chunks st;
                  current_headers := current_headers st;
                  current_chunk := current_chunk st;
                  chunk_lines := chunk_lines st ++ [text] |}
          else st
      | None => st
      end
  end.

Definition add_child (child_id : string) (c : chunk) : chunk :=
  {| header := header c; level := level c;
     parent_chunk_id := parent_chunk_id c; parent_header := parent_header c;
     header_path := header_path c; depth := depth c;
     children := children c ++ [child_id];
     content := content c; full_context := full_context c |}.

(** [chunk_map[chunk_id] = i] for every produced chunk. *)
Definition build_chunk_map (page_id : string) (n : nat) : gmap string nat :=
  foldl (λ m i, <[chunk_id page_id i := i]> m) ∅ (seq 0 n).

(** The second pass: every chunk whose parent id is in [chunk_map] is appended
    to that parent's [children].  [fill_child] is the body of the loop for
    the chunk at position [i]. *)
Definition fill_child (page_id : string) (chunk_map : gmap string nat)
    (cs : list chunk) (i : nat) : list chunk :=
  match cs !! i with
  | Some c =>
      match parent_chunk_id c with
      | Some p =>
          if str_truthy p then
            match chunk_map !! p with
            | Some parent_idx =>
                alter (add_child (chunk_id page_id i)) parent_idx cs
            | None => cs
            end
          else cs
      | None => cs
      end
  | None => cs
  end.

Definition fill_children (page_id : string) (cs : list chunk) : list chunk :=
  foldl (fill_child page_id (build_chunk_map page_id (length cs))) cs
        (seq 0 (length cs)).

Definition chunk_content (all_elements : list element) (page_id : string)
    : list chunk :=
  let st := foldl (process_element page_id) initial_state all_elements in
  fill_children page_id (save_chunk st).

(** The reading of the chunker that the specification gives: the document is
    cut at its headers, each header owning the non-blank blocks up to the next
    header; blocks before the first header belong to no one. *)
Fixpoint sections_go (cur : option (header_tag * string * list string))
    (els : list element) : list (header_tag * string * list string) :=
  match els with
  | [] => match cur with Some s => [s] | None => [] end
  | Header tag raw :: els' =>
      match cur with
      | Some s => s :: sections_go (Some (tag, py_strip raw, [])) els'
      | None => sections_go (Some (tag, py_strip raw, [])) els'
      end
  | Block t :: els' =>
      match cur with
      | Some (tag, h, body) =>
          sections_go
            (Some (tag, h, if str_truthy (py_strip t) then body ++ [t] else body))
            els'
      | None => sections_go None els'
      end
  end.

Definition sections (els : list element)
    : list (header_tag * string * list string) :=
  sections_go None els.

Definition has_body (s : header_tag * string * list string) : bool :=
  match s.2 with [] => false | _ :: _ => true end.

End Chunker.

(** ** The document store *)

(** A document of the [page_chunks] collection, with the fields the engine
    reads.  [_id] is always present; [None] in another field is an absent
    key, which [doc.get] turns into its default. *)
Record doc := {
  _id : string;
  parent_chunk_id : option string;
  header : option string;
  page_id : option string;
  level : option Z;
  embedding : option (list float);
  content : option string;
  full_context : option string
}.

(** [self.collection.find_one({"_id": doc_id})] *)
Definition _get_document_by_id (collection : list doc) (doc_id : string)
    : option doc :=
  List.find (λ d, bool_decide (_id d = doc_id)) collection.

(** [self.collection.find({"embedding": {"$exists": True}})] *)
Definition find_with_embedding (collection : list doc) : list doc :=
  List.filter (λ d, bool_decide (is_Some (embedding d))) collection.

(** ** RelevanceScorer: [EnhancedGraphRAG._get_node_relevance_score] *)

(** The local [path_boost]. *)
Definition path_boost (path : option (list string)) : float :=
  match path with
  | None | Some [] => 1.0%float
  | Some p =>
      let path_length := length p in
      let b :=
        if decide (path_length = 1) then 1.3%float
        else if decide (path_length = 2) then 1.15%float
        else 1.05%float in
      let b := if bool_decide ("parent" ∈ p) then (b * 1.2)%float else b in
      if bool_decide ("child" ∈ p) then (b * 1.3)%float else b
  end.

(** The local [topic_matches]. *)
Definition topic_matches (topics : list string) (d : doc) : nat :=
  let content :=
    match full_context d with
    | Some s => if str_truthy s then s else default "" (content d)
    | None => default "" (content d)
    end in
  let header := default "" (header d) in
  length
    (List.filter
       (λ topic, py_in (py_lower topic) (py_lower (header +:+ " " +:+ content)))
       topics).

(** The local [topic_boost]. *)
Definition topic_boost (topics : list string) (d : doc) : float :=
  let n := topic_matches topics d in
  if decide (0 < n) then (1.0 + float_of_nat n * 0.1)%float else 1.0%float.

(** The local [level_boost]. *)
Definition level_boost (d : doc) : float :=
  let level := default 0%Z (level d) in
  if decide (level = 1%Z) then 1.3%float
  else if decide (level = 2%Z) then 1.2%float
  else 1.0%float.

Definition _get_node_relevance_score (collection : list doc) (node_id : string)
    (query_embedding : list float) (topics : list string)
    (path : option (list string)) : float :=
  match _get_document_by_id collection node_id with
  | None => 0.0%float
  | Some d =>
      match embedding d with
      | None => 0.0%float
      | Some e =>
          let similarity := _cosine_similarity query_embedding e in
          (similarity * path_boost path * topic_boost topics d
             * level_boost d)%float
      end
  end.

(** [EnhancedGraphRAG._score_documents]: documents without an embedding, or
    with an empty one, are passed over. *)
Definition _score_documents (query_embedding : list float)
    (documents : list doc) : list (doc * float) :=
  sort_desc snd
    (omap (λ d,
       match embedding d with
       | Some ((_ :: _) as e) => Some (d, _cosine_similarity query_embedding e)
       | _ => None
       end) documents).

(** ** GraphTraversalEngine: [EnhancedGraphRAG._traverse_graph] *)

(** The mutable locals of the traversal. *)
Record traversal_state := {
  visited : gset string;
  discovery_paths : gmap string (list string);
  nodes_to_explore : list (string * Z);
  relationship_counts : gmap string Z
}.

(** The three indexes built from [all_docs] before the loop. *)
Definition build_doc_map (all_docs : list doc) : gmap string doc :=
  foldl (λ m d, <[_id d := d]> m) ∅ all_docs.

(** [parent_to_children] and [page_to_chunks] are built by two loops of one
    shape: the id of every document with a non-empty [key] is appended to the
    list filed under that key. *)
Definition index_by (key : doc → option string) (all_docs : list doc)
    : gmap string (list string) :=
  foldl (λ m d,
    match key d with
    | Some p =>
        if str_truthy p then <[p := default [] (m !! p) ++ [_id d]]> m else m
    | None => m
    end) ∅ all_docs.

Definition build_parent_to_children (all_docs : list doc)
    : gmap string (list string) :=
  index_by parent_chunk_id all_docs.

Definition build_page_to_chunks (all_docs : list doc)
    : gmap string (list string) :=
  index_by page_id all_docs.

(** The four statements every strategy runs on a newly found node:
    [visited.add(id)], [nodes_to_explore.append((id, depth + 1))],
    [discovery_paths[id] = discovery_paths.get(current_node, []) + [label]],
    [relationship_counts[counter] += 1]. *)
Definition discover (counter label current_node : string) (depth : Z)
    (st : traversal_state) (id : string) : traversal_state :=
  {| visited := {[id]} ∪ visited st;
     nodes_to_explore := nodes_to_explore st ++ [(id, (depth + 1)%Z)];
     discovery_paths :=
       <[id := default [] (discovery_paths st !! current_node) ++ [label]]>
         (discovery_paths st);
     relationship_counts := alter Z.succ counter (relationship_counts st) |}.

(** Strategy 1: parent traversal. *)
Definition visit_parent (current_node : string) (depth : Z) (d : doc)
    (st : traversal_state) : traversal_state :=
  match parent_chunk_id d with
  | Some parent_id =>
      if str_truthy parent_id && bool_decide (parent_id ∉ visited st)
      then discover "parent" "parent" current_node depth st parent_id
      else st
  | None => st
  end.

(** Strategy 2: children traversal. *)
Definition visit_children (parent_to_children : gmap string (list string))
    (current_node : string) (depth : Z) (st : traversal_state)
    : traversal_state :=
  foldl (λ st child_id,
    if bool_decide (child_id ∉ visited st)
    then discover "child" "child" current_node depth st child_id
    else st) st (default [] (parent_to_children !! current_node)).

(** Strategy 3: sibling traversal (same parent). *)
Definition visit_siblings (parent_to_children : gmap string (list string))
    (current_node : string) (depth : Z) (d : doc) (st : traversal_state)
    : traversal_state :=
  match parent_chunk_id d with
  | Some parent_id =>
      if str_truthy parent_id then
        foldl (λ st sibling_id,
          if bool_decide (sibling_id ≠ current_node)
             && bool_decide (sibling_id ∉ visited st)
          then discover "sibling" "sibling" current_node depth st sibling_id
          else st) st (default [] (parent_to_children !! parent_id))
      else st
  | None => st
  end.

(** Strategy 4: same page, same level.  The hop is labelled ["same_level"]
    and counted under ["semantic"]. *)
Definition visit_same_level (doc_map : gmap string doc)
    (page_to_chunks : gmap string (list string))
    (current_node : string) (depth : Z) (d : doc) (st : traversal_state)
    : traversal_state :=
  let lvl := default 0%Z (level d) in
  match page_id d with
  | Some page =>
      if str_truthy page && bool_decide (0 < lvl)%Z then
        foldl (λ st chunk_id,
          if bool_decide (chunk_id ≠ current_node)
             && bool_decide (chunk_id ∉ visited st)
          then
            match doc_map !! chunk_id with
            | Some chunk_doc =>
                if bool_decide (level chunk_doc = Some lvl)
                then discover "semantic" "same_level" current_node depth st
                              chunk_id
                else st
            | None => st
            end
          else st) st (default [] (page_to_chunks !! page))
      else st
  | None => st
  end.

(** Strategy 5: the jump to nodes with a similar embedding, tried only when
    [len(visited) % 3 == 0 and depth < 2].  The candidates are collected
    against [visited] as it is before any of them is added; the two best are
    then added without a further test.  The hop is labelled ["semantic"] and
    counted under ["topic"]. *)
Definition semantic_neighbors (all_docs : list doc) (doc_embedding : list float)
    (seen : gset string) : list (string * float) :=
  omap (λ other_doc,
    if bool_decide (_id other_doc ∉ seen) then
      match embedding other_doc with
      | Some e =>
          let similarity := _cosine_similarity doc_embedding e in
          if (0.85 <? similarity)%float then Some (_id other_doc, similarity)
          else None
      | None => None
      end
    else None) all_docs.

Definition visit_semantic (all_docs : list doc) (current_node : string)
    (depth : Z) (d : doc) (st : traversal_state) : traversal_state :=
  if bool_decide (size (visited st) mod 3 = 0) && bool_decide (depth < 2)%Z then
    match embedding d with
    | Some ((_ :: _) as doc_embedding) =>
        foldl (λ st neighbor,
                 discover "topic" "semantic" current_node depth st neighbor.1)
          st
          (take 2 (sort_desc snd
                     (semantic_neighbors all_docs doc_embedding (visited st))))
    | _ => st
    end
  else st.

(** What the loop does with a node it expands. *)
Definition expand_node (all_docs : list doc) (doc_map : gmap string doc)
    (parent_to_children page_to_chunks : gmap string (list string))
    (current_node : string) (depth : Z) (d : doc) (st : traversal_state)
    : traversal_state :=
  let st := visit_parent current_node depth d st in
  let st := visit_children parent_to_children current_node depth st in
  let st := visit_siblings parent_to_children current_node depth d st in
  let st := visit_same_level doc_map page_to_chunks current_node depth d st in
  visit_semantic all_docs current_node depth d st.

(** The body of the [while] loop, after [nodes_to_explore.pop(0)] has taken
    [(current_node, depth)] off the front and left [rest]. *)
Definition loop_body (all_docs : list doc) (max_depth : Z)
    (current_node : string) (depth : Z) (rest : list (string * Z))
    (st : traversal_state) : traversal_state :=
  let st := {| visited := visited st;
               discovery_paths := discovery_paths st;
               nodes_to_explore := rest;
               relationship_counts := relationship_counts st |} in
  if bool_decide (max_depth ≤ depth)%Z then st
  else
    match build_doc_map all_docs !! current_node with
    | None => st
    | Some d =>
        expand_node all_docs (build_doc_map all_docs)
          (build_parent_to_children all_docs) (build_page_to_chunks all_docs)
          current_node depth d st
    end.

(** [while nodes_to_explore and len(visited) < max_nodes], with a bound on the
    number of iterations: [None] is returned when the bound is reached with
    the loop still running. *)
Fixpoint traverse_loop (fuel : nat) (all_docs : list doc)
    (max_nodes max_depth : Z) (st : traversal_state)
    : option traversal_state :=
  match nodes_to_explore st with
  | [] => Some st
  | (current_node, depth) :: rest =>
      if bool_decide (Z.of_nat (size (visited st)) < max_nodes)%Z then
        match fuel with
        | O => None
        | S fuel' =>
            traverse_loop fuel' all_docs max_nodes max_depth
              (loop_body all_docs max_depth current_node depth rest st)
        end
      else Some st
  end.

(** The state before the loop. *)
Definition seed_state (seed_nodes : list string) : traversal_state :=
  {| visited := list_to_set seed_nodes;
     discovery_paths :=
       foldl (λ m node, <[node := ["seed"]]> m) ∅ seed_nodes;
     nodes_to_explore := (λ node, (node, 0%Z)) <$> seed_nodes;
     relationship_counts :=
       <["parent" := 0%Z]> (<["child" := 0%Z]> (<["sibling" := 0%Z]>
         (<["semantic" := 0%Z]> (<["topic" := 0%Z]> ∅)))) |}.

(** A number of iterations the loop never exceeds (see [traverse_loop_total]). *)
Definition traverse_fuel (all_docs : list doc) (seed_nodes : list string) : nat :=
  4 * length all_docs + length seed_nodes.

Record traversal_result := {
  visited_nodes : list string;
  result_paths : gmap string (list string);   (* ["discovery_paths"] *)
  result_counts : gmap string Z               (* ["relationship_counts"] *)
}.

(** The state the loop ends in.  The arguments [query_embedding] and [topics]
    of the source are never read and are left out. *)
Definition traverse_final (all_docs : list doc) (seed_nodes : list string)
    (max_nodes max_depth : Z) : option traversal_state :=
  traverse_loop (traverse_fuel all_docs seed_nodes) all_docs max_nodes
    max_depth (seed_state seed_nodes).

Definition _traverse_graph (all_docs : list doc) (seed_nodes : list string)
    (max_nodes max_depth : Z) : traversal_result :=
  let st := default (seed_state seed_nodes)
              (traverse_final all_docs seed_nodes max_nodes max_depth) in
  {| visited_nodes := elements (visited st);
     result_paths := discovery_paths st;
     result_counts := relationship_counts st |}.

(** ** GraphRetriever: [EnhancedGraphRAG.search] *)

(** What a call to an external service comes back with. *)
Inductive outcome (A : Type) :=
  | Returned (a : A)
  | Raised (message : string).
Arguments Returned {A} a.
Arguments Raised {A} message.

(** The two OpenAI services behind [self.openai_client]: the embedding of a
    text, and the content of the completion that lists the topics of a
    query. *)
Record services := {
  embeddings_create : string → outcome (list float);
  topics_completion : string → outcome string
}.

(** [EnhancedGraphRAG._compute_embedding]: an error is printed and raised
    again. *)
Definition _compute_embedding (svc : services) (text : string)
    : outcome (list float) :=
  embeddings_create svc text.

(** [EnhancedGraphRAG._extract_topics_from_query]: an error of the service is
    answered with the words of the query that are longer than four
    characters. *)
Definition _extract_topics_from_query (svc : services) (query : string)
    : list string :=
  match topics_completion svc query with
  | Returned content =>
      List.filter str_truthy (py_strip <$> py_split "," (py_strip content))
  | Raised _ =>
      List.filter (λ w, bool_decide (4 < String.length w)) (py_split_ws query)
  end.

(** The ["graph_stats"] of a result; the execution time is left out. *)
Inductive graph_stats :=
  | StatsError (error : string)
  | Stats (seed_nodes graph_traversed_nodes total_nodes : Z)
          (counts : gmap string Z) (topics : list string)
          (paths : gmap string (list string)).

Record search_result := {
  documents : list string;
  scores : list float;
  stats : graph_stats
}.

Definition no_documents_result : search_result :=
  {| documents := ["No information found in the database."];
     scores := [0.0%float];
     stats := StatsError "No documents with embeddings found" |}.

(** The [except Exception as e] branch of [search]. *)
Definition error_result (message : string) : search_result :=
  {| documents := ["Error searching for information: " +:+ message];
     scores := [0.0%float];
     stats := StatsError message |}.

(** The last loop of [search]: the text of every ranked node that the store
    still has. *)
Definition retrieve_documents (collection : list doc)
    (ranked : list (string * float)) : list (string * float) :=
  omap (λ '(node_id, score),
    (λ d, (default "No context available" (full_context d), score))
      <$> _get_document_by_id collection node_id) ranked.

Definition search (svc : services) (collection : list doc) (query : string)
    (n_seed_results n_total_results max_traversal_depth : Z) : search_result :=
  match _compute_embedding svc query with
  | Raised message => error_result message
  | Returned query_embedding =>
      let topics := _extract_topics_from_query svc query in
      let all_docs := find_with_embedding collection in
      match all_docs with
      | [] => no_documents_result
      | _ :: _ =>
          let scored_docs := _score_documents query_embedding all_docs in
          let seed_docs := py_take n_seed_results scored_docs in
          let seed_node_ids := (λ p, _id p.1) <$> seed_docs in
          let traversal_result :=
            _traverse_graph collection seed_node_ids
              (n_total_results * 3)%Z max_traversal_depth in
          let all_visited_node_ids := visited_nodes traversal_result in
          let final_scores :=
            sort_desc snd
              ((λ node_id,
                  (node_id,
                   _get_node_relevance_score collection node_id
                     query_embedding topics
                     (result_paths traversal_result !! node_id)))
                 <$> all_visited_node_ids) in
          let top := py_take n_total_results final_scores in
          let top_node_ids := fst <$> top in
          let found := retrieve_documents collection top in
          {| documents := fst <$> found;
             scores := snd <$> found;
             stats :=
               Stats (Z.of_nat (length seed_node_ids))
                     (Z.of_nat (length all_visited_node_ids)
                      - Z.of_nat (length seed_node_ids))%Z
                     (Z.of_nat (length all_visited_node_ids))
                     (result_counts traversal_result) topics
                     (filter (λ kv, kv.1 ∈ top_node_ids)
                             (result_paths traversal_result)) |}
      end
  end.

(** ** Views and sample data used by the properties *)

Section chunker_views.
Import Chunker.

(** What a chunk shows of its section: header, level and body. *)
Definition chunk_view (c : chunk) : string * nat * string :=
  (Chunker.header c, Chunker.level c, Chunker.content c).

Definition section_view (s : header_tag * string * list string)
    : string * nat * string :=
  (s.1.2, tag_index s.1.1 + 1, py_join newline s.2).

(** The open chunk of a loop state is the open section. *)
Definition open_matches (st : loop_state)
    (cur : option (header_tag * string * list string)) : Prop :=
  match current_chunk st, cur with
  | None, None => True
  | Some c, Some s =>
      Chunker.header c = s.1.2 ∧ Chunker.level c = tag_index s.1.1 + 1
      ∧ chunk_lines st = s.2
  | _, _ => False
  end.

End chunker_views.

(** A store with the single node ["n1"], whose embedding is the unit vector. *)
Definition unit_node : doc :=
  {| _id := "n1"; parent_chunk_id := None; header := Some "Install";
     page_id := Some "page"; level := Some 3%Z;
     embedding := Some [1.0%float]; content := Some "run the installer";
     full_context := Some "Install run the installer" |}.

(** The services up and answering, and the services down. *)
Definition services_up : services :=
  {| embeddings_create := λ _, Returned [1.0%float; 0.0%float];
     topics_completion := λ _, Returned "install, driver" |}.

Definition services_down : services :=
  {| embeddings_create := λ _, Raised "Connection error.";
     topics_completion := λ _, Raised "Connection error." |}.


Section chunker_documents.
Import Chunker.

(** An element that is not a header. *)
Definition is_block (el : element) : Prop :=
  match el with Block _ => True | Header _ _ => False end.

(** The non-blank texts of a run of elements. *)
Definition block_lines (els : list element) : list string :=
  omap (λ el,
    match el with
    | Block t => if str_truthy (py_strip t) then Some t else None
    | Header _ _ => None
    end) els.

(** What the third testable property speaks of: header, parent and children
    of a chunk. *)
Definition chunk_links (c : chunk) : string * option string * list string :=
  (Chunker.header c, Chunker.parent_chunk_id c, Chunker.children c).

(** A document with the headers H1 "A", H2 "B", H2 "C", H3 "C.1" in this order
    and runs of other elements around them. *)
Definition abcc_document (pre bA bB bC bD : list element) : list element :=
  pre ++ Header h1 "A" :: bA ++ Header h2 "B" :: bB
      ++ Header h2 "C" :: bC ++ Header h3 "C.1" :: bD.

End chunker_documents.

(** ** Measures and invariants of the traversal *)

(** Every id the traversal can come to: the ids of the snapshot and the
    parents it names. *)
Definition reachable_ids (all_docs : list doc) : list string :=
  (_id <$> all_docs) ++ omap parent_chunk_id all_docs.

(** The ids of [ids] not yet in [seen], with their multiplicity. *)
Definition unseen (ids : list string) (seen : gset string) : nat :=
  length (List.filter (λ x, bool_decide (x ∉ seen)) ids).

(** What bounds the iterations left to the loop. *)
Definition work_left (all_docs : list doc) (st : traversal_state) : nat :=
  2 * unseen (reachable_ids all_docs) (visited st)
  + length (nodes_to_explore st).

(** The number of nodes whose discovery path ends with the hop [label]. *)
Definition hops (label : string) (paths : gmap string (list string)) : nat :=
  size (filter (λ kv, last kv.2 = Some label) paths).

(** The key of [relationship_counts] each strategy increments, with the hop
    label the strategy writes into the discovery path. *)
Definition counter_labels : list (string * string) :=
  [ ("parent", "parent"); ("child", "child"); ("sibling", "sibling");
    ("semantic", "same_level"); ("topic", "semantic") ].


(** Nothing is left to find: every id of the snapshot and every parent it
    names is visited. *)
Definition saturated (all_docs : list doc) (st : traversal_state) : Prop :=
  ∀ x, x ∈ reachable_ids all_docs → x ∈ visited st.

(** The part of a state that [_traverse_graph] returns. *)
Definition outcome_of (st : traversal_state)
    : gset string * gmap string (list string) * gmap string Z :=
  (visited st, discovery_paths st, relationship_counts st).

(** A property of states that every discovery of an unvisited node keeps,
    for nodes in [Q] and hops counted under [counter] and labelled [label]. *)
Definition discovery_closed (P : traversal_state → Prop) (Q : string → Prop)
    (counter label : string) : Prop :=
  ∀ current_node depth st id,
    P st → Q id → id ∉ visited st →
    P (discover counter label current_node depth st id).


(** ** Sample stores *)

Definition node (id : string) (parent page : option string) (lvl : option Z)
    (e : option (list float)) : doc :=
  {| _id := id; parent_chunk_id := parent; header := Some id;
     page_id := page; level := lvl; embedding := e;
     content := Some "body"; full_context := Some (id +:+ " body") |}.

(** A page with the header P over A and B, and C under A. *)
Definition family_A : doc :=
  node "A" (Some "P") (Some "guide") (Some 2%Z) (Some [1.0%float; 0.0%float]).
Definition family_P : doc :=
  node "P" None (Some "guide") (Some 1%Z) (Some [0.0%float; 1.0%float]).
Definition family_C : doc :=
  node "C" (Some "A") (Some "guide") (Some 3%Z) None.
Definition family_B : doc :=
  node "B" (Some "P") (Some "guide") (Some 2%Z) None.

Definition family : list doc := [family_A; family_P; family_C; family_B].


(** A node whose parent is not in the store. *)
Definition orphan : list doc :=
  [ node "A" (Some "ghost") (Some "guide") (Some 2%Z)
         (Some [1.0%float; 0.0%float]) ].

(** The state of the first iteration from the single seed A, once the parent,
    children and sibling strategies have run on the document [dA] of A. *)
Definition family_strategies (all_docs : list doc) (dA : doc)
    : traversal_state :=
  visit_siblings (build_parent_to_children all_docs) "A" 0 dA
    (visit_children (build_parent_to_children all_docs) "A" 0
       (visit_parent "A" 0 dA
          {| visited := visited (seed_state ["A"]);
             discovery_paths := discovery_paths (seed_state ["A"]);
             nodes_to_explore := [];
             relationship_counts := relationship_counts (seed_state ["A"]) |})).

(** A node whose embedding is [[1.0; 2.0]], below the header levels that are
    boosted. *)
Definition slope_node : doc :=
  node "n1" None (Some "page") (Some 3%Z) (Some [1.0%float; 2.0%float]).

(** ** Rounding to a double: the steps of [SpecFloat.binary_round_aux]

    The product of the scorer is rounded three times.  These definitions
    name the steps of the rounding of the kernel's specification of binary64,
    for the properties of the order of scores. *)

Section rounding_steps.
Local Open Scope Z_scope.

(** A bit as a number. *)
Definition bit (b : bool) : Z := if b then 1 else 0.

(** A shift record as one number: the mantissa followed by its two bits. *)
Definition shr_key (mrs : shr_record) : Z :=
  4 * shr_m mrs + 2 * bit (shr_r mrs) + bit (shr_s mrs).

(** [n] shifts. *)
Definition shr_n (n : nat) (mrs : shr_record) : shr_record :=
  Nat.iter n shr_1 mrs.

(** The mantissa after rounding to nearest, ties to even. *)
Definition shr_round (mrs : shr_record) : Z :=
  round_nearest_even (shr_m mrs) (loc_of_shr_record mrs).

(** The last step of [binary_round_aux]. *)
Definition shr_final (m e : Z) : spec_float :=
  match m with
  | Z0 => S754_zero false
  | Zpos p => if e <=? emax - prec then S754_finite false p e
              else S754_infinity false
  | Zneg _ => S754_nan
  end.

(** The number of bits that [shr_fexp] shifts out. *)
Definition shift_of (m e : Z) : Z :=
  Z.max 0 (fexp prec emax (Zdigits2 m + e) - e).

(** The mantissa rounded after [k] shifts. *)
Definition round_at (k m : Z) : Z :=
  shr_round
    (shr_n (Z.to_nat k) {| shr_m := m; shr_r := false; shr_s := false |}).

(** The second normalisation and the last step. *)
Definition normalized (q E : Z) : spec_float :=
  shr_final (q / 2 ^ shift_of q E) (E + shift_of q E).

(** [2 ^ 52] and [2 ^ 53], the bounds of a full mantissa. *)
Definition two52 : Z := 4503599627370496.
Definition two53 : Z := 9007199254740992.

(** The double that the positive number [m * 2 ^ e] is rounded to. *)
Definition round_pos (m e : Z) : spec_float :=
  binary_round_aux prec emax false m e loc_Exact.

(** Zero, the positive doubles and plus infinity. *)
Definition sf_nonneg (x : spec_float) : bool :=
  match x with
  | S754_zero _ | S754_finite false _ _ | S754_infinity false => true
  | _ => false
  end.

(** Zero, the negative doubles and minus infinity. *)
Definition sf_nonpos (x : spec_float) : bool :=
  match x with
  | S754_zero _ | S754_finite true _ _ | S754_infinity true => true
  | _ => false
  end.

(** [x] is finite and positive, and [2 ^ (lo - 1) <= x < 2 ^ hi]. *)
Definition finite_between (lo hi : Z) (x : float) : Prop :=
  exists p e,
    Prim2SF x = S754_finite false p e /\ lo <= Zdigits2 (Zpos p) + e <= hi.

End rounding_steps.

(** ** Views of the traversal used by further properties *)

(** The labels a strategy writes into a discovery path. *)
Definition hop_labels : list string := snd <$> counter_labels.

(** A discovery path: the word ["seed"] and then at most [max_depth] hops. *)
Definition path_from_seed (max_depth : Z) (p : list string) : Prop :=
  ∃ hops, p = "seed" :: hops ∧ Forall (λ l, l ∈ hop_labels) hops ∧
          (Z.of_nat (length hops) ≤ Z.max 0 max_depth)%Z.

(** The sum of the five counters. *)
Definition counters_total (counts : gmap string Z) : Z :=
  foldr (λ c n, (default 0 (counts !! c) + n)%Z) 0%Z (fst <$> counter_labels).

(** A state without its work list. *)
Definition with_queue (q : list (string * Z)) (st : traversal_state)
    : traversal_state :=
  {| visited := visited st; discovery_paths := discovery_paths st;
     nodes_to_explore := q; relationship_counts := relationship_counts st |}.

(** What the loop keeps true of the discovery paths: the visited nodes are
    the nodes with a path, every path is well formed, and the path of a node
    on the work list is one longer than its depth. *)
Definition path_inv (max_depth : Z) (st : traversal_state) : Prop :=
  dom (discovery_paths st) = visited st ∧
  (∀ id p, discovery_paths st !! id = Some p → path_from_seed max_depth p) ∧
  (∀ id d, (id, d) ∈ nodes_to_explore st →
     ∃ p, discovery_paths st !! id = Some p ∧
          (Z.of_nat (length p) = d + 1)%Z).

(** The visited nodes are the seeds and nodes the snapshot names. *)
Definition visited_in_range (all_docs : list doc) (seed_nodes : list string)
    (st : traversal_state) : Prop :=
  (∀ x, x ∈ seed_nodes → x ∈ visited st) ∧
  (∀ x, x ∈ visited st → x ∈ seed_nodes ∨ x ∈ reachable_ids all_docs).

(** The visited nodes are the seeds and one node for each unit of a
    counter. *)
Definition counted (seed_nodes : list string) (st : traversal_state) : Prop :=
  dom (relationship_counts st) = list_to_set (fst <$> counter_labels) ∧
  Z.of_nat (size (visited st))
  = (Z.of_nat (size (list_to_set seed_nodes : gset string))
     + counters_total (relationship_counts st))%Z.
(** ** Views of the neighbourhood of a node *)

(** The documents that the children, sibling and same-level strategies reach
    from the document [d]: those that name [d] as their parent, those with
    the parent of [d], and those on the page of [d] at its level (when that
    level is positive).  An empty id, parent or page links nothing. *)
Definition linked (d c : doc) : Prop :=
  (parent_chunk_id c = Some (_id d) ∧ str_truthy (_id d) = true) ∨
  (∃ q, parent_chunk_id d = Some q ∧ parent_chunk_id c = Some q ∧
        str_truthy q = true) ∨
  (∃ pg l, page_id d = Some pg ∧ page_id c = Some pg ∧
           str_truthy pg = true ∧
           level d = Some l ∧ level c = Some l ∧ (0 < l)%Z).

(** The neighbourhood of [d] has been visited: its parent, when it names
    one, and every document linked to it. *)
Definition neighbourhood_visited (all_docs : list doc) (seen : gset string)
    (d : doc) : Prop :=
  (∀ q, parent_chunk_id d = Some q → str_truthy q = true → q ∈ seen) ∧
  (∀ c, c ∈ all_docs → linked d c → _id c ∈ seen).

(** What the loop keeps true of the work list: a visited node is still on
    the list, or it was reached too deep to be expanded, or it is not in the
    snapshot, or its neighbourhood has been visited. *)
Definition worked_off (all_docs : list doc) (max_depth : Z)
    (st : traversal_state) (x : string) : Prop :=
  ∀ d p, build_doc_map all_docs !! x = Some d →
         discovery_paths st !! x = Some p →
         (Z.of_nat (length p) ≤ max_depth)%Z →
         neighbourhood_visited all_docs (visited st) d.

Definition work_inv (all_docs : list doc) (max_depth : Z)
    (st : traversal_state) : Prop :=
  ∀ x, x ∈ visited st →
       (∃ depth, (x, depth) ∈ nodes_to_explore st) ∨
       worked_off all_docs max_depth st x.

(** ** Views of the ranking used by further properties *)

(** A double that is a number. *)
Definition is_number (x : float) : Prop := (x =? x)%float = true.

(** [b] does not exceed [a]: the order of a ranking, best first. *)
Definition ranked_before {A} (key : A → float) (a b : A) : Prop :=
  (key b <=? key a)%float = true.

(** ** Views of the chunk graph used by further properties *)

Section chunk_graph_views.
Import Chunker.

(** The positions of the chunks whose parent is the chunk at position [i]. *)
Definition child_indexes (page_id : string) (cs : list chunk) (i : nat)
    : list nat :=
  List.filter
    (λ k, bool_decide (cs !! k ≫= Chunker.parent_chunk_id
                       = Some (chunk_id page_id i)))
    (seq 0 (length cs)).

(** The parent of a chunk, if it has one, is a chunk before position [n]. *)
Definition parent_before (page_id : string) (n : nat) (c : chunk) : Prop :=
  ∀ p, Chunker.parent_chunk_id c = Some p →
       ∃ j, j < n ∧ p = chunk_id page_id j.

(** What the first pass keeps: no chunk has children yet, and every parent
    is an earlier chunk. *)
Definition links_inv (page_id : string) (st : loop_state) : Prop :=
  (∀ i c, chunks st !! i = Some c →
     Chunker.children c = [] ∧ parent_before page_id i c) ∧
  (∀ c, current_chunk st = Some c →
     Chunker.children c = [] ∧ parent_before page_id (length (chunks st)) c).

End chunk_graph_views.

Section chunk_shape_views.
Import Chunker.

(** The fields of a chunk that the second pass leaves alone. *)
Definition chunk_static (c : chunk)
    : string * nat * option string * option string * list path_entry * nat
      * string * string :=
  (Chunker.header c, Chunker.level c, Chunker.parent_chunk_id c,
   parent_header c, header_path c, depth c, Chunker.content c,
   Chunker.full_context c).

(** What every chunk under construction satisfies. *)
Definition well_shaped (c : chunk) : Prop :=
  1 ≤ Chunker.level c ≤ 6 ∧ depth c + 1 = Chunker.level c ∧
  (Chunker.parent_chunk_id c = None ↔ parent_header c = None) ∧
  StronglySorted lt (pe_level <$> header_path c) ∧
  Forall (λ l, 1 ≤ l < Chunker.level c) (pe_level <$> header_path c).

(** What a finished chunk satisfies besides: it has a text, and its
    [full_context] is the header, underlined, over the text. *)
Definition well_filled (c : chunk) : Prop :=
  Chunker.content c ≠ "" ∧
  Chunker.full_context c
  = Chunker.header c +:+ newline
    +:+ py_repeat "=" (String.length (Chunker.header c)) +:+ newline
    +:+ Chunker.content c.

Definition shape_inv (st : loop_state) : Prop :=
  Forall (λ c, well_shaped c ∧ well_filled c) (chunks st) ∧
  (∀ c, current_chunk st = Some c → well_shaped c) ∧
  Forall (λ t, t ≠ "") (chunk_lines st).

End chunk_shape_views.

Section chunk_stack_views.
Import Chunker.

(** The position of the last of [levels] that is [K] or less. *)
Fixpoint last_at_most (K : nat) (levels : list nat) : option nat :=
  match levels with
  | [] => None
  | x :: levels' =>
      match last_at_most K levels' with
      | Some j => Some (S j)
      | None => if bool_decide (x ≤ K) then Some 0 else None
      end
  end.

(** What the header stack and the parent links read of a chunk. *)
Record skeleton := {
  sk_header : string;
  sk_level : nat;
  sk_parent : option string;
  sk_parent_header : option string
}.

Definition skeleton_of (c : chunk) : skeleton :=
  {| sk_header := Chunker.header c; sk_level := Chunker.level c;
     sk_parent := Chunker.parent_chunk_id c;
     sk_parent_header := parent_header c |}.

(** The headers met so far: the chunks and the open chunk. *)
Definition headers_so_far (st : loop_state) : list skeleton :=
  skeleton_of <$> (chunks st ++ option_list (current_chunk st)).

(** The entry of [current_headers] for the level [k + 1] once the headers
    [hs] have been met: the last header of level [k + 1] or above, when its
    level is [k + 1]. *)
Definition slot_at (hs : list skeleton) (k : nat) : option header_slot :=
  match last_at_most (k + 1) (sk_level <$> hs) with
  | Some j =>
      match hs !! j with
      | Some s =>
          if decide (sk_level s = k + 1)
          then Some {| text := sk_header s; chunk_index := j |}
          else None
      | None => None
      end
  | None => None
  end.

(** The parent of the header at position [i] is the last header before it
    of a level above its own. *)
Definition encloser_is_parent (page_id : string) (hs : list skeleton)
    (i : nat) (s : skeleton) : Prop :=
  match last_at_most (sk_level s - 1) (sk_level <$> take i hs) with
  | Some j =>
      sk_parent s = Some (chunk_id page_id j) ∧
      sk_parent_header s = sk_header <$> hs !! j
  | None => sk_parent s = None ∧ sk_parent_header s = None
  end.

(** What the first pass keeps when every header met so far has left a
    chunk. *)
Definition stack_inv (page_id : string) (st : loop_state) : Prop :=
  length (current_headers st) = 6 ∧
  (∀ k, k < 6 →
     current_headers st !! k = Some (slot_at (headers_so_far st) k)) ∧
  Forall (λ s, 1 ≤ sk_level s) (headers_so_far st) ∧
  (∀ i s, headers_so_far st !! i = Some s →
     encloser_is_parent page_id (headers_so_far st) i s).

End chunk_stack_views.

(** ** ConfluenceLoader: [_clean_title] *)

(** [s.replace(a, b)] for one-character strings [a] and [b]. *)
Fixpoint py_replace_char (a b : ascii) (s : string) : string :=
  match s with
  | EmptyString => EmptyString
  | String c s' =>
      String (if Ascii.eqb c a then b else c) (py_replace_char a b s')
  end.

(** [s[:-len(suffix)]] when [s.endswith(suffix)]. *)
Fixpoint strip_suffix (suffix s : string) : option string :=
  if String.eqb s suffix then Some ""
  else
    match s with
    | EmptyString => None
    | String c s' => String c <$> strip_suffix suffix s'
    end.

(** [re.sub(r'\.(html|htm)$', '', title)].  Without the MULTILINE flag [$]
    matches at the end of the string and also before a newline that ends the
    string; the four cases exclude one another, so at most one match is
    replaced. *)
Definition re_sub_html_extension (title : string) : string :=
  match strip_suffix ".html" title with
  | Some t => t
  | None =>
      match strip_suffix ".htm" title with
      | Some t => t
      | None =>
          match strip_suffix (".html" +:+ Chunker.newline) title with
          | Some t => t +:+ Chunker.newline
          | None =>
              match strip_suffix (".htm" +:+ Chunker.newline) title with
              | Some t => t +:+ Chunker.newline
              | None => title
              end
          end
      end
  end.

(** [ConfluenceLoader._clean_title] *)
Definition _clean_title (title : string) : string :=
  let title := re_sub_html_extension title in
  let title := py_replace_char "-" " " (py_replace_char "+" " " title) in
  py_join " " (py_split_ws title).

(** ** Views of strings used by further properties *)

(** The characters of a string. *)
Definition chars (s : string) : list ascii := list_ascii_of_string s.

(** A word: a string that is not empty and has no whitespace. *)
Definition is_word (w : string) : Prop :=
  w ≠ "" ∧ Forall (λ c, py_isspace c = false) (chars w).

(** A string that neither begins nor ends with whitespace. *)
Definition is_stripped (s : string) : Prop :=
  (∀ c, head (chars s) = Some c → py_isspace c = false) ∧
  (∀ c, last (chars s) = Some c → py_isspace c = false).

(** ** HeaderBasedChunker: [_extract_text_with_code] *)

(** A child of an element as [_extract_text_with_code] tells them apart: a
    [pre] block and an inline [code], each with its [get_text()], and
    anything else, with its [get_text()] or, for a node without one, its
    [str]. *)
Inductive child :=
  | Pre (code : string)
  | Code (code : string)
  | Other (text : string).

Definition is_code (ch : child) : bool :=
  match ch with Other _ => false | _ => true end.

(** What the loop appends to [texts] for a child. *)
Definition child_text (ch : child) : string :=
  match ch with
  | Pre code =>
      "```" +:+ Chunker.newline +:+ code +:+ Chunker.newline +:+ "```"
  | Code code => "`" +:+ code +:+ "`"
  | Other text => text
  end.

Definition _extract_text_with_code (children : list child) : string :=
  py_strip (py_join " " (child_text <$> children)).

(** ** ConfluenceMongoDB: the store of chunks and the first retrieval *)

(** A document of the collection as [add_confluence_chunk] writes it and
    [graph_based_retrieve] reads it.  A field read with [doc.get] or tested
    with [in] is an [option], [None] standing for an absent key or a null; a
    document without ["children"] is one with no children.  The constant
    ["node_type"] and the ["timestamp"] are left out. *)
Record chunk_doc := {
  cd_id : string;
  cd_page_id : string;
  cd_page_title : string;
  cd_header : string;
  cd_level : option Z;
  cd_content : string;
  cd_full_context : string;
  cd_embedding : option (list float);
  cd_references : list string;
  cd_keywords : list string;
  cd_parent_chunk_id : option string;
  cd_children : list string;
  cd_header_path : list Chunker.path_entry;
  cd_depth : option Z
}.

(** [self.collection.find_one({"_id": node_id})] *)
Definition find_chunk (collection : list chunk_doc) (node_id : string)
    : option chunk_doc :=
  List.find (λ d, bool_decide (cd_id d = node_id)) collection.

(** [update_one({"_id": chunk_id}, {"$set": doc}, upsert=True)]: the first
    document with the id is overwritten where it stands; without one, the
    document is added at the end. *)
Fixpoint upsert (d : chunk_doc) (collection : list chunk_doc)
    : list chunk_doc :=
  match collection with
  | [] => [d]
  | d' :: collection' =>
      if bool_decide (cd_id d' = cd_id d) then d :: collection'
      else d' :: upsert d collection'
  end.

(** [ConfluenceMongoDB.add_confluence_chunk], on a database that answers. *)
Definition add_confluence_chunk (collection : list chunk_doc)
    (chunk_id page_id page_title header : string) (level : Z)
    (content full_context : string) (embedding : list float)
    (references : list string) (parent_chunk_id : option string)
    (children : list string) (header_path : list Chunker.path_entry)
    (depth : Z) (keywords : list string) : list chunk_doc :=
  upsert
    {| cd_id := chunk_id; cd_page_id := page_id; cd_page_title := page_title;
       cd_header := header; cd_level := Some level; cd_content := content;
       cd_full_context := full_context; cd_embedding := Some embedding;
       cd_references := references; cd_keywords := keywords;
       cd_parent_chunk_id := parent_chunk_id; cd_children := children;
       cd_header_path := header_path; cd_depth := Some depth |}
    collection.

(** [ConfluenceMongoDB._explore_children] with [levels] levels left, that is
    [max_depth - current_depth] of them: the children of the node are
    collected, each followed by its own descendants. *)
Fixpoint explore_children (collection : list chunk_doc) (levels : nat)
    (node_id : string) (collected_nodes : gset string) : gset string :=
  match levels with
  | O => collected_nodes
  | S levels' =>
      match find_chunk collection node_id with
      | None => collected_nodes
      | Some d =>
          foldl (λ collected child_id,
                   explore_children collection levels' child_id
                     ({[child_id]} ∪ collected))
                collected_nodes (cd_children d)
      end
  end.

Definition _explore_children (collection : list chunk_doc) (node_id : string)
    (collected_nodes : gset string) (current_depth max_depth : Z)
    : gset string :=
  explore_children collection (Z.to_nat (max_depth - current_depth)) node_id
    collected_nodes.

(** The similarity that [graph_based_retrieve] computes in line: the test is
    [magnitude1 * magnitude2 == 0]. *)
Definition inline_similarity (embedding doc_vector : list float) : float :=
  let dot := dot_product embedding doc_vector in
  let magnitude1 := PrimFloat.sqrt (sum_squares embedding) in
  let magnitude2 := PrimFloat.sqrt (sum_squares doc_vector) in
  if (magnitude1 * magnitude2 =? 0)%float then 0%float
  else (dot / (magnitude1 * magnitude2))%float.

(** The loop [for _ in range(max_depth)] that walks up from a seed. *)
Fixpoint explore_parents (collection : list chunk_doc) (steps : nat)
    (current_id : string) (nodes : gset string) : gset string :=
  match steps with
  | O => nodes
  | S steps' =>
      match find_chunk collection current_id with
      | Some d =>
          match cd_parent_chunk_id d with
          | Some parent_id =>
              if str_truthy parent_id
              then explore_parents collection steps' parent_id
                     ({[parent_id]} ∪ nodes)
              else nodes
          | None => nodes
          end
      | None => nodes
      end
  end.

(** The siblings of a seed: [find({"parent_chunk_id": ...})]. *)
Definition explore_siblings (collection : list chunk_doc) (node_id : string)
    (nodes : gset string) : gset string :=
  match find_chunk collection node_id with
  | Some d =>
      match cd_parent_chunk_id d with
      | Some parent_id =>
          if str_truthy parent_id
          then foldl (λ nodes sibling, {[cd_id sibling]} ∪ nodes) nodes
                 (List.filter
                    (λ s, bool_decide (cd_parent_chunk_id s = Some parent_id))
                    collection)
          else nodes
      | None => nodes
      end
  | None => nodes
  end.

(** One entry of the result. *)
Record retrieved := {
  r_id : string;
  r_page_title : string;
  r_header : string;
  r_content : string;
  similarity_score : float;
  is_seed : bool;
  found_by : string;
  r_parent_chunk_id : option string;
  r_children : list string;
  r_level : option Z;
  r_depth : option Z
}.

(** [docs_with_scores], sorted. *)
Definition docs_with_scores (collection : list chunk_doc)
    (embedding : list float) : list (chunk_doc * float) :=
  sort_desc snd
    (omap (λ d, (λ v, (d, inline_similarity embedding v)) <$> cd_embedding d)
          collection).

(** The seeds of [graph_based_retrieve]. *)
Definition seed_ids (collection : list chunk_doc) (embedding : list float)
    (max_results : Z) : list string :=
  let scored := docs_with_scores collection embedding in
  let top_k := Z.min max_results (Z.of_nat (length scored)) in
  (λ p, cd_id p.1) <$> py_take top_k scored.

(** [all_relevant_nodes] after the loop over the seeds. *)
Definition relevant_nodes (collection : list chunk_doc)
    (seed_nodes : list string) (max_depth : Z) : gset string :=
  foldl (λ nodes node_id,
           let nodes :=
             explore_parents collection (Z.to_nat max_depth) node_id nodes in
           let nodes :=
             _explore_children collection node_id nodes 0 max_depth in
           explore_siblings collection node_id nodes)
        (list_to_set seed_nodes) seed_nodes.

(** [graph_docs]: every relevant node that was scored, with its score, raised
    by a fifth when the node is the parent of a seed.  The order in which a
    Python set is gone through is not fixed; it is taken to be that of
    [elements]. *)
Definition graph_docs (collection : list chunk_doc)
    (scored : list (chunk_doc * float)) (seed_nodes : list string)
    (nodes : gset string) : list (chunk_doc * float) :=
  omap (λ node_id,
    match List.find (λ p, bool_decide (cd_id p.1 = node_id)) scored with
    | Some (d, score) =>
        let is_parent_of_seed :=
          existsb (λ seed,
            bool_decide
              (is_Some (List.find
                 (λ s, bool_decide (cd_id s = seed
                                    ∧ cd_parent_chunk_id s = Some node_id))
                 collection))) seed_nodes in
        Some (d, if is_parent_of_seed then (score * 1.2)%float else score)
    | None => None
    end) (elements nodes).

(** [ConfluenceMongoDB.graph_based_retrieve].  The arguments [query] and
    [similarity_threshold] of the source are never read and are left out. *)
Definition graph_based_retrieve (collection : list chunk_doc)
    (embedding : list float) (max_results max_depth : Z) : list retrieved :=
  let scored := docs_with_scores collection embedding in
  let seed_nodes := seed_ids collection embedding max_results in
  let nodes := relevant_nodes collection seed_nodes max_depth in
  let ranked := sort_desc snd (graph_docs collection scored seed_nodes nodes) in
  (λ '(d, score),
     let seed := bool_decide (cd_id d ∈ seed_nodes) in
     {| r_id := cd_id d; r_page_title := cd_page_title d;
        r_header := cd_header d; r_content := cd_content d;
        similarity_score := score; is_seed := seed;
        found_by := if seed then "vector" else "graph";
        r_parent_chunk_id := cd_parent_chunk_id d;
        r_children := cd_children d; r_level := cd_level d;
        r_depth := cd_depth d |})
    <$> py_take max_results ranked.

(** ** Views of the store used by further properties *)

(** [x] is reached from [node_id] by going down to a child at least once and
    at most [k] times. *)
Inductive child_within (collection : list chunk_doc)
    : nat → string → string → Prop :=
  | child_here k node_id d child_id :
      find_chunk collection node_id = Some d →
      child_id ∈ cd_children d →
      child_within collection (S k) node_id child_id
  | child_below k node_id d child_id x :
      find_chunk collection node_id = Some d →
      child_id ∈ cd_children d →
      child_within collection k child_id x →
      child_within collection (S k) node_id x.

(** A shelf of two chunks, the second under the first. *)
Definition shelf_chunk (id : string) (parent : option string)
    (children : list string) (e : list float) : chunk_doc :=
  {| cd_id := id; cd_page_id := "p"; cd_page_title := "Guide";
     cd_header := id; cd_level := Some 1%Z; cd_content := "body";
     cd_full_context := id +:+ " body"; cd_embedding := Some e;
     cd_references := []; cd_keywords := [];
     cd_parent_chunk_id := parent; cd_children := children;
     cd_header_path := []; cd_depth := Some 0%Z |}.

Definition shelf : list chunk_doc :=
  [ shelf_chunk "p-chunk-0" None ["p-chunk-1"] [1.0%float; 0.0%float];
    shelf_chunk "p-chunk-1" (Some "p-chunk-0") [] [0.0%float; 1.0%float] ].

(** ** ConfluenceLoader: the crawl of referenced pages *)

(** A page as [get_page_content] returns it: the keys ["id"], ["title"] and
    ["content"]. *)
Record page := { pg_id : string; pg_title : string; pg_content : string }.

(** What the crawl asks of the world around it.  [_clean_url] and
    [_extract_confluence_links] rest on [urllib] and [BeautifulSoup], which
    can raise, and [get_page_content] on the Confluence server; it catches
    every error and answers [None] for a page it cannot get.  The crawl is
    modelled over their answers, as functions of their argument: the site
    does not change while it is crawled. *)
Record site := {
  _clean_url : string → outcome string;
  get_page_content : string → option page;
  _extract_confluence_links : string → outcome (list string)
}.

(** [ConfluenceLoader.process_page_recursive] with [levels] levels left, that
    is [max_depth - current_depth] of them, threading [self.processed_urls].
    [_clean_url] is called outside the [try] and its error goes to the
    caller; an error of [_extract_confluence_links] is caught and the pages
    found so far are returned; an error of a recursive call is caught in the
    loop, which goes on. *)
Fixpoint process_pages (s : site) (levels : nat) (url : string)
    (processed_urls : gset string) : outcome (list page) * gset string :=
  match _clean_url s url with
  | Raised message => (Raised message, processed_urls)
  | Returned url =>
      if bool_decide (url ∈ processed_urls) then (Returned [], processed_urls)
      else
        let processed_urls := {[url]} ∪ processed_urls in
        match get_page_content s url with
        | None => (Returned [], processed_urls)
        | Some page =>
            match levels with
            | O => (Returned [page], processed_urls)
            | S levels' =>
                match _extract_confluence_links s (pg_content page) with
                | Raised _ => (Returned [page], processed_urls)
                | Returned referenced_urls =>
                    let acc :=
                      foldl (λ acc ref_url,
                        match process_pages s levels' ref_url acc.2 with
                        | (Returned sub_pages, processed_urls) =>
                            (acc.1 ++ sub_pages, processed_urls)
                        | (Raised _, processed_urls) =>
                            (acc.1, processed_urls)
                        end) ([page], processed_urls) referenced_urls in
                    (Returned acc.1, acc.2)
                end
            end
        end
  end.

Definition process_page_recursive (s : site) (url : string)
    (current_depth max_depth : Z) (processed_urls : gset string)
    : outcome (list page) * gset string :=
  if bool_decide (max_depth < current_depth)%Z
  then (Returned [], processed_urls)
  else process_pages s (Z.to_nat (max_depth - current_depth)) url
         processed_urls.

(** One link: the page at [u] refers to a URL that is cleaned to [v]. *)
Definition refers_to (s : site) (u v : string) : Prop :=
  ∃ pg refs r, get_page_content s u = Some pg ∧
               _extract_confluence_links s (pg_content pg) = Returned refs ∧
               r ∈ refs ∧ _clean_url s r = Returned v.

(** [v] is at most [n] links away from [u]. *)
Inductive within (s : site) : nat → string → string → Prop :=
  | within_here n u : within s n u u
  | within_link n u v w :
      refers_to s u v → within s n v w → within s (S n) u w.

(** What a crawl from the cleaned URL [u0] has made of the pages and of the
    set of processed URLs: the pages returned are the pages of the URLs
    added to the set, each one once, and every URL added is at most [n]
    links away from [u0]. *)
Definition crawled (s : site) (processed : gset string) (u0 : string)
    (n : nat) (pages : list page) (pr : gset string) : Prop :=
  {[u0]} ∪ processed ⊆ pr ∧
  ∃ urls,
    Forall2 (λ u p, get_page_content s u = Some p) urls pages ∧
    NoDup urls ∧
    (∀ u, u ∈ urls ↔
          (u ∈ pr ∧ (u ∉ processed) ∧ is_Some (get_page_content s u))) ∧
    (∀ u, u ∈ pr → u ∉ processed → within s n u0 u).

(** What a call of the crawl does to the set of processed URLs and what it
    returns. *)
Definition crawl_spec (s : site) (levels : nat) (url : string)
    (processed : gset string) (r : outcome (list page) * gset string)
    : Prop :=
  processed ⊆ r.2 ∧
  match r.1 with
  | Raised message => r.2 = processed ∧ _clean_url s url = Raised message
  | Returned pages =>
      ∃ u0 urls,
        _clean_url s url = Returned u0 ∧ u0 ∈ r.2 ∧
        Forall2 (λ u p, get_page_content s u = Some p) urls pages ∧
        NoDup urls ∧
        (∀ u, u ∈ urls ↔
              (u ∈ r.2 ∧ (u ∉ processed) ∧
               is_Some (get_page_content s u))) ∧
        (∀ u, u ∈ r.2 → u ∉ processed → within s levels u0 u)
  end.

(** A site of two pages that refer to each other, and to a page that is not
    there. *)
Definition wiki : site :=
  {| _clean_url := λ url, Returned url;
     get_page_content := λ url,
       if bool_decide (url = "a")
       then Some {| pg_id := "1"; pg_title := "A"; pg_content := "see b" |}
       else if bool_decide (url = "b")
       then Some {| pg_id := "2"; pg_title := "B"; pg_content := "see a, c" |}
       else None;
     _extract_confluence_links := λ html,
       if bool_decide (html = "see b") then Returned ["b"; "a"]
       else if bool_decide (html = "see a, c") then Returned ["a"; "c"]
       else Returned [] |}.

(** ** [main]: the chunks of a page go to the store *)

(** The document that the loop of [main] writes for the chunk at position
    [i] of a page, with the embedding and the links it got for it.  Only
    the links that are in [processed_urls] are kept as references. *)
Definition chunk_document (processed_urls : gset string) (pg : page)
    (i : nat) (c : Chunker.chunk) (embedding_vector : list float)
    (chunk_references : list string) : chunk_doc :=
  {| cd_id := Chunker.chunk_id (pg_id pg) i;
     cd_page_id := pg_id pg; cd_page_title := pg_title pg;
     cd_header := Chunker.header c;
     cd_level := Some (Z.of_nat (Chunker.level c));
     cd_content := Chunker.content c;
     cd_full_context := Chunker.full_context c;
     cd_embedding := Some embedding_vector;
     cd_references :=
       List.filter (λ ref, bool_decide (ref ∈ processed_urls))
                   chunk_references;
     cd_keywords := [];
     cd_parent_chunk_id := Chunker.parent_chunk_id c;
     cd_children := Chunker.children c;
     cd_header_path := Chunker.header_path c;
     cd_depth := Some (Z.of_nat (Chunker.depth c)) |}.

(** The body of [for i, chunk in enumerate(chunks)]: the embedding of the
    chunk's [full_context] is asked for, the links of its [content] are
    extracted, and the chunk is written under the id
    [f"{page['id']}-chunk-{i}"].  Neither call is guarded here. *)
Definition store_chunk (svc : services) (s : site)
    (processed_urls : gset string) (pg : page) (collection : list chunk_doc)
    (i : nat) (c : Chunker.chunk) : outcome (list chunk_doc) :=
  match embeddings_create svc (Chunker.full_context c) with
  | Raised message => Raised message
  | Returned embedding_vector =>
      match _extract_confluence_links s (Chunker.content c) with
      | Raised message => Raised message
      | Returned chunk_references =>
          Returned
            (add_confluence_chunk collection
               (Chunker.chunk_id (pg_id pg) i) (pg_id pg) (pg_title pg)
               (Chunker.header c) (Z.of_nat (Chunker.level c))
               (Chunker.content c) (Chunker.full_context c) embedding_vector
               (List.filter (λ ref, bool_decide (ref ∈ processed_urls))
                            chunk_references)
               (Chunker.parent_chunk_id c) (Chunker.children c)
               (Chunker.header_path c) (Z.of_nat (Chunker.depth c)) [])
      end
  end.

(** The loop from position [i] on.  An error leaves the loop, for the
    [except] of the loop over the URLs; what has been written stays. *)
Fixpoint store_chunks (svc : services) (s : site)
    (processed_urls : gset string) (pg : page) (collection : list chunk_doc)
    (i : nat) (chunks : list Chunker.chunk)
    : list chunk_doc * option string :=
  match chunks with
  | [] => (collection, None)
  | c :: chunks' =>
      match store_chunk svc s processed_urls pg collection i c with
      | Raised message => (collection, Some message)
      | Returned collection' =>
          store_chunks svc s processed_urls pg collection' (S i) chunks'
      end
  end.

(** The chunks of one page, cut from the elements [all_elements] that the
    parser finds in its content, are written to the store. *)
Definition store_page (svc : services) (s : site)
    (processed_urls : gset string) (pg : page)
    (all_elements : list Chunker.element) (collection : list chunk_doc)
    : list chunk_doc * option string :=
  store_chunks svc s processed_urls pg collection 0
    (Chunker.chunk_content all_elements (pg_id pg)).

(** A site without links. *)
Definition plain_site : site :=
  {| _clean_url := λ url, Returned url;
     get_page_content := λ _, None;
     _extract_confluence_links := λ _, Returned [] |}.

(** ** [admin_load_confluence.process_urls]: the loop with the embedding
    guarded *)

(** The loop over the chunks of a page in [process_urls] of
    [admin_load_confluence]: an
    error of the embedding is printed and the chunk is passed over
    ([continue]); an error of [_extract_confluence_links] leaves the loop as
    before. *)
Fixpoint admin_store_chunks (svc : services) (s : site)
    (processed_urls : gset string) (pg : page) (collection : list chunk_doc)
    (i : nat) (chunks : list Chunker.chunk)
    : list chunk_doc * option string :=
  match chunks with
  | [] => (collection, None)
  | c :: chunks' =>
      match embeddings_create svc (Chunker.full_context c) with
      | Raised _ =>
          admin_store_chunks svc s processed_urls pg collection (S i) chunks'
      | Returned embedding_vector =>
          match _extract_confluence_links s (Chunker.content c) with
          | Raised message => (collection, Some message)
          | Returned chunk_references =>
              admin_store_chunks svc s processed_urls pg
                (add_confluence_chunk collection
                   (Chunker.chunk_id (pg_id pg) i) (pg_id pg) (pg_title pg)
                   (Chunker.header c) (Z.of_nat (Chunker.level c))
                   (Chunker.content c) (Chunker.full_context c)
                   embedding_vector
                   (List.filter (λ ref, bool_decide (ref ∈ processed_urls))
                                chunk_references)
                   (Chunker.parent_chunk_id c) (Chunker.children c)
                   (Chunker.header_path c) (Z.of_nat (Chunker.depth c)) [])
                (S i) chunks'
          end
      end
  end.

Definition admin_store_page (svc : services) (s : site)
    (processed_urls : gset string) (pg : page)
    (all_elements : list Chunker.element) (collection : list chunk_doc)
    : list chunk_doc * option string :=
  admin_store_chunks svc s processed_urls pg collection 0
    (Chunker.chunk_content all_elements (pg_id pg)).

(** An embedding service that fails on the texts that begin with ["A"]. *)
Definition services_flaky : services :=
  {| embeddings_create := λ text,
       if String.prefix "A" text then Raised "rate limit"
       else Returned [1.0%float; 0.0%float];
     topics_completion := λ _, Returned "install, driver" |}.

(** * Properties *)

(** ** Floats and lists *)


Lemma find_id_None (collection : list doc) (k : string) :
  _get_document_by_id collection k = None ↔ k ∉ _id <$> collection.
Proof.
  unfold _get_document_by_id.
  induction collection as [|d l IH]; simpl.
  - split; [intros _; apply not_elem_of_nil | done].
  - rewrite not_elem_of_cons. case_bool_decide as E.
    + split; [done | intros [? _]; by subst].
    + rewrite IH. naive_solver.
Qed.

Lemma build_doc_map_lookup_None (all_docs : list doc) (k : string) :
  build_doc_map all_docs !! k = None ↔ k ∉ _id <$> all_docs.
Proof.
  unfold build_doc_map.
  assert (G : ∀ (m : gmap string doc),
    foldl (λ m d, <[_id d := d]> m) m all_docs !! k = None
    ↔ m !! k = None ∧ k ∉ _id <$> all_docs).
  { induction all_docs as [|d l IH]; intros m; simpl.
    - split; [intros ?; split; [done | apply not_elem_of_nil] | tauto].
    - rewrite IH, not_elem_of_cons, lookup_insert_None. naive_solver. }
  rewrite G, lookup_empty. tauto.
Qed.

Lemma build_doc_map_lookup_Some (all_docs : list doc) (k : string) (d : doc) :
  build_doc_map all_docs !! k = Some d → d ∈ all_docs ∧ _id d = k.
Proof.
  unfold build_doc_map.
  assert (G : ∀ (m : gmap string doc),
    foldl (λ m d, <[_id d := d]> m) m all_docs !! k = Some d →
    m !! k = Some d ∨ (d ∈ all_docs ∧ _id d = k)).
  { induction all_docs as [|d' l IH]; intros m; simpl; [tauto|].
    intros [H|[H1 H2]]%IH.
    - apply lookup_insert_Some in H as [[<- <-]|[_ H]].
      + right. split; [left | done].
      + by left.
    - right. split; [by right | done]. }
  intros [H|H]%G; [by rewrite lookup_empty in H | done].
Qed.

(** ** The scorer on a seed *)

(** The boost of the path [["seed"]] is the one of a path of length one. *)
Lemma path_boost_seed : path_boost (Some ["seed"]) = 1.3%float.
Proof. reflexivity. Qed.

(** Without a path, or with an empty one, there is no boost. *)
Lemma path_boost_no_path :
  path_boost None = 1.0%float ∧ path_boost (Some []) = 1.0%float.
Proof. split; reflexivity. Qed.




(** ** The search over a corpus without embeddings *)

(** C8, as the code has it: over a corpus in which no node carries an
    embedding, [search] answers the single text "No information found in the
    database." with the score 0.0 whenever the embedding of the query was
    obtained; when that call raises, the answer is the single error text,
    also with the score 0.0.  Either way one document and the scores [[0.0]]
    are returned. *)
Theorem search_without_embeddings (svc : services) (collection : list doc)
    (query : string) (n_seed_results n_total_results max_traversal_depth : Z) :
  find_with_embedding collection = [] →
  let r := search svc collection query n_seed_results n_total_results
             max_traversal_depth in
  (∀ query_embedding,
     _compute_embedding svc query = Returned query_embedding →
     r = no_documents_result) ∧
  (∀ message,
     _compute_embedding svc query = Raised message →
     r = error_result message) ∧
  length (documents r) = 1 ∧ scores r = [0.0%float].
Proof.
  intros Hnone r. subst r. unfold search. rewrite Hnone.
  destruct (_compute_embedding svc query) as [q|msg]; simpl.
  - repeat split; intros; (discriminate || reflexivity).
  - repeat split; intros; first [discriminate | reflexivity | congruence].
Qed.

Lemma search_without_embeddings_witness :
  let r := search services_up [] "how to install" 5 15 3 in
  (∀ query_embedding,
     _compute_embedding services_up "how to install" = Returned query_embedding →
     r = no_documents_result) ∧
  (∀ message,
     _compute_embedding services_up "how to install" = Raised message →
     r = error_result message) ∧
  length (documents r) = 1 ∧ scores r = [0.0%float].
Proof.
  apply (search_without_embeddings services_up [] "how to install" 5 15 3).
  reflexivity.
Defined.

(** C8 as stated fails: with the embedding service down, the one document
    returned over the empty corpus is the error text. *)
Lemma search_without_embeddings_error :
  find_with_embedding [] = [] ∧
  documents (search services_down [] "how to install" 5 15 3)
  = ["Error searching for information: Connection error."] ∧
  documents (search services_down [] "how to install" 5 15 3)
  ≠ ["No information found in the database."].
Proof. split; [reflexivity | split; [reflexivity | discriminate]]. Qed.

(** ** The chunker *)

Section chunker.
Import Chunker.

Lemma save_chunk_view (st : loop_state) cur :
  open_matches st cur →
  chunk_view <$> save_chunk st
  = (chunk_view <$> chunks st)
    ++ (section_view <$> List.filter has_body (option_list cur)).
Proof.
  unfold open_matches, save_chunk.
  destruct (current_chunk st) as [c|], cur as [[[tag h] body]|]; simpl;
    try done.
  - intros (Hh & Hl & Hb). rewrite Hb. unfold has_body. simpl.
    destruct body as [|b body]; simpl.
    + by rewrite app_nil_r.
    + rewrite fmap_app. simpl. unfold chunk_view at 2, section_view. simpl.
      by rewrite Hh, Hl.
  - intros _. by rewrite app_nil_r.
Qed.

Lemma process_block_kept (page_id : string) (st : loop_state) (c : chunk)
    (t : string) :
  current_chunk st = Some c → str_truthy (py_strip t) = true →
  process_element page_id st (Block t)
  = {| chunks := chunks st; current_headers := current_headers st;
       current_chunk := current_chunk st;
       chunk_lines := chunk_lines st ++ [t] |}.
Proof. intros Hc Ht. simpl. by rewrite Hc, Ht. Qed.

Lemma process_block_blank (page_id : string) (st : loop_state) (t : string) :
  str_truthy (py_strip t) = false →
  process_element page_id st (Block t) = st.
Proof. intros Ht. simpl. rewrite Ht. by destruct (current_chunk st). Qed.

(** Blocks before the first header are dropped. *)
Lemma process_block_dropped (page_id : string) (st : loop_state) (t : string) :
  current_chunk st = None → process_element page_id st (Block t) = st.
Proof. intros Hc. simpl. by rewrite Hc. Qed.

Lemma process_elements_view (page_id : string) (els : list element) :
  ∀ (st : loop_state) cur,
    open_matches st cur →
    chunk_view <$> save_chunk (foldl (process_element page_id) st els)
    = (chunk_view <$> chunks st)
      ++ (section_view <$> List.filter has_body (sections_go cur els)).
Proof.
  induction els as [|el els IH]; intros st cur Hm.
  - simpl. rewrite (save_chunk_view st cur Hm).
    by destruct cur.
  - destruct el as [tag raw|t].
    + (* a header closes the open section and opens the next *)
      cbn [foldl].
      rewrite (IH _ (Some (tag, py_strip raw, []))) by (simpl; done).
      cbn [chunks process_element].
      rewrite (save_chunk_view st cur Hm), <- app_assoc. f_equal.
      destruct cur as [s|]; simpl; [|done].
      destruct (has_body s); simpl; done.
    + (* a block goes to the open section, if there is one *)
      cbn [foldl]. unfold open_matches in Hm.
      destruct (current_chunk st) as [c|] eqn:Hc, cur as [[[tag h] body]|];
        try done; simpl in Hm.
      * destruct Hm as (Hh & Hl & Hb).
        destruct (str_truthy (py_strip t)) eqn:Ht.
        -- rewrite (process_block_kept page_id st c t Hc Ht).
           rewrite (IH _ (Some (tag, h, body ++ [t]))).
           ++ simpl. by rewrite Ht.
           ++ unfold open_matches. simpl. by rewrite Hc, Hb.
        -- rewrite (process_block_blank page_id st t Ht).
           rewrite (IH _ (Some (tag, h, body))).
           ++ simpl. by rewrite Ht.
           ++ unfold open_matches. by rewrite Hc.
      * rewrite (process_block_dropped page_id st t Hc).
        rewrite (IH _ None); [done|].
        unfold open_matches. by rewrite Hc.
Qed.

(** The second pass touches nothing but [children]. *)
Lemma fill_children_view (page_id : string) (cs : list chunk) :
  chunk_view <$> fill_children page_id cs = chunk_view <$> cs.
Proof.
  unfold fill_children.
  generalize (build_chunk_map page_id (length cs)) as m.
  generalize (seq 0 (length cs)) as idx. intros idx m.
  revert cs. induction idx as [|i idx IH]; intros cs; [done|].
  simpl. rewrite IH. unfold fill_child.
  destruct (cs !! i) as [c|]; [|done].
  destruct (Chunker.parent_chunk_id c) as [p|]; [|done].
  destruct (str_truthy p); [|done].
  destruct (m !! p) as [j|]; [|done].
  apply list_eq. intros k. rewrite !list_lookup_fmap.
  destruct (decide (k = j)) as [->|Hne].
  - rewrite list_lookup_alter_eq. by destruct (cs !! j).
  - by rewrite list_lookup_alter_ne.
Qed.

End chunker.

(** C4: the chunks are, in order, the sections of the document that have a
    body: a header with no non-blank block before the next header, or before
    the end, leaves no chunk. *)
Theorem chunk_per_section_with_body (all_elements : list Chunker.element)
    (page_id : string) :
  chunk_view <$> Chunker.chunk_content all_elements page_id
  = section_view
      <$> List.filter Chunker.has_body (Chunker.sections all_elements).
Proof.
  unfold Chunker.chunk_content. rewrite fill_children_view.
  by rewrite (process_elements_view page_id all_elements
                Chunker.initial_state None).
Qed.

(** ** The chunker on the document A, B, C, C.1 *)

Section chunker_tree.
Import Chunker.

Lemma chunk_id_inj (page_id : string) (i j : nat) :
  chunk_id page_id i = chunk_id page_id j → i = j.
Proof.
  unfold chunk_id. intros H.
  apply (inj (String.app page_id)) in H.
  apply (inj (String.app "-chunk-")) in H.
  by apply (inj pretty) in H.
Qed.

Lemma chunk_id_truthy (page_id : string) (i : nat) :
  str_truthy (chunk_id page_id i) = true.
Proof.
  unfold chunk_id. induction page_id as [|a s IH]; simpl; done.
Qed.

Lemma build_chunk_map_lookup (page_id : string) (n i : nat) :
  i < n → build_chunk_map page_id n !! chunk_id page_id i = Some i.
Proof.
  unfold build_chunk_map. intros Hi.
  induction n as [|n IH]; [lia|].
  rewrite seq_S, foldl_app. simpl.
  destruct (decide (i = n)) as [->|Hne].
  - by rewrite lookup_insert_eq.
  - rewrite lookup_insert_ne; [apply IH; lia|].
    intros H%chunk_id_inj. lia.
Qed.

(** A run of blocks under an open header adds its non-blank texts. *)
Lemma process_blocks_open (page_id : string) (bs : list element) :
  ∀ (st : loop_state) (c : chunk),
    Forall is_block bs → current_chunk st = Some c →
    foldl (process_element page_id) st bs
    = {| chunks := chunks st; current_headers := current_headers st;
         current_chunk := Some c;
         chunk_lines := chunk_lines st ++ block_lines bs |}.
Proof.
  induction bs as [|el bs IH]; intros st c Hb Hc.
  - simpl. rewrite app_nil_r. destruct st; simpl in *; by subst.
  - apply Forall_cons in Hb as [Hel Hb].
    destruct el as [|t]; [done|]. cbn [foldl].
    destruct (str_truthy (py_strip t)) eqn:Ht.
    + rewrite (process_block_kept page_id st c t Hc Ht).
      rewrite (IH _ c Hb) by done. simpl. rewrite Ht. simpl.
      by rewrite <- app_assoc.
    + rewrite (process_block_blank page_id st t Ht).
      rewrite (IH _ c Hb Hc). simpl. by rewrite Ht.
Qed.

(** A run of blocks before the first header changes nothing. *)
Lemma process_blocks_closed (page_id : string) (bs : list element) :
  ∀ (st : loop_state),
    Forall is_block bs → current_chunk st = None →
    foldl (process_element page_id) st bs = st.
Proof.
  induction bs as [|el bs IH]; intros st Hb Hc; [done|].
  apply Forall_cons in Hb as [Hel Hb].
  destruct el as [|t]; [done|]. cbn [foldl].
  rewrite (process_block_dropped page_id st t Hc). by apply IH.
Qed.

(** The second pass on a chunk with a parent among the chunks, and on a root. *)
Lemma fill_child_parent (page_id : string) (n i j : nat) (cs : list chunk)
    (c : chunk) :
  cs !! i = Some c → Chunker.parent_chunk_id c = Some (chunk_id page_id j) →
  j < n →
  fill_child page_id (build_chunk_map page_id n) cs i
  = alter (add_child (chunk_id page_id i)) j cs.
Proof.
  intros Hc Hp Hj. unfold fill_child.
  by rewrite Hc, Hp, chunk_id_truthy, build_chunk_map_lookup.
Qed.

Lemma fill_child_root (page_id : string) (m : gmap string nat) (i : nat)
    (cs : list chunk) (c : chunk) :
  cs !! i = Some c → Chunker.parent_chunk_id c = None →
  fill_child page_id m cs i = cs.
Proof. intros Hc Hp. unfold fill_child. by rewrite Hc, Hp. Qed.

End chunker_tree.

Section chunker_abcc.
Import Chunker.

Declare Reduction chunker_nf :=
  cbv - [chunk_id py_join py_repeat String.append String.length newline
         block_lines build_chunk_map].

(** C3, as the code has it: when each of the four headers H1 "A", H2 "B",
    H2 "C", H3 "C.1" is followed by at least one non-blank block, the chunker
    returns four chunks; "B" and "C" have the chunk of "A" as parent, "C.1"
    has the chunk of "C", the children of "A" are "B" and "C" and the only
    child of "C" is "C.1".  The chunk at position [i] has the id
    [chunk_id page_id i]. *)
Theorem chunk_tree_of_abcc (page_id : string)
    (pre bA bB bC bD : list element) :
  Forall is_block (pre ++ bA ++ bB ++ bC ++ bD) →
  block_lines bA ≠ [] → block_lines bB ≠ [] →
  block_lines bC ≠ [] → block_lines bD ≠ [] →
  chunk_links <$> chunk_content (abcc_document pre bA bB bC bD) page_id
  = [ ("A", None, [chunk_id page_id 1; chunk_id page_id 2]);
      ("B", Some (chunk_id page_id 0), []);
      ("C", Some (chunk_id page_id 0), [chunk_id page_id 3]);
      ("C.1", Some (chunk_id page_id 2), []) ].
Proof.
  intros Hb HA HB HC HD.
  rewrite !Forall_app in Hb. destruct Hb as (Hpre & HbA & HbB & HbC & HbD).
  unfold chunk_content, abcc_document.
  rewrite foldl_app, (process_blocks_closed page_id pre) by done.
  (* the header "A" and its blocks *)
  cbn [foldl]. rewrite foldl_app.
  erewrite (process_blocks_open page_id bA) by (done || reflexivity).
  destruct (block_lines bA) as [|a la]; [done|]. clear HA.
  (* the header "B" and its blocks *)
  cbn [foldl]. rewrite foldl_app.
  match goal with |- context [process_element ?p ?s ?e] =>
    let st := eval chunker_nf in (process_element p s e) in
    change (process_element p s e) with st end.
  erewrite (process_blocks_open page_id bB) by (done || reflexivity).
  destruct (block_lines bB) as [|b lb]; [done|]. clear HB.
  (* the header "C" and its blocks *)
  cbn [foldl]. rewrite foldl_app.
  match goal with |- context [process_element ?p ?s ?e] =>
    let st := eval chunker_nf in (process_element p s e) in
    change (process_element p s e) with st end.
  erewrite (process_blocks_open page_id bC) by (done || reflexivity).
  destruct (block_lines bC) as [|c lc]; [done|]. clear HC.
  (* the header "C.1" and its blocks *)
  cbn [foldl].
  match goal with |- context [process_element ?p ?s ?e] =>
    let st := eval chunker_nf in (process_element p s e) in
    change (process_element p s e) with st end.
  erewrite (process_blocks_open page_id bD) by (done || reflexivity).
  destruct (block_lines bD) as [|d ld]; [done|]. clear HD.
  (* the second pass *)
  match goal with |- context [save_chunk ?s] =>
    let cs := eval chunker_nf in (save_chunk s) in
    change (save_chunk s) with cs end.
  unfold fill_children. cbn [length seq foldl].
  erewrite (fill_child_root page_id _ 0) by reflexivity.
  erewrite (fill_child_parent page_id 4 1 0) by (reflexivity || lia).
  cbn [alter list_alter add_child Chunker.children Chunker.header
       Chunker.level Chunker.parent_chunk_id Chunker.parent_header
       Chunker.header_path Chunker.depth Chunker.content
       Chunker.full_context app].
  erewrite (fill_child_parent page_id 4 2 0) by (reflexivity || lia).
  cbn [alter list_alter add_child Chunker.children Chunker.header
       Chunker.level Chunker.parent_chunk_id Chunker.parent_header
       Chunker.header_path Chunker.depth Chunker.content
       Chunker.full_context app].
  erewrite (fill_child_parent page_id 4 3 2) by (reflexivity || lia).
  reflexivity.
Qed.

End chunker_abcc.

Lemma chunk_tree_of_abcc_witness :
  chunk_links
    <$> Chunker.chunk_content
          (abcc_document [Chunker.Block "Welcome"] [Chunker.Block "About A"]
             [Chunker.Block "About B"] [Chunker.Block "About C"]
             [Chunker.Block "About C.1"]) "page"
  = [ ("A", None, [Chunker.chunk_id "page" 1; Chunker.chunk_id "page" 2]);
      ("B", Some (Chunker.chunk_id "page" 0), []);
      ("C", Some (Chunker.chunk_id "page" 0), [Chunker.chunk_id "page" 3]);
      ("C.1", Some (Chunker.chunk_id "page" 2), []) ].
Proof.
  apply (chunk_tree_of_abcc "page" [Chunker.Block "Welcome"]
           [Chunker.Block "About A"] [Chunker.Block "About B"]
           [Chunker.Block "About C"] [Chunker.Block "About C.1"]);
    [repeat constructor | discriminate..].
Defined.

(** C3 as stated fails: a document that has the four headers and nothing
    else gives no chunk; and when only "A" has no text under it, three
    chunks are returned and "B" has no parent. *)
Lemma headers_without_text :
  Chunker.chunk_content (abcc_document [] [] [] [] []) "page" = [] ∧
  length (Chunker.chunk_content (abcc_document [] [] [] [] []) "page") ≠ 4 ∧
  (Chunker.header <$>
     Chunker.chunk_content
       (abcc_document [] [] [Chunker.Block "About B"]
          [Chunker.Block "About C"] [Chunker.Block "About C.1"]) "page")
  = ["B"; "C"; "C.1"] ∧
  (Chunker.parent_chunk_id <$>
     head (Chunker.chunk_content
             (abcc_document [] [] [Chunker.Block "About B"]
                [Chunker.Block "About C"] [Chunker.Block "About C.1"]) "page"))
  = Some None.
Proof. vm_compute. repeat split; discriminate. Qed.

(** ** The traversal: the strategies one by one *)

Lemma sort_desc_perm {A} (key : A → float) (l : list A) :
  sort_desc key l ≡ₚ l.
Proof.
  assert (Hins : ∀ x l, insert_desc key x l ≡ₚ x :: l).
  { intros x l'. induction l' as [|y l' IH]; simpl; [done|].
    destruct (key x <? key y)%float; [|done].
    rewrite IH. apply Permutation_swap. }
  induction l as [|x l IH]; simpl; [done|].
  unfold sort_desc in IH. by rewrite Hins, IH.
Qed.

Lemma index_by_snoc (key : doc → option string) (l : list doc) (d : doc) :
  index_by key (l ++ [d])
  = match key d with
    | Some p =>
        if str_truthy p
        then <[p := default [] (index_by key l !! p) ++ [_id d]]> (index_by key l)
        else index_by key l
    | None => index_by key l
    end.
Proof. unfold index_by. by rewrite foldl_app. Qed.

(** The lists of an index hold ids of the snapshot. *)
Lemma index_by_elem (key : doc → option string) (all_docs : list doc)
    (k x : string) (l : list string) :
  index_by key all_docs !! k = Some l → x ∈ l → x ∈ _id <$> all_docs.
Proof.
  revert l. induction all_docs as [|d docs IH] using rev_ind; intros l.
  - unfold index_by. simpl. by rewrite lookup_empty.
  - rewrite index_by_snoc, fmap_app, elem_of_app. simpl.
    destruct (key d) as [p|]; [destruct (str_truthy p)|]; eauto.
    intros [[<- <-]|[_ H]]%lookup_insert_Some; [|eauto].
    intros [Hx|Hx%list_elem_of_singleton]%elem_of_app.
    + left. destruct (index_by key docs !! p) as [l'|] eqn:E; simpl in Hx.
      * eauto.
      * by apply elem_of_nil in Hx.
    + right. subst. apply list_elem_of_singleton. done.
Qed.

Lemma index_by_Forall (key : doc → option string) (all_docs : list doc)
    (k : string) :
  Forall (λ x, x ∈ _id <$> all_docs) (default [] (index_by key all_docs !! k)).
Proof.
  apply Forall_forall. intros x Hx.
  destruct (index_by key all_docs !! k) as [l|] eqn:E; simpl in Hx.
  - by eapply index_by_elem.
  - by apply elem_of_nil in Hx.
Qed.

Lemma reachable_id (all_docs : list doc) (d : doc) :
  d ∈ all_docs → _id d ∈ reachable_ids all_docs.
Proof.
  intros Hd. unfold reachable_ids. apply elem_of_app. left.
  by apply list_elem_of_fmap_2.
Qed.

Lemma reachable_ids_id (all_docs : list doc) (x : string) :
  x ∈ _id <$> all_docs → x ∈ reachable_ids all_docs.
Proof. intros Hx. unfold reachable_ids. apply elem_of_app. by left. Qed.

Lemma reachable_parent (all_docs : list doc) (d : doc) (p : string) :
  d ∈ all_docs → parent_chunk_id d = Some p → p ∈ reachable_ids all_docs.
Proof.
  intros Hd Hp. unfold reachable_ids. apply elem_of_app. right.
  apply list_elem_of_omap. eauto.
Qed.

Lemma foldl_preserves {A} (P : traversal_state → Prop) (Q : A → Prop)
    (f : traversal_state → A → traversal_state) (l : list A)
    (st : traversal_state) :
  (∀ st x, Q x → P st → P (f st x)) → Forall Q l → P st → P (foldl f st l).
Proof.
  intros Hf Hl. revert st. induction Hl as [|x l Hx Hl IH]; intros st HP.
  - done.
  - simpl. apply IH. by apply Hf.
Qed.

Section strategies.
Context (P : traversal_state → Prop) (Q : string → Prop).
Context (all_docs : list doc).
Context (HQ : ∀ x, x ∈ reachable_ids all_docs → Q x).

Lemma visit_parent_preserves current_node depth d st :
  discovery_closed P Q "parent" "parent" →
  d ∈ all_docs → P st → P (visit_parent current_node depth d st).
Proof.
  intros Hc Hd HP. unfold visit_parent.
  destruct (parent_chunk_id d) as [p|] eqn:Hp; [|done].
  destruct (str_truthy p); [|done]. simpl.
  case_bool_decide; [|done].
  apply Hc; eauto using reachable_parent.
Qed.

Lemma visit_children_preserves current_node depth st :
  discovery_closed P Q "child" "child" →
  P st →
  P (visit_children (build_parent_to_children all_docs) current_node depth st).
Proof.
  intros Hc HP. unfold visit_children.
  eapply foldl_preserves;
    [|apply (index_by_Forall parent_chunk_id all_docs current_node)|done].
  intros st' x Hx HP'. simpl in Hx.
  case_bool_decide; [|done].
  apply Hc; eauto using reachable_ids_id.
Qed.

Lemma visit_siblings_preserves current_node depth d st :
  discovery_closed P Q "sibling" "sibling" →
  P st →
  P (visit_siblings (build_parent_to_children all_docs) current_node depth d st).
Proof.
  intros Hc HP. unfold visit_siblings.
  destruct (parent_chunk_id d) as [p|]; [|done].
  destruct (str_truthy p); [|done].
  eapply foldl_preserves;
    [|apply (index_by_Forall parent_chunk_id all_docs p)|done].
  intros st' x Hx HP'. simpl in Hx.
  case_bool_decide; simpl; [|done].
  case_bool_decide; [|done].
  apply Hc; eauto using reachable_ids_id.
Qed.

Lemma visit_same_level_preserves current_node depth d st :
  discovery_closed P Q "semantic" "same_level" →
  P st →
  P (visit_same_level (build_doc_map all_docs) (build_page_to_chunks all_docs)
       current_node depth d st).
Proof.
  intros Hc HP. unfold visit_same_level.
  destruct (page_id d) as [p|]; [|done].
  destruct (str_truthy p && _); [|done].
  eapply foldl_preserves;
    [|apply (index_by_Forall page_id all_docs p)|done].
  intros st' x Hx HP'. simpl in Hx.
  case_bool_decide; simpl; [|done].
  case_bool_decide; [|done].
  destruct (build_doc_map all_docs !! x); [|done].
  case_bool_decide; [|done].
  apply Hc; eauto using reachable_ids_id.
Qed.

End strategies.

(** ** The traversal ends *)

Lemma unseen_mono (ids : list string) (seen seen' : gset string) :
  seen ⊆ seen' → unseen ids seen' ≤ unseen ids seen.
Proof.
  intros Hs. unfold unseen. induction ids as [|x ids IH]; simpl; [done|].
  repeat case_bool_decide; simpl; try lia. set_solver.
Qed.

Lemma unseen_add (ids : list string) (seen : gset string) (id : string) :
  id ∈ ids → id ∉ seen → unseen ids ({[id]} ∪ seen) < unseen ids seen.
Proof.
  intros Hin Hid. unfold unseen. induction ids as [|x ids IH]; simpl.
  - by apply elem_of_nil in Hin.
  - pose proof (unseen_mono ids seen ({[id]} ∪ seen)) as Hm.
    unfold unseen in Hm.
    apply elem_of_cons in Hin as [<-|Hin].
    + rewrite (bool_decide_eq_false_2 (id ∉ {[id]} ∪ seen)) by set_solver.
      rewrite (bool_decide_eq_true_2 (id ∉ seen)) by done.
      simpl. apply Nat.lt_succ_r, Hm. set_solver.
    + specialize (IH Hin).
      repeat case_bool_decide; simpl; try lia. set_solver.
Qed.

Lemma unseen_length (ids : list string) (seen : gset string) :
  unseen ids seen ≤ length ids.
Proof. unfold unseen. apply List.filter_length_le. Qed.

(** Every discovery of an unvisited node of the snapshot leaves less work. *)
Lemma work_left_discovery (all_docs : list doc) (k : nat)
    (counter label : string) :
  discovery_closed (λ st, work_left all_docs st ≤ k)
    (λ x, x ∈ reachable_ids all_docs) counter label.
Proof.
  intros cur depth st id Hk Hid Hnew. unfold work_left in *. simpl.
  pose proof (unseen_add _ _ _ Hid Hnew). rewrite length_app. simpl. lia.
Qed.

(** The candidates of the semantic jump are unvisited nodes of the snapshot. *)
Lemma semantic_neighbors_elem (all_docs : list doc) (e : list float)
    (seen : gset string) (n : string * float) :
  n ∈ semantic_neighbors all_docs e seen →
  n.1 ∈ _id <$> all_docs ∧ n.1 ∉ seen.
Proof.
  unfold semantic_neighbors. intros (d & Hd & Hn)%list_elem_of_omap.
  case_bool_decide; [|done].
  destruct (embedding d); [|done].
  destruct (0.85 <? _)%float; [|done].
  injection Hn as <-. simpl. split; [by apply list_elem_of_fmap_2 | done].
Qed.

Lemma top_neighbors_elem (all_docs : list doc) (e : list float)
    (seen : gset string) (n : string * float) :
  n ∈ take 2 (sort_desc snd (semantic_neighbors all_docs e seen)) →
  n.1 ∈ _id <$> all_docs ∧ n.1 ∉ seen.
Proof.
  intros Hn%(subseteq_take 2). rewrite sort_desc_perm in Hn.
  by apply semantic_neighbors_elem in Hn.
Qed.

Lemma visit_semantic_work_left (all_docs : list doc) (k : nat)
    current_node depth d st :
  work_left all_docs st ≤ k →
  work_left all_docs (visit_semantic all_docs current_node depth d st) ≤ k.
Proof.
  intros Hk. unfold visit_semantic.
  destruct (_ && _); [|done].
  destruct (embedding d) as [[|a e]|]; try done.
  pose proof (top_neighbors_elem all_docs (a :: e) (visited st)) as Hel.
  destruct (take 2 _) as [|x [|y l]] eqn:Ht; simpl.
  - done.
  - destruct (Hel x) as [Hx Hnew]; [left|].
    eapply (work_left_discovery all_docs k); eauto using reachable_ids_id.
  - destruct (Hel x) as [Hx Hnew]; [left|].
    destruct (Hel y) as [Hy _]; [right; left|].
    assert (l = []) as ->.
    { apply (f_equal length) in Ht. rewrite length_take in Ht.
      destruct l; [done|]. cbn [length] in Ht. lia. }
    simpl. unfold work_left in *. simpl.
    pose proof (unseen_add _ _ _ (reachable_ids_id _ _ Hx) Hnew) as H1.
    pose proof (unseen_mono (reachable_ids all_docs)
                  ({[x.1]} ∪ visited st) ({[y.1]} ∪ ({[x.1]} ∪ visited st))) as H2.
    rewrite !length_app. simpl.
    assert ({[x.1]} ∪ visited st ⊆ {[y.1]} ∪ ({[x.1]} ∪ visited st)) as Hs
      by set_solver.
    specialize (H2 Hs). lia.
Qed.

Lemma expand_node_work_left (all_docs : list doc) (k : nat)
    current_node depth d st :
  d ∈ all_docs →
  work_left all_docs st ≤ k →
  work_left all_docs
    (expand_node all_docs (build_doc_map all_docs)
       (build_parent_to_children all_docs) (build_page_to_chunks all_docs)
       current_node depth d st) ≤ k.
Proof.
  intros Hd Hk. unfold expand_node.
  apply visit_semantic_work_left.
  apply (visit_same_level_preserves (λ st, work_left all_docs st ≤ k)
           (λ x, x ∈ reachable_ids all_docs) all_docs (λ _ H, H));
    [apply work_left_discovery|].
  apply (visit_siblings_preserves (λ st, work_left all_docs st ≤ k)
           (λ x, x ∈ reachable_ids all_docs) all_docs (λ _ H, H));
    [apply work_left_discovery|].
  apply (visit_children_preserves (λ st, work_left all_docs st ≤ k)
           (λ x, x ∈ reachable_ids all_docs) all_docs (λ _ H, H));
    [apply work_left_discovery|].
  apply (visit_parent_preserves (λ st, work_left all_docs st ≤ k)
           (λ x, x ∈ reachable_ids all_docs) all_docs (λ _ H, H));
    [apply work_left_discovery|done..].
Qed.

(** An iteration of the loop leaves less work than it found. *)
Lemma loop_body_work_left (all_docs : list doc) (max_depth : Z)
    current_node depth rest st :
  nodes_to_explore st = (current_node, depth) :: rest →
  work_left all_docs (loop_body all_docs max_depth current_node depth rest st)
  < work_left all_docs st.
Proof.
  intros Hq. unfold loop_body.
  set (st' := {| visited := visited st; discovery_paths := discovery_paths st;
                 nodes_to_explore := rest;
                 relationship_counts := relationship_counts st |}).
  assert (Hst' : work_left all_docs st' ≤ work_left all_docs st - 1).
  { unfold work_left. rewrite Hq. simpl. lia. }
  assert (0 < work_left all_docs st).
  { unfold work_left. rewrite Hq. simpl. lia. }
  case_bool_decide; [lia|].
  destruct (build_doc_map all_docs !! current_node) as [d|] eqn:Hd; [|lia].
  apply build_doc_map_lookup_Some in Hd as [Hd _].
  pose proof (expand_node_work_left all_docs _ current_node depth d st' Hd Hst').
  lia.
Qed.

(** With as much fuel as there is work left, the loop comes to its end. *)
Lemma traverse_loop_total (all_docs : list doc) (max_nodes max_depth : Z)
    (fuel : nat) :
  ∀ st, work_left all_docs st ≤ fuel →
        is_Some (traverse_loop fuel all_docs max_nodes max_depth st).
Proof.
  induction fuel as [|fuel IH]; intros st Hw.
  - unfold traverse_loop.
    destruct (nodes_to_explore st) as [|[cur depth] rest] eqn:Hq; [by eexists|].
    unfold work_left in Hw. rewrite Hq in Hw. simpl in Hw. lia.
  - simpl.
    destruct (nodes_to_explore st) as [|[cur depth] rest] eqn:Hq; [by eexists|].
    case_bool_decide; [|by eexists].
    apply IH.
    pose proof (loop_body_work_left all_docs max_depth cur depth rest st Hq).
    lia.
Qed.

Lemma length_omap_le {A B} (f : A → option B) (l : list A) :
  length (omap f l) ≤ length l.
Proof.
  induction l as [|x l IH]; [done|]. cbn. destruct (f x); cbn; lia.
Qed.

Lemma seed_state_work_left (all_docs : list doc) (seed_nodes : list string) :
  work_left all_docs (seed_state seed_nodes) ≤ traverse_fuel all_docs seed_nodes.
Proof.
  unfold work_left, traverse_fuel. simpl. rewrite length_fmap.
  pose proof (unseen_length (reachable_ids all_docs) (list_to_set seed_nodes)).
  assert (length (reachable_ids all_docs) ≤ 2 * length all_docs).
  { unfold reachable_ids. rewrite length_app, length_fmap.
    pose proof (length_omap_le parent_chunk_id all_docs). lia. }
  lia.
Qed.

(** The traversal always comes to its end. *)
Lemma traverse_final_total (all_docs : list doc) (seed_nodes : list string)
    (max_nodes max_depth : Z) :
  is_Some (traverse_final all_docs seed_nodes max_nodes max_depth).
Proof. apply traverse_loop_total, seed_state_work_left. Qed.

(** ** The bound on the visited nodes *)





(** ** Nodes that are not in the store *)

(** C7: an id that no document of the store has is passed over when the loop
    takes it off the work list, its score is 0.0, and it contributes no
    document to the result; the traversal comes to its end on every store,
    and the result of a search has as many scores as documents. *)
Theorem missing_node_is_skipped (collection : list doc) (node_id : string) :
  node_id ∉ _id <$> collection →
  (∀ max_depth depth rest st,
     loop_body collection max_depth node_id depth rest st
     = {| visited := visited st; discovery_paths := discovery_paths st;
          nodes_to_explore := rest;
          relationship_counts := relationship_counts st |}) ∧
  (∀ query_embedding topics path,
     _get_node_relevance_score collection node_id query_embedding topics path
     = 0.0%float) ∧
  (∀ score ranked,
     retrieve_documents collection ((node_id, score) :: ranked)
     = retrieve_documents collection ranked) ∧
  (∀ seed_nodes max_nodes max_depth,
     is_Some (traverse_final collection seed_nodes max_nodes max_depth)) ∧
  (∀ svc query n_seed_results n_total_results max_traversal_depth,
     let r := search svc collection query n_seed_results n_total_results
                max_traversal_depth in
     length (documents r) = length (scores r)).
Proof.
  intros Hmissing.
  pose proof (proj2 (find_id_None collection node_id) Hmissing) as Hfind.
  pose proof (proj2 (build_doc_map_lookup_None collection node_id) Hmissing)
    as Hmap.
  repeat split.
  - intros. unfold loop_body. rewrite Hmap. by case_bool_decide.
  - intros. unfold _get_node_relevance_score. by rewrite Hfind.
  - intros. unfold retrieve_documents. cbn [omap list_omap]. by rewrite Hfind.
  - intros. apply traverse_final_total.
  - intros. subst r. unfold search.
    destruct (_compute_embedding svc query); [|reflexivity].
    destruct (find_with_embedding collection); [reflexivity|].
    simpl. by rewrite !length_fmap.
Qed.

Lemma missing_node_is_skipped_witness :
  ("ghost" ∉ _id <$> orphan) ∧
  _get_node_relevance_score orphan "ghost" [1.0%float; 0.0%float] []
    (Some ["seed"; "parent"]) = 0.0%float.
Proof.
  assert (H : "ghost" ∉ _id <$> orphan).
  { refine (bool_decide_unpack _ _). vm_compute. exact I. }
  split; [exact H|].
  apply (missing_node_is_skipped orphan "ghost" H).
Defined.

(** The search over [orphan]: the parent of A that is not in the store is
    visited and scored 0.0, and only A is returned. *)
Example search_with_dangling_parent :
  let r := search services_up orphan "install" 5 15 3 in
  documents r = ["A body"] ∧ length (scores r) = 1 ∧
  match stats r with
  | Stats seeds found total _ _ _ => (seeds, found, total) = (1, 1, 2)%Z
  | StatsError _ => False
  end.
Proof. vm_compute. repeat split. Qed.

(** ** The counters of the strategies *)






Lemma semantic_neighbors_sublist (all_docs : list doc) (e : list float)
    (seen : gset string) :
  fst <$> semantic_neighbors all_docs e seen `sublist_of` _id <$> all_docs.
Proof.
  unfold semantic_neighbors.
  induction all_docs as [|d l IH]; [done|]. cbn.
  case_bool_decide; [|by apply sublist_cons].
  destruct (embedding d); [|by apply sublist_cons].
  destruct (0.85 <? _)%float; [|by apply sublist_cons].
  cbn. by apply sublist_skip.
Qed.





Lemma seed_paths_spec (seed_nodes : list string) :
  ∀ (m : gmap string (list string)),
    dom (foldl (λ m node, <[node := ["seed"]]> m) m seed_nodes)
    = list_to_set seed_nodes ∪ dom m ∧
    ∀ k p, foldl (λ m node, <[node := ["seed"]]> m) m seed_nodes !! k = Some p →
           p = ["seed"] ∨ m !! k = Some p.
Proof.
  induction seed_nodes as [|s l IH]; intros m; simpl.
  - split; [set_solver | auto].
  - destruct (IH (<[s := ["seed"]]> m)) as [Hd Hl]. split.
    + rewrite Hd, dom_insert_L. set_solver.
    + intros k p [->|[[_ <-]|[_ ?]]%lookup_insert_Some]%Hl; auto.
Qed.





(** ** The sibling scenario *)

Lemma foldl_id {A B} (f : A → B → A) (l : list B) (a : A) :
  Forall (λ x, f a x = a) l → foldl f a l = a.
Proof.
  induction 1 as [|x l Hx Hl IH]; simpl; [done|]. by rewrite Hx.
Qed.

Lemma semantic_neighbors_none (all_docs : list doc) (e : list float)
    (seen : gset string) :
  (∀ x, x ∈ _id <$> all_docs → x ∈ seen) →
  semantic_neighbors all_docs e seen = [].
Proof.
  unfold semantic_neighbors. induction all_docs as [|d l IH]; [done|].
  intros Hall. cbn.
  rewrite bool_decide_eq_false_2.
  - apply IH. intros x Hx. apply Hall. rewrite fmap_cons. by right.
  - intros Hn. apply Hn, Hall. rewrite fmap_cons. by left.
Qed.

(** Once every node of the snapshot is visited, and every parent it names,
    expanding a node finds nothing. *)
Lemma expand_node_saturated (all_docs : list doc) current_node depth d st :
  saturated all_docs st → d ∈ all_docs →
  expand_node all_docs (build_doc_map all_docs)
    (build_parent_to_children all_docs) (build_page_to_chunks all_docs)
    current_node depth d st = st.
Proof.
  intros Hsat Hd. unfold expand_node.
  assert (Hc : ∀ c l, discovery_closed (λ s, s = st) (λ x, x ∈ visited st) c l).
  { intros c l cur dp s id -> Hid Hnew. done. }
  rewrite (visit_parent_preserves (λ s, s = st) (λ x, x ∈ visited st)
             all_docs Hsat current_node depth d st) by done.
  rewrite (visit_children_preserves (λ s, s = st) (λ x, x ∈ visited st)
             all_docs Hsat current_node depth st) by done.
  rewrite (visit_siblings_preserves (λ s, s = st) (λ x, x ∈ visited st)
             all_docs Hsat current_node depth d st) by done.
  rewrite (visit_same_level_preserves (λ s, s = st) (λ x, x ∈ visited st)
             all_docs Hsat current_node depth d st) by done.
  unfold visit_semantic.
  destruct (_ && _); [|done].
  destruct (embedding d) as [[|a e]|]; try done.
  rewrite semantic_neighbors_none; [done|].
  intros x Hx. by apply Hsat, reachable_ids_id.
Qed.

(** From then on the loop only empties the work list. *)
Lemma traverse_loop_saturated (all_docs : list doc) (max_nodes max_depth : Z)
    (fuel : nat) :
  ∀ st, saturated all_docs st → length (nodes_to_explore st) ≤ fuel →
        ∃ st', traverse_loop fuel all_docs max_nodes max_depth st = Some st'
               ∧ outcome_of st' = outcome_of st.
Proof.
  induction fuel as [|fuel IH]; intros st Hsat Hlen; simpl;
    destruct (nodes_to_explore st) as [|[cur depth] rest] eqn:Hq;
    try (by eexists); try (simpl in Hlen; lia).
  case_bool_decide; [|by eexists].
  set (st1 := {| visited := visited st; discovery_paths := discovery_paths st;
                 nodes_to_explore := rest;
                 relationship_counts := relationship_counts st |}).
  assert (loop_body all_docs max_depth cur depth rest st = st1) as ->.
  { unfold loop_body. fold st1. case_bool_decide; [done|].
    destruct (build_doc_map all_docs !! cur) as [d|] eqn:Hd; [|done].
    apply build_doc_map_lookup_Some in Hd as [Hd _].
    by apply expand_node_saturated. }
  destruct (IH st1) as (st' & Hrun & Hout); [done | simpl in *; lia |].
  by exists st'.
Qed.

Lemma traverse_loop_step (fuel : nat) (all_docs : list doc)
    (max_nodes max_depth : Z) (st : traversal_state) current_node depth rest :
  nodes_to_explore st = (current_node, depth) :: rest →
  (Z.of_nat (size (visited st)) < max_nodes)%Z →
  traverse_loop (S fuel) all_docs max_nodes max_depth st
  = traverse_loop fuel all_docs max_nodes max_depth
      (loop_body all_docs max_depth current_node depth rest st).
Proof. intros Hq Hlt. simpl. rewrite Hq. by rewrite bool_decide_eq_true_2. Qed.

(** The first iteration of the scenario, up to the sibling strategy, and the
    rest of the run. *)
Lemma scenario_run (all_docs : list doc) (dA : doc) (max_nodes : Z) :
  length all_docs = 4 →
  build_doc_map all_docs !! "A" = Some dA →
  saturated all_docs (family_strategies all_docs dA) →
  length (nodes_to_explore (family_strategies all_docs dA)) = 3 →
  (2 ≤ max_nodes)%Z →
  ∃ st', traverse_final all_docs ["A"] max_nodes 2 = Some st'
         ∧ outcome_of st' = outcome_of (family_strategies all_docs dA).
Proof.
  intros Hlen HA Hsat Hq Hmax.
  set (st1 := family_strategies all_docs dA) in *.
  unfold traverse_final, traverse_fuel. rewrite Hlen.
  change (4 * 4 + length ["A"]) with (S 16).
  rewrite (traverse_loop_step 16 all_docs max_nodes 2 (seed_state ["A"])
             "A" 0 []); [|reflexivity|].
  2:{ replace (size (visited (seed_state ["A"]))) with 1
        by (vm_compute; reflexivity).
      lia. }
  assert (Hd : dA ∈ all_docs)
    by (by apply build_doc_map_lookup_Some in HA as [? _]).
  assert (loop_body all_docs 2 "A" 0 [] (seed_state ["A"]) = st1) as ->.
  { unfold loop_body. rewrite bool_decide_eq_false_2 by lia. rewrite HA.
    unfold expand_node. fold (family_strategies all_docs dA). fold st1.
    assert (Hc : ∀ c l, discovery_closed (λ s, s = st1)
                          (λ x, x ∈ visited st1) c l).
    { intros c l cur dp s id -> Hid Hnew. done. }
    rewrite (visit_same_level_preserves (λ s, s = st1) (λ x, x ∈ visited st1)
               all_docs Hsat "A" 0 dA st1) by done.
    unfold visit_semantic.
    destruct (_ && _); [|done].
    destruct (embedding dA) as [[|a e]|]; try done.
    rewrite semantic_neighbors_none; [done|].
    intros x Hx. by apply Hsat, reachable_ids_id. }
  apply traverse_loop_saturated; [done | lia].
Qed.

(** C5: the store holds A, its parent P, its child C and B, the other child
    of P, in any order and whatever their pages, levels, embeddings and
    texts.  From the seed A, with [max_depth = 2] and [max_nodes] at least 2,
    the traversal visits A, P, C and B, and the path of B is
    [["seed"; "sibling"]]. *)
Theorem sibling_found_from_seed (all_docs : list doc) (dA dP dC dB : doc)
    (max_nodes : Z) :
  all_docs ≡ₚ [dA; dP; dC; dB] →
  _id dA = "A" → _id dP = "P" → _id dC = "C" → _id dB = "B" →
  parent_chunk_id dA = Some "P" → parent_chunk_id dP = None →
  parent_chunk_id dC = Some "A" → parent_chunk_id dB = Some "P" →
  (2 ≤ max_nodes)%Z →
  let r := _traverse_graph all_docs ["A"] max_nodes 2 in
  list_to_set (visited_nodes r) =@{gset string} {["A"; "P"; "C"; "B"]} ∧
  result_paths r !! "B" = Some ["seed"; "sibling"] ∧
  result_paths r !! "P" = Some ["seed"; "parent"] ∧
  result_paths r !! "C" = Some ["seed"; "child"] ∧
  result_paths r !! "A" = Some ["seed"].
Proof.
  intros Hperm HA HP HC HB HpA HpP HpC HpB Hmax.
  destruct dA as [? ? hA pgA lvA eA cA fA], dP as [? ? hP pgP lvP eP cP fP],
           dC as [? ? hC pgC lvC eC cC fC], dB as [? ? hB pgB lvB eB cB fB].
  simpl in HA, HP, HC, HB, HpA, HpP, HpC, HpB. subst. intros r. subst r.
  match type of Hperm with _ ≡ₚ ?dA :: _ => set (docA := dA) in * end.
  symmetry in Hperm. apply permutations_Permutation in Hperm.
  cbv [permutations interleave mbind list_bind mret list_ret fmap list_fmap
       app] in Hperm.
  repeat (apply elem_of_cons in Hperm as [->|Hperm]);
    [ .. | by apply elem_of_nil in Hperm ];
    (match goal with |- context [_traverse_graph ?docs _ _ _] =>
       destruct (scenario_run docs docA max_nodes
                   eq_refl ltac:(vm_compute; reflexivity)
                   ltac:(intros x Hx; revert x Hx; apply Forall_forall;
                         repeat (constructor;
                                 [refine (bool_decide_unpack _ _);
                                  vm_compute; exact I|]);
                         constructor)
                   ltac:(vm_compute; reflexivity) Hmax)
         as (st' & Hrun & Hout)
     end;
     unfold _traverse_graph; rewrite Hrun; cbn [default from_option id];
     cbn [visited_nodes result_paths];
     injection Hout as Hv Hp Hc; rewrite list_to_set_elements_L, Hv, Hp;
     repeat split; vm_compute; reflexivity).
Qed.

Lemma sibling_found_from_seed_witness :
  let r := _traverse_graph family ["A"] 30 2 in
  list_to_set (visited_nodes r) =@{gset string} {["A"; "P"; "C"; "B"]} ∧
  result_paths r !! "B" = Some ["seed"; "sibling"] ∧
  result_paths r !! "P" = Some ["seed"; "parent"] ∧
  result_paths r !! "C" = Some ["seed"; "child"] ∧
  result_paths r !! "A" = Some ["seed"].
Proof.
  apply (sibling_found_from_seed family family_A family_P family_C family_B 30);
    (reflexivity || lia).
Defined.

(** ** The cosine similarity on doubles *)

Lemma prim_zero : Prim2SF 0%float = S754_zero false.
Proof. reflexivity. Qed.











(** ** Rounding to a double does not reverse the order *)

Section rounding.
Local Open Scope Z_scope.

(** *** Shifts with a round bit and a sticky bit *)

Lemma iter_pos_nat {A} (f : A -> A) (p : positive) (x : A) :
  SpecFloat.iter_pos f p x = Nat.iter (Pos.to_nat p) f x.
Proof.
  revert x. induction p as [p IH|p IH|]; intros x; cbn [SpecFloat.iter_pos].
  - rewrite !IH, Pos2Nat.inj_xI, <- Nat.iter_add.
    replace (S (2 * Pos.to_nat p)) with (S (Pos.to_nat p + Pos.to_nat p))
      by lia.
    now rewrite Nat.iter_succ_r.
  - rewrite !IH, Pos2Nat.inj_xO, <- Nat.iter_add.
    now replace (2 * Pos.to_nat p)%nat with (Pos.to_nat p + Pos.to_nat p)%nat
      by lia.
  - reflexivity.
Qed.

Lemma shr_pos (mrs : shr_record) (e : Z) (p : positive) :
  shr mrs e (Zpos p) = (shr_n (Pos.to_nat p) mrs, e + Zpos p).
Proof. unfold shr, shr_n. now rewrite iter_pos_nat. Qed.

(** One shift halves the mantissa, keeps the bit that falls off as the round
    bit and adds the old round bit to the sticky bit. *)
Lemma shr_1_spec (mrs : shr_record) :
  0 <= shr_m mrs ->
  exists (m' : Z) (b : bool),
    shr_m mrs = 2 * m' + bit b /\ 0 <= m' /\
    shr_1 mrs = {| shr_m := m'; shr_r := b; shr_s := shr_r mrs || shr_s mrs |}.
Proof.
  destruct mrs as [m r s]. cbn [shr_m shr_r shr_s]. intros Hm.
  destruct m as [|[p|p|]|p]; [| | | |lia].
  - exists 0, false. repeat split; first [reflexivity | lia].
  - exists (Zpos p), true. repeat split;
      first [reflexivity | lia | rewrite Pos2Z.inj_xI; unfold bit; lia].
  - exists (Zpos p), false. repeat split;
      first [reflexivity | lia | rewrite Pos2Z.inj_xO; unfold bit; lia].
  - exists 0, true. repeat split; first [reflexivity | lia].
Qed.

Lemma shr_1_nonneg (mrs : shr_record) :
  0 <= shr_m mrs -> 0 <= shr_m (shr_1 mrs).
Proof.
  intros H. destruct (shr_1_spec mrs H) as (m1 & b & _ & Hm1 & ->). exact Hm1.
Qed.

Lemma shr_1_m (mrs : shr_record) :
  0 <= shr_m mrs -> shr_m (shr_1 mrs) = shr_m mrs / 2.
Proof.
  intros H. destruct (shr_1_spec mrs H) as (m1 & b & Hm & Hm1 & ->).
  cbn [shr_m]. rewrite Hm. destruct b; unfold bit.
  - apply Z.div_unique with 1; lia.
  - apply Z.div_unique with 0; lia.
Qed.

(** One shift keeps the order of the keys. *)
Lemma shr_1_mono (a b : shr_record) :
  0 <= shr_m a -> 0 <= shr_m b -> shr_key a <= shr_key b ->
  shr_key (shr_1 a) <= shr_key (shr_1 b).
Proof.
  intros Ha Hb.
  destruct (shr_1_spec a Ha) as (ma & ba & Hma & Hma1 & ->).
  destruct (shr_1_spec b Hb) as (mb & bb & Hmb & Hmb1 & ->).
  unfold shr_key. cbn [shr_m shr_r shr_s]. rewrite Hma, Hmb.
  destruct (shr_r a), (shr_s a), (shr_r b), (shr_s b), ba, bb;
    unfold bit; cbn [orb]; lia.
Qed.

Lemma shr_n_nonneg (n : nat) (mrs : shr_record) :
  0 <= shr_m mrs -> 0 <= shr_m (shr_n n mrs).
Proof.
  unfold shr_n. induction n as [|n IH]; intros H; cbn [Nat.iter]; [exact H|].
  apply shr_1_nonneg, IH, H.
Qed.

Lemma shr_n_mono (n : nat) (a b : shr_record) :
  0 <= shr_m a -> 0 <= shr_m b -> shr_key a <= shr_key b ->
  shr_key (shr_n n a) <= shr_key (shr_n n b).
Proof.
  intros Ha Hb Hab. unfold shr_n.
  induction n as [|n IH]; cbn [Nat.iter]; [exact Hab|].
  apply shr_1_mono;
    [apply (shr_n_nonneg n a Ha) | apply (shr_n_nonneg n b Hb) | exact IH].
Qed.

Lemma shr_n_m (n : nat) (mrs : shr_record) :
  0 <= shr_m mrs -> shr_m (shr_n n mrs) = shr_m mrs / 2 ^ Z.of_nat n.
Proof.
  intros H. unfold shr_n. induction n as [|n IH].
  - cbn [Nat.iter nat_rect]. now rewrite Z.div_1_r.
  - change (Nat.iter (S n) shr_1 mrs) with (shr_1 (Nat.iter n shr_1 mrs)).
    rewrite shr_1_m by (apply (shr_n_nonneg n mrs H)).
    rewrite IH, Nat2Z.inj_succ, Z.pow_succ_r by lia.
    rewrite Z.div_div by lia. f_equal. lia.
Qed.

(** Shifting out zeros is exact. *)
Lemma shr_n_exact (n : nat) (m : Z) :
  0 <= m ->
  shr_n n {| shr_m := m * 2 ^ Z.of_nat n; shr_r := false; shr_s := false |}
  = {| shr_m := m; shr_r := false; shr_s := false |}.
Proof.
  intros Hm. unfold shr_n. revert m Hm.
  induction n as [|n IH]; intros m Hm.
  - cbn [Nat.iter nat_rect]. f_equal. change (Z.of_nat 0) with 0.
    now rewrite Z.pow_0_r, Z.mul_1_r.
  - rewrite Nat.iter_succ_r.
    assert (H2 : 0 <= m * 2 ^ Z.of_nat (S n))
      by (apply Z.mul_nonneg_nonneg; [lia | apply Z.pow_nonneg; lia]).
    destruct (shr_1_spec {| shr_m := m * 2 ^ Z.of_nat (S n); shr_r := false;
                            shr_s := false |} H2)
      as (m1 & b & Hm1 & Hm2 & ->).
    cbn [shr_m shr_r shr_s orb] in *.
    rewrite Nat2Z.inj_succ, Z.pow_succ_r in Hm1 by lia.
    assert (b = false /\ m1 = m * 2 ^ Z.of_nat n) as [-> ->].
    { destruct b; unfold bit in Hm1; split; try reflexivity; lia. }
    apply IH, Hm.
Qed.

Lemma even_decomp (m : Z) :
  exists k, m = 2 * k + (if Z.even m then 0 else 1).
Proof.
  destruct (Z.even m) eqn:E.
  - apply Z.even_spec in E as [k ->]. exists k. lia.
  - assert (H : Z.odd m = true) by (now rewrite <- Z.negb_even, E).
    apply Z.odd_spec in H as [k ->]. exists k. lia.
Qed.

(** Rounding keeps the order of the keys. *)
Lemma shr_round_mono (a b : shr_record) :
  0 <= shr_m a -> 0 <= shr_m b -> shr_key a <= shr_key b ->
  shr_round a <= shr_round b.
Proof.
  destruct a as [ma ra sa], b as [mb rb sb].
  unfold shr_round, shr_key. cbn [shr_m shr_r shr_s loc_of_shr_record].
  intros Ha Hb Hab.
  destruct (even_decomp ma) as [ka Ea], (even_decomp mb) as [kb Eb].
  destruct ra, sa, rb, sb; unfold bit in Hab;
    cbn [round_nearest_even];
    destruct (Z.even ma), (Z.even mb); lia.
Qed.

Lemma shr_round_bounds (mrs : shr_record) :
  shr_m mrs <= shr_round mrs <= shr_m mrs + 1.
Proof.
  destruct mrs as [m r s]. unfold shr_round.
  cbn [shr_m loc_of_shr_record].
  destruct r, s; cbn [round_nearest_even]; try lia.
  destruct (Z.even m); lia.
Qed.

(** *** The number of digits *)

Lemma fexp_eq (x : Z) : fexp prec emax x = Z.max (x - 53) (-1074).
Proof. reflexivity. Qed.

Lemma digits2_pos_size (p : positive) : digits2_pos p = Pos.size p.
Proof. induction p as [p IH|p IH|]; cbn; now rewrite ?IH. Qed.

Lemma Zdigits2_log2 (m : Z) : 0 < m -> Zdigits2 m = Z.log2 m + 1.
Proof.
  destruct m as [|p|p]; try lia. intros _. cbn [Zdigits2].
  rewrite digits2_pos_size.
  destruct p as [p|p|]; cbn [Z.log2 Pos.size]; try reflexivity;
    rewrite Pos2Z.inj_succ; lia.
Qed.

Lemma Zdigits2_bounds (m : Z) :
  0 < m -> 2 ^ (Zdigits2 m - 1) <= m < 2 ^ Zdigits2 m.
Proof.
  intros Hm. rewrite (Zdigits2_log2 m Hm).
  replace (Z.log2 m + 1 - 1) with (Z.log2 m) by lia.
  replace (Z.log2 m + 1) with (Z.succ (Z.log2 m)) by lia.
  apply Z.log2_spec, Hm.
Qed.

Lemma Zdigits2_pos (m : Z) : 0 < m -> 0 < Zdigits2 m.
Proof.
  intros Hm. rewrite (Zdigits2_log2 m Hm). pose proof (Z.log2_nonneg m). lia.
Qed.

Lemma Zdigits2_mono (m1 m2 : Z) :
  0 <= m1 <= m2 -> Zdigits2 m1 <= Zdigits2 m2.
Proof.
  intros [H1 H2].
  destruct (Z.eq_dec m1 0) as [->|Hne].
  - destruct (Z.eq_dec m2 0) as [->|Hne2]; [reflexivity|].
    pose proof (Zdigits2_pos m2). cbn [Zdigits2]. lia.
  - rewrite (Zdigits2_log2 m1), (Zdigits2_log2 m2) by lia.
    pose proof (Z.log2_le_mono m1 m2 H2). lia.
Qed.

(** A number below [2 ^ d] has at most [d] digits. *)
Lemma Zdigits2_le (m d : Z) : 0 <= m < 2 ^ d -> 0 <= d -> Zdigits2 m <= d.
Proof.
  intros [H1 H2] Hd.
  destruct (Z.eq_dec m 0) as [->|Hne]; [exact Hd|].
  rewrite Zdigits2_log2 by lia.
  assert (Z.log2 m < d) by (apply Z.log2_lt_pow2; lia). lia.
Qed.

(** *** [binary_round_aux] step by step *)

Lemma shift_of_nonneg (m e : Z) : 0 <= shift_of m e.
Proof. unfold shift_of. lia. Qed.

Lemma shr_fexp_eq (m e : Z) :
  shr_fexp prec emax m e loc_Exact
  = (shr_n (Z.to_nat (shift_of m e))
       {| shr_m := m; shr_r := false; shr_s := false |},
     e + shift_of m e).
Proof.
  unfold shr_fexp, shift_of. cbn [shr_record_of_loc].
  destruct (fexp prec emax (Zdigits2 m + e) - e) as [|p|p] eqn:E.
  - cbn [shr]. replace (Z.max 0 0) with 0 by lia.
    cbn [Z.to_nat shr_n Nat.iter nat_rect]. f_equal. lia.
  - rewrite shr_pos. replace (Z.max 0 (Z.pos p)) with (Z.pos p) by lia.
    reflexivity.
  - cbn [shr]. replace (Z.max 0 (Z.neg p)) with 0 by lia.
    cbn [Z.to_nat shr_n Nat.iter nat_rect]. f_equal. lia.
Qed.

Lemma round_at_bounds (k m : Z) :
  0 <= m -> 0 <= k -> m / 2 ^ k <= round_at k m <= m / 2 ^ k + 1.
Proof.
  intros Hm Hk. unfold round_at.
  pose proof (shr_round_bounds
                (shr_n (Z.to_nat k)
                   {| shr_m := m; shr_r := false; shr_s := false |})) as H.
  rewrite shr_n_m in H by exact Hm. cbn [shr_m] in H.
  now rewrite Z2Nat.id in H by exact Hk.
Qed.

Lemma round_at_nonneg (k m : Z) : 0 <= m -> 0 <= k -> 0 <= round_at k m.
Proof.
  intros Hm Hk. pose proof (round_at_bounds k m Hm Hk).
  assert (0 <= m / 2 ^ k) by (apply Z.div_pos; [lia | apply Z.pow_pos_nonneg; lia]).
  lia.
Qed.

Lemma round_at_mono (k m1 m2 : Z) :
  0 <= m1 <= m2 -> round_at k m1 <= round_at k m2.
Proof.
  intros [H1 H2]. unfold round_at.
  apply shr_round_mono.
  - apply shr_n_nonneg. exact H1.
  - apply shr_n_nonneg. cbn [shr_m]. lia.
  - apply shr_n_mono; cbn [shr_m]; try lia.
    unfold shr_key, bit. cbn [shr_m shr_r shr_s]. lia.
Qed.

Lemma binary_round_aux_eq (m e : Z) :
  0 <= m ->
  binary_round_aux prec emax false m e loc_Exact
  = normalized (round_at (shift_of m e) m) (e + shift_of m e).
Proof.
  intros Hm. unfold binary_round_aux.
  rewrite shr_fexp_eq. fold (round_at (shift_of m e) m).
  rewrite shr_fexp_eq. unfold normalized.
  rewrite shr_n_m by (apply round_at_nonneg; [exact Hm | apply shift_of_nonneg]).
  cbn [shr_m]. rewrite Z2Nat.id by apply shift_of_nonneg.
  reflexivity.
Qed.

(** *** The order of the results *)

Lemma shr_final_leb (m1 e1 m2 e2 : Z) :
  0 <= m1 -> 0 <= m2 ->
  m1 = 0 \/ (0 < m2 /\ (e1 < e2 \/ (e1 = e2 /\ m1 <= m2))) ->
  SFleb (shr_final m1 e1) (shr_final m2 e2) = true.
Proof.
  intros H1 H2 H. unfold shr_final.
  destruct m1 as [|p1|p1]; [| |lia].
  - destruct m2 as [|p2|p2]; [reflexivity| |lia].
    destruct (e2 <=? emax - prec); reflexivity.
  - destruct H as [H|(Hm2 & H)]; [lia|].
    destruct m2 as [|p2|p2]; [lia| |lia].
    destruct (e1 <=? emax - prec) eqn:E1, (e2 <=? emax - prec) eqn:E2;
      try reflexivity.
    + unfold SFleb, SFcompare.
      destruct H as [H|[-> H]].
      * now rewrite (proj2 (Z.compare_lt_iff e1 e2) H).
      * rewrite Z.compare_refl.
        change (Pos.compare_cont Eq p1 p2) with (p1 ?= p2)%positive.
        destruct (p1 ?= p2)%positive eqn:C; try reflexivity.
        apply Pos.compare_gt_iff in C. lia.
    + apply Z.leb_gt in E1. apply Z.leb_le in E2. lia.
Qed.

(** A mantissa that needs a second shift has 54 digits or more, and the
    exponent is then above the least one. *)
Lemma shift_of_pos (q E : Z) :
  -1074 <= E -> 0 < shift_of q E -> shift_of q E = Zdigits2 q - 53.
Proof. unfold shift_of. rewrite fexp_eq. lia. Qed.

Lemma shift_of_mono (e m1 m2 : Z) :
  0 <= m1 <= m2 -> shift_of m1 e <= shift_of m2 e.
Proof.
  intros H. pose proof (Zdigits2_mono m1 m2 H).
  unfold shift_of. rewrite !fexp_eq. lia.
Qed.

Lemma div_pow2_pos (q k : Z) :
  0 < q -> 0 <= k -> k < Zdigits2 q -> 0 < q / 2 ^ k.
Proof.
  intros Hq Hk Hd. pose proof (Zdigits2_bounds q Hq) as [Hlo _].
  apply Z.div_str_pos. split; [apply Z.pow_pos_nonneg; lia|].
  apply Z.le_trans with (2 ^ (Zdigits2 q - 1)); [|exact Hlo].
  apply Z.pow_le_mono_r; lia.
Qed.

Lemma normalized_mono (E q1 q2 : Z) :
  -1074 <= E -> 0 <= q1 <= q2 ->
  SFleb (normalized q1 E) (normalized q2 E) = true.
Proof.
  intros HE [H1 H2]. unfold normalized.
  pose proof (shift_of_mono E q1 q2 (conj H1 H2)) as Hk.
  pose proof (shift_of_nonneg q1 E) as Hk1.
  assert (Hp1 : 0 < 2 ^ shift_of q1 E) by (apply Z.pow_pos_nonneg; lia).
  assert (Hp2 : 0 < 2 ^ shift_of q2 E) by (apply Z.pow_pos_nonneg; lia).
  apply shr_final_leb; try (apply Z.div_pos; lia).
  destruct (Z.eq_dec (q1 / 2 ^ shift_of q1 E) 0) as [Hz|Hnz]; [now left|].
  right.
  assert (0 < q1 / 2 ^ shift_of q1 E)
    by (pose proof (Z.div_pos q1 (2 ^ shift_of q1 E) H1 Hp1); lia).
  assert (Hq1 : 0 < q1).
  { destruct (Z.eq_dec q1 0) as [->|]; [|lia]. rewrite Z.div_0_l in H; lia. }
  destruct (Z.eq_dec (shift_of q1 E) (shift_of q2 E)) as [Heq|Hne].
  - rewrite <- Heq.
    pose proof (Z.div_le_mono q1 q2 (2 ^ shift_of q1 E) Hp1 H2).
    split; [lia|]. right. split; [reflexivity | lia].
  - split; [|left; lia].
    assert (Hpos : 0 < shift_of q2 E) by lia.
    rewrite (shift_of_pos q2 E HE Hpos) in *.
    apply div_pow2_pos; lia.
Qed.

(** *** Rounding at one exponent *)

Lemma div_pow2_lt (m k : Z) :
  0 < m -> 0 <= k -> Zdigits2 m <= k + 53 -> m / 2 ^ k < two53.
Proof.
  intros Hm Hk Hd. pose proof (Zdigits2_bounds m Hm) as [_ Hhi].
  apply Z.div_lt_upper_bound; [apply Z.pow_pos_nonneg; lia|].
  change two53 with (2 ^ 53). rewrite <- Z.pow_add_r by lia.
  apply Z.lt_le_trans with (2 ^ Zdigits2 m); [exact Hhi|].
  apply Z.pow_le_mono_r; lia.
Qed.

Lemma div_pow2_ge (m k : Z) :
  0 < m -> 0 <= k -> k = Zdigits2 m - 53 -> two52 <= m / 2 ^ k.
Proof.
  intros Hm Hk Hd. pose proof (Zdigits2_bounds m Hm) as [Hlo _].
  apply Z.div_le_lower_bound; [apply Z.pow_pos_nonneg; lia|].
  change two52 with (2 ^ 52). rewrite <- Z.pow_add_r by lia.
  replace (k + 52) with (Zdigits2 m - 1) by lia. exact Hlo.
Qed.

Lemma Zdigits2_le_54 (q : Z) : 0 <= q <= two53 -> Zdigits2 q <= 54.
Proof.
  intros H. apply Zdigits2_le; [|lia].
  change (2 ^ 54) with 18014398509481984. unfold two53 in H. lia.
Qed.

Lemma Zdigits2_ge_53 (q : Z) : two52 <= q -> 53 <= Zdigits2 q.
Proof.
  intros H. assert (Hq : 0 < q) by (unfold two52 in H; lia).
  rewrite Zdigits2_log2 by exact Hq.
  assert (52 <= Z.log2 q); [|lia].
  change 52 with (Z.log2 two52). now apply Z.log2_le_mono.
Qed.

Lemma round_pos_mono (e m1 m2 : Z) :
  0 < m1 <= m2 -> SFleb (round_pos m1 e) (round_pos m2 e) = true.
Proof.
  intros [Hm1p H2]. assert (H1 : 0 <= m1) by lia. unfold round_pos.
  rewrite !binary_round_aux_eq by lia.
  pose proof (shift_of_mono e m1 m2 (conj H1 H2)) as Hk.
  pose proof (shift_of_nonneg m1 e) as Hk1.
  set (k1 := shift_of m1 e) in *. set (k2 := shift_of m2 e) in *.
  assert (HE1 : -1074 <= e + k1).
  { subst k1. unfold shift_of. rewrite fexp_eq. lia. }
  destruct (Z.eq_dec k1 k2) as [Heq|Hne].
  { (* the same grid *)
    rewrite <- Heq. apply normalized_mono; [exact HE1|].
    split; [apply round_at_nonneg; lia | apply round_at_mono; lia]. }
  (* the second mantissa is longer and lands on a coarser grid *)
  assert (Hlt : k1 < k2) by lia.
  assert (Hm2p : 0 < m2) by lia.
  assert (Hk2 : k2 = Zdigits2 m2 - 53 /\ -1074 < e + k2).
  { subst k1 k2. unfold shift_of in *. rewrite !fexp_eq in *. lia. }
  destruct Hk2 as [Hk2 HE2].
  assert (Hd1 : Zdigits2 m1 <= k1 + 53).
  { subst k1. unfold shift_of. rewrite fexp_eq. lia. }
  (* the two rounded mantissas *)
  pose proof (round_at_bounds k1 m1 H1 Hk1) as Hq1.
  pose proof (round_at_bounds k2 m2 (Z.lt_le_incl _ _ Hm2p)
                (Z.le_trans _ _ _ Hk1 Hk)) as Hq2.
  pose proof (div_pow2_lt m1 k1 Hm1p Hk1 Hd1) as Hf1.
  pose proof (div_pow2_ge m2 k2 Hm2p (Z.le_trans _ _ _ Hk1 Hk) Hk2) as Hf2.
  pose proof (div_pow2_lt m2 k2 Hm2p (Z.le_trans _ _ _ Hk1 Hk)
                ltac:(lia)) as Hf2'.
  assert (Hf1' : 0 <= m1 / 2 ^ k1)
    by (apply Z.div_pos; [lia | apply Z.pow_pos_nonneg; lia]).
  set (q1 := round_at k1 m1) in *. set (q2 := round_at k2 m2) in *.
  assert (Hdq2 : 53 <= Zdigits2 q2 <= 54).
  { split; [apply Zdigits2_ge_53; lia | apply Zdigits2_le_54].
    unfold two52, two53 in *. lia. }
  assert (Hdq1 : Zdigits2 q1 <= 54).
  { apply Zdigits2_le_54. unfold two53 in *. lia. }
  unfold normalized.
  assert (Hs2 : shift_of q2 (e + k2) = Zdigits2 q2 - 53).
  { unfold shift_of. rewrite fexp_eq. lia. }
  assert (Hs1 : 0 <= shift_of q1 (e + k1) <= 1).
  { unfold shift_of. rewrite fexp_eq. lia. }
  assert (Hq2p : 0 < q2) by (unfold two52 in *; lia).
  assert (Hr2 : two52 <= q2 / 2 ^ shift_of q2 (e + k2)).
  { apply div_pow2_ge; lia. }
  apply shr_final_leb.
  - apply Z.div_pos; [lia | apply Z.pow_pos_nonneg; lia].
  - unfold two52 in Hr2. lia.
  - right. split; [unfold two52 in Hr2; lia|].
    destruct (Z.eq_dec (e + k1 + shift_of q1 (e + k1))
                       (e + k2 + shift_of q2 (e + k2))) as [He|He];
      [right; split; [exact He|] | left; lia].
    assert (Hs1' : shift_of q1 (e + k1) = 1) by lia.
    rewrite Hs1'. change (2 ^ 1) with 2.
    assert (q1 / 2 <= two52); [|lia].
    apply Z.div_le_upper_bound; [lia|]. unfold two52, two53 in *. lia.
Qed.

(** *** Exact shifts *)

Lemma shr_n_add (a b : nat) (x : shr_record) :
  shr_n (a + b) x = shr_n a (shr_n b x).
Proof. unfold shr_n. apply Nat.iter_add. Qed.

Lemma round_at_shift (k j m : Z) :
  0 <= m -> 0 <= k -> 0 <= j -> round_at (k + j) (m * 2 ^ j) = round_at k m.
Proof.
  intros Hm Hk Hj. unfold round_at.
  rewrite Z2Nat.inj_add by lia. rewrite shr_n_add.
  rewrite <- (Z2Nat.id j) at 2 by exact Hj.
  now rewrite shr_n_exact.
Qed.

Lemma Zdigits2_mul_pow2 (m j : Z) :
  0 < m -> 0 <= j -> Zdigits2 (m * 2 ^ j) = Zdigits2 m + j.
Proof.
  intros Hm Hj.
  assert (0 < 2 ^ j) by (apply Z.pow_pos_nonneg; lia).
  rewrite !Zdigits2_log2 by nia.
  rewrite Z.log2_mul_pow2 by lia. lia.
Qed.

(** Trading bits of the exponent for zero bits of a mantissa that already
    fills the precision does not change the rounded result. *)
Lemma round_pos_shift (m e j : Z) :
  0 < m -> 53 <= Zdigits2 m -> 0 <= j ->
  round_pos (m * 2 ^ j) (e - j) = round_pos m e.
Proof.
  intros Hm Hd Hj. unfold round_pos.
  assert (0 < 2 ^ j) by (apply Z.pow_pos_nonneg; lia).
  rewrite !binary_round_aux_eq by nia.
  assert (Hk : shift_of (m * 2 ^ j) (e - j) = shift_of m e + j).
  { unfold shift_of. rewrite Zdigits2_mul_pow2 by lia.
    rewrite !fexp_eq. lia. }
  rewrite Hk. rewrite round_at_shift by (try apply shift_of_nonneg; lia).
  f_equal. lia.
Qed.

(** *** Signs *)

Lemma binary_round_aux_opp (m e : Z) (l : location) :
  binary_round_aux prec emax true m e l
  = SFopp (binary_round_aux prec emax false m e l).
Proof.
  unfold binary_round_aux.
  destruct (shr_fexp prec emax m e l) as [mrs1 e1].
  destruct (shr_fexp prec emax _ e1 loc_Exact) as [mrs2 e2].
  destruct (shr_m mrs2); [reflexivity| |reflexivity].
  now destruct (e2 <=? emax - prec).
Qed.

Lemma SFleb_nonpos_nonneg (x y : spec_float) :
  sf_nonpos x = true -> sf_nonneg y = true -> SFleb x y = true.
Proof.
  destruct x as [[]|[]| |[] ? ?], y as [[]|[]| |[] ? ?];
    try discriminate; reflexivity.
Qed.

Lemma sf_nonpos_opp (x : spec_float) : sf_nonpos (SFopp x) = sf_nonneg x.
Proof. now destruct x as [[]|[]| |[] ? ?]. Qed.

Lemma SFleb_opp (x y : spec_float) : SFleb (SFopp x) (SFopp y) = SFleb y x.
Proof.
  destruct x as [[]|[]| |[] m1 e1], y as [[]|[]| |[] m2 e2];
    try reflexivity; unfold SFleb, SFopp, SFcompare, negb.
  - rewrite (Z.compare_antisym e1 e2).
    destruct (e1 ?= e2); cbn [CompOpp]; try reflexivity.
    change (Pos.compare_cont Eq m1 m2) with (m1 ?= m2)%positive.
    change (Pos.compare_cont Eq m2 m1) with (m2 ?= m1)%positive.
    rewrite (Pos.compare_antisym m1 m2).
    now destruct (m1 ?= m2)%positive.
  - rewrite (Z.compare_antisym e2 e1).
    destruct (e2 ?= e1); cbn [CompOpp]; try reflexivity.
    change (Pos.compare_cont Eq m1 m2) with (m1 ?= m2)%positive.
    change (Pos.compare_cont Eq m2 m1) with (m2 ?= m1)%positive.
    rewrite (Pos.compare_antisym m2 m1).
    now destruct (m2 ?= m1)%positive.
Qed.

Lemma shr_final_nonneg (m e : Z) : 0 <= m -> sf_nonneg (shr_final m e) = true.
Proof.
  intros H. destruct m as [|p|p]; [reflexivity| |lia].
  unfold shr_final. now destruct (e <=? emax - prec).
Qed.

Lemma round_pos_nonneg (m e : Z) : 0 <= m -> sf_nonneg (round_pos m e) = true.
Proof.
  intros H. unfold round_pos. rewrite binary_round_aux_eq by exact H.
  unfold normalized. apply shr_final_nonneg.
  apply Z.div_pos; [|apply Z.pow_pos_nonneg; [lia | apply shift_of_nonneg]].
  apply round_at_nonneg; [exact H | apply shift_of_nonneg].
Qed.

(** *** Multiplication by a positive double is monotone *)

Lemma canonical_digits (m : positive) (e : Z) :
  canonical_mantissa prec emax m e = true ->
  -1074 <= e /\ Zdigits2 (Zpos m) <= 53 /\
  (Zdigits2 (Zpos m) = 53 \/ e = -1074).
Proof.
  unfold canonical_mantissa. rewrite Z.eqb_eq, fexp_eq.
  change (Zdigits2 (Zpos m)) with (Zpos (digits2_pos m)). lia.
Qed.

Lemma SFleb_finite_pos (m1 m2 : positive) (e1 e2 : Z) :
  SFleb (S754_finite false m1 e1) (S754_finite false m2 e2) = true ->
  e1 < e2 \/ (e1 = e2 /\ (m1 <= m2)%positive).
Proof.
  unfold SFleb, SFcompare.
  destruct (Z.compare_spec e1 e2) as [He|He|He]; [|now left|discriminate].
  change (Pos.compare_cont Eq m1 m2) with (m1 ?= m2)%positive.
  destruct (Pos.compare_spec m1 m2) as [Hm|Hm|Hm]; try discriminate;
    intros _; right; split; try exact He; lia.
Qed.

Lemma SFmul_pos_mono (ma mb mc : positive) (ea eb ec : Z) :
  canonical_mantissa prec emax ma ea = true ->
  canonical_mantissa prec emax mb eb = true ->
  SFleb (S754_finite false ma ea) (S754_finite false mb eb) = true ->
  SFleb (SFmul prec emax (S754_finite false ma ea) (S754_finite false mc ec))
        (SFmul prec emax (S754_finite false mb eb) (S754_finite false mc ec))
  = true.
Proof.
  intros Ha Hb Hle. cbn [SFmul xorb].
  fold (round_pos (Zpos (ma * mc)) (ea + ec)).
  fold (round_pos (Zpos (mb * mc)) (eb + ec)).
  apply canonical_digits in Ha as (Hea & Hda & _).
  apply canonical_digits in Hb as (_ & _ & Hdb).
  destruct (SFleb_finite_pos _ _ _ _ Hle) as [He|[-> Hm]].
  - (* the larger factor has the larger exponent, so it is normal *)
    assert (Hdb' : Zdigits2 (Zpos mb) = 53) by lia.
    pose proof (Zdigits2_bounds (Zpos ma) (Pos2Z.is_pos ma)) as [_ Hma].
    pose proof (Zdigits2_bounds (Zpos mb) (Pos2Z.is_pos mb)) as [Hmb _].
    rewrite Hdb' in Hmb. change (2 ^ (53 - 1)) with two52 in Hmb.
    assert (Hma' : Zpos ma < two53).
    { eapply Z.lt_le_trans; [exact Hma|]. change two53 with (2 ^ 53).
      apply Z.pow_le_mono_r; lia. }
    set (j := eb - ea).
    assert (Hj : 2 <= 2 ^ j).
    { change 2 with (2 ^ 1) at 1. apply Z.pow_le_mono_r; lia. }
    rewrite <- (round_pos_shift (Zpos (mb * mc)) (eb + ec) j).
    + replace (eb + ec - j) with (ea + ec) by lia.
      apply round_pos_mono. split; [lia|].
      rewrite !Pos2Z.inj_mul.
      rewrite <- Z.mul_assoc, (Z.mul_comm (Zpos mc)), Z.mul_assoc.
      apply Z.mul_le_mono_nonneg_r; [lia|].
      unfold two52, two53 in *. nia.
    + lia.
    + apply Zdigits2_ge_53. rewrite Pos2Z.inj_mul.
      unfold two52 in *. nia.
    + lia.
  - apply round_pos_mono. split; [lia|].
    rewrite !Pos2Z.inj_mul. apply Z.mul_le_mono_nonneg_r; lia.
Qed.

Lemma SFmul_nonneg (x : spec_float) (mc : positive) (ec : Z) :
  sf_nonneg x = true ->
  sf_nonneg (SFmul prec emax x (S754_finite false mc ec)) = true.
Proof.
  destruct x as [[]|[]| |[] m e]; try discriminate; try reflexivity.
  intros _. cbn [SFmul xorb]. apply round_pos_nonneg. lia.
Qed.

Lemma SFmul_opp (x : spec_float) (mc : positive) (ec : Z) :
  SFmul prec emax (SFopp x) (S754_finite false mc ec)
  = SFopp (SFmul prec emax x (S754_finite false mc ec)).
Proof.
  destruct x as [[]|[]| |[] m e]; try reflexivity; cbn [SFmul SFopp xorb negb].
  - rewrite binary_round_aux_opp.
    now destruct (binary_round_aux prec emax false _ _ _) as [[]|[]| |[] ? ?].
  - apply binary_round_aux_opp.
Qed.

Lemma valid_binary_opp (x : spec_float) :
  valid_binary (SFopp x) = valid_binary x.
Proof. now destruct x. Qed.

(** The case where both factors are zero or above. *)
Lemma SFmul_nonneg_mono (a b : spec_float) (mc : positive) (ec : Z) :
  valid_binary a = true -> valid_binary b = true ->
  sf_nonneg a = true -> sf_nonneg b = true ->
  SFleb a b = true ->
  SFleb (SFmul prec emax a (S754_finite false mc ec))
        (SFmul prec emax b (S754_finite false mc ec)) = true.
Proof.
  intros Va Vb Na Nb Hle.
  destruct a as [sa|[]| |[] ma ea]; try discriminate.
  - (* a is zero *)
    apply SFleb_nonpos_nonneg; [now destruct sa|].
    now apply SFmul_nonneg.
  - (* a is plus infinity *)
    destruct b as [sb|[]| |[] mb eb]; try discriminate. reflexivity.
  - destruct b as [sb|[]| |[] mb eb]; try discriminate.
    + (* b is plus infinity *)
      cbn [SFmul xorb].
      pose proof (round_pos_nonneg (Zpos (ma * mc)) (ea + ec)
                    (Pos2Z.is_nonneg _)) as Hn.
      unfold round_pos in Hn.
      now destruct (binary_round_aux prec emax false _ _ _) as [[]|[]| |[] ? ?].
    + unfold valid_binary, SpecFloat.valid_binary, bounded in Va, Vb.
      apply andb_prop in Va as [Va _]. apply andb_prop in Vb as [Vb _].
      now apply SFmul_pos_mono.
Qed.

Lemma sf_sign_cases (x : spec_float) :
  x = S754_nan \/ sf_nonneg x = true \/
  (sf_nonneg (SFopp x) = true /\ sf_nonneg x = false).
Proof. destruct x as [[]|[]| |[] ? ?]; auto. Qed.

Lemma SFopp_involutive (x : spec_float) : SFopp (SFopp x) = x.
Proof. now destruct x as [[]|[]| |[] ? ?]. Qed.

Theorem SFmul_mono (a b : spec_float) (mc : positive) (ec : Z) :
  valid_binary a = true -> valid_binary b = true ->
  SFleb a b = true ->
  SFleb (SFmul prec emax a (S754_finite false mc ec))
        (SFmul prec emax b (S754_finite false mc ec)) = true.
Proof.
  intros Va Vb Hle.
  destruct (sf_sign_cases a) as [->|[Na|[Na Na']]]; [discriminate| |];
  (destruct (sf_sign_cases b) as [->|[Nb|[Nb Nb']]];
     [now destruct a as [[]|[]| |[] ? ?]| |]).
  - now apply SFmul_nonneg_mono.
  - (* a is zero or above and b is below zero: a is zero, b is too *)
    exfalso. clear Va Vb.
    destruct a as [[]|[]| |[] ? ?], b as [[]|[]| |[] ? ?]; discriminate.
  - (* a is below zero and b is zero or above *)
    apply SFleb_nonpos_nonneg; [|now apply SFmul_nonneg].
    rewrite <- (SFopp_involutive a), SFmul_opp, sf_nonpos_opp.
    now apply SFmul_nonneg.
  - (* both below zero *)
    rewrite <- (SFopp_involutive a), <- (SFopp_involutive b).
    rewrite !(SFmul_opp (SFopp _)), SFleb_opp.
    apply SFmul_nonneg_mono; try assumption;
      try (now rewrite valid_binary_opp).
    now rewrite <- SFleb_opp, !SFopp_involutive.
Qed.


(** *** Rounding keeps the magnitude *)

Lemma Zdigits2_ge (m a : Z) : 0 <= a -> 2 ^ a <= m -> a + 1 <= Zdigits2 m.
Proof.
  intros Ha H. assert (0 < 2 ^ a) by (apply Z.pow_pos_nonneg; lia).
  rewrite Zdigits2_log2 by lia.
  assert (a <= Z.log2 m) by (apply Z.log2_le_pow2; lia). lia.
Qed.

Lemma Zdigits2_mul (a b : Z) :
  0 < a -> 0 < b ->
  Zdigits2 a + Zdigits2 b - 1 <= Zdigits2 (a * b) <= Zdigits2 a + Zdigits2 b.
Proof.
  intros Ha Hb. rewrite !Zdigits2_log2 by nia.
  pose proof (Z.log2_mul_below a b Ha Hb).
  pose proof (Z.log2_mul_above a b (Z.lt_le_incl _ _ Ha) (Z.lt_le_incl _ _ Hb)).
  lia.
Qed.

Lemma div_pow2_digits (m k : Z) :
  0 < m -> 0 <= k < Zdigits2 m ->
  2 ^ (Zdigits2 m - 1 - k) <= m / 2 ^ k < 2 ^ (Zdigits2 m - k).
Proof.
  intros Hm Hk. pose proof (Zdigits2_bounds m Hm) as [Hlo Hhi].
  assert (0 < 2 ^ k) by (apply Z.pow_pos_nonneg; lia).
  split.
  - apply Z.div_le_lower_bound; [lia|].
    rewrite <- Z.pow_add_r by lia.
    now replace (k + (Zdigits2 m - 1 - k)) with (Zdigits2 m - 1) by lia.
  - apply Z.div_lt_upper_bound; [lia|].
    rewrite <- Z.pow_add_r by lia.
    now replace (k + (Zdigits2 m - k)) with (Zdigits2 m) by lia.
Qed.

Lemma Zdigits2_div_pow2 (m k : Z) :
  0 < m -> 0 <= k < Zdigits2 m ->
  0 < m / 2 ^ k /\ Zdigits2 (m / 2 ^ k) = Zdigits2 m - k.
Proof.
  intros Hm Hk. pose proof (div_pow2_digits m k Hm Hk) as [Hlo Hhi].
  assert (0 < 2 ^ (Zdigits2 m - 1 - k)) by (apply Z.pow_pos_nonneg; lia).
  split; [lia|].
  apply Z.le_antisymm.
  - apply Zdigits2_le; lia.
  - pose proof (Zdigits2_ge (m / 2 ^ k) (Zdigits2 m - 1 - k)
                  ltac:(lia) Hlo). lia.
Qed.

Lemma round_at_digits (m k : Z) :
  0 < m -> 0 <= k < Zdigits2 m ->
  0 < round_at k m /\
  Zdigits2 m - k <= Zdigits2 (round_at k m) <= Zdigits2 m - k + 1.
Proof.
  intros Hm Hk.
  pose proof (div_pow2_digits m k Hm Hk) as [Hlo Hhi].
  pose proof (round_at_bounds k m (Z.lt_le_incl _ _ Hm) (proj1 Hk)) as [Hq1 Hq2].
  assert (0 < 2 ^ (Zdigits2 m - 1 - k)) by (apply Z.pow_pos_nonneg; lia).
  split; [lia|]. split.
  - pose proof (Zdigits2_ge (round_at k m) (Zdigits2 m - 1 - k)
                  ltac:(lia) ltac:(lia)). lia.
  - apply Zdigits2_le; [|lia].
    replace (Zdigits2 m - k + 1) with (Z.succ (Zdigits2 m - k)) by lia.
    rewrite Z.pow_succ_r by lia. lia.
Qed.

(** Away from underflow and overflow the rounded result is a finite positive
    double of the same magnitude, or of the next one. *)
Lemma round_pos_finite (m e : Z) :
  0 < m -> -1074 < Zdigits2 m + e <= 1023 -> e <= 971 ->
  exists p e',
    round_pos m e = S754_finite false p e' /\
    Zdigits2 m + e <= Zdigits2 (Zpos p) + e' <= Zdigits2 m + e + 1.
Proof.
  intros Hm Hmag He. unfold round_pos.
  rewrite binary_round_aux_eq by lia.
  pose proof (Zdigits2_pos m Hm) as Hd.
  pose proof (shift_of_nonneg m e) as Hk0.
  assert (Hk : shift_of m e < Zdigits2 m /\ e + shift_of m e <= 971).
  { unfold shift_of. rewrite fexp_eq. lia. }
  destruct Hk as [Hk HE].
  set (k := shift_of m e) in *.
  destruct (round_at_digits m k Hm (conj Hk0 Hk)) as (Hq & Hdq).
  set (q := round_at k m) in *.
  unfold normalized.
  pose proof (shift_of_nonneg q (e + k)) as Hs0.
  assert (Hs : shift_of q (e + k) < Zdigits2 q /\
               e + k + shift_of q (e + k) <= 971).
  { unfold shift_of. rewrite fexp_eq. lia. }
  destruct Hs as [Hs HEs].
  set (s := shift_of q (e + k)) in *.
  destruct (Zdigits2_div_pow2 q s Hq (conj Hs0 Hs)) as (Hr & Hdr).
  destruct (q / 2 ^ s) as [|p|p] eqn:Er; try lia.
  exists p, (e + k + s). split.
  - unfold shr_final. change (emax - prec) with 971.
    now rewrite (proj2 (Z.leb_le _ _) HEs).
  - lia.
Qed.

(** *** Aligning mantissas *)

Lemma iter_xO (m d : positive) : Zpos (Pos.iter xO m d) = Zpos m * 2 ^ Zpos d.
Proof.
  rewrite (Pos.iter_swap_gen _ _ Zpos xO (Z.mul 2)) by reflexivity.
  change (Pos.iter (Z.mul 2) (Zpos m) d) with (Z.shiftl (Zpos m) (Zpos d)).
  apply Z.shiftl_mul_pow2. lia.
Qed.

Lemma shl_align_spec (m : positive) (e e' : Z) :
  Zpos (fst (shl_align m e e')) = Zpos m * 2 ^ (e - Z.min e e') /\
  snd (shl_align m e e') = Z.min e e'.
Proof.
  unfold shl_align. destruct (e' - e) as [|d|d] eqn:Ed; cbn [fst snd].
  - replace (Z.min e e') with e by lia. rewrite Z.sub_diag. lia.
  - replace (Z.min e e') with e by lia. rewrite Z.sub_diag. lia.
  - replace (Z.min e e') with e' by lia. rewrite iter_xO.
    split; [|reflexivity]. f_equal. f_equal. lia.
Qed.

Lemma binary_round_finite (m : positive) (e : Z) :
  -1074 < Zdigits2 (Zpos m) + e <= 1023 ->
  exists p e',
    binary_round prec emax false m e = S754_finite false p e' /\
    Zdigits2 (Zpos m) + e <= Zdigits2 (Zpos p) + e'
      <= Zdigits2 (Zpos m) + e + 1.
Proof.
  intros Hmag. unfold binary_round.
  change (Zpos (digits2_pos m)) with (Zdigits2 (Zpos m)).
  pose proof (shl_align_spec m e (fexp prec emax (Zdigits2 (Zpos m) + e)))
    as [Hmz Hez].
  destruct (shl_align m e _) as [mz ez]. cbn [fst snd] in Hmz, Hez.
  fold (round_pos (Zpos mz) ez).
  rewrite fexp_eq in Hez, Hmz. rewrite <- Hez in Hmz.
  assert (Hj : 0 <= e - ez) by lia.
  assert (Hdz : Zdigits2 (Zpos mz) = Zdigits2 (Zpos m) + (e - ez)).
  { rewrite Hmz. apply Zdigits2_mul_pow2; lia. }
  destruct (round_pos_finite (Zpos mz) ez) as (p & e' & Hr & Hb);
    [lia | lia | lia |].
  exists p, e'. split; [exact Hr | lia].
Qed.

(** *** Finite positive doubles *)

Lemma finite_between_valid (lo hi : Z) (x : float) :
  finite_between lo hi x ->
  exists p e,
    Prim2SF x = S754_finite false p e /\ lo <= Zdigits2 (Zpos p) + e <= hi /\
    e = Z.max (Zdigits2 (Zpos p) + e - 53) (-1074) /\ e <= 971.
Proof.
  intros (p & e & Hx & Hb). exists p, e.
  pose proof (Prim2SF_valid x) as Hv. rewrite Hx in Hv.
  unfold valid_binary, SpecFloat.valid_binary, bounded, canonical_mantissa in Hv.
  apply andb_prop in Hv as [Hc He].
  apply Z.eqb_eq in Hc. apply Z.leb_le in He. rewrite fexp_eq in Hc.
  change (Zpos (digits2_pos p)) with (Zdigits2 (Zpos p)) in Hc.
  change (emax - prec) with 971 in He. repeat split; try lia; exact Hx.
Qed.

Lemma finite_between_weaken (lo hi lo' hi' : Z) (x : float) :
  finite_between lo hi x -> lo' <= lo -> hi <= hi' ->
  finite_between lo' hi' x.
Proof.
  intros (p & e & Hx & Hb) Hlo Hhi. exists p, e. split; [exact Hx | lia].
Qed.


Lemma mul_between (la ha lb hb : Z) (x y : float) :
  finite_between la ha x -> finite_between lb hb y ->
  -1074 < la + lb - 1 -> ha + hb <= 1023 ->
  finite_between (la + lb - 1) (ha + hb + 1) (x * y).
Proof.
  intros Hx Hy Hlo Hhi.
  apply finite_between_valid in Hx as (px & ex & Hx & Hbx & Hcx & Hex).
  apply finite_between_valid in Hy as (py & ey & Hy & Hby & Hcy & Hey).
  unfold finite_between. rewrite FloatAxioms.mul_spec, Hx, Hy.
  unfold SF64mul. cbn [SFmul xorb].
  fold (round_pos (Zpos (px * py)) (ex + ey)).
  pose proof (Zdigits2_mul (Zpos px) (Zpos py)
                (Pos2Z.is_pos _) (Pos2Z.is_pos _)) as Hd.
  rewrite <- Pos2Z.inj_mul in Hd.
  destruct (round_pos_finite (Zpos (px * py)) (ex + ey)) as (p & e & Hr & Hb);
    [lia | lia | lia |].
  exists p, e. split; [exact Hr | lia].
Qed.

Lemma add_between (la ha lb hb : Z) (x y : float) :
  finite_between la ha x -> finite_between lb hb y ->
  -1074 < la -> Z.max ha hb + 1 <= 1023 ->
  finite_between la (Z.max ha hb + 2) (x + y).
Proof.
  intros (px & ex & Hx & Hbx) (py & ey & Hy & Hby) Hlo Hhi.
  unfold finite_between. rewrite FloatAxioms.add_spec, Hx, Hy.
  unfold SF64add. cbn [SFadd cond_Zopp].
  set (ez := Z.min ex ey).
  pose proof (shl_align_spec px ex ez) as [Hax _].
  pose proof (shl_align_spec py ey ez) as [Hay _].
  replace (Z.min ex ez) with ez in Hax by lia.
  replace (Z.min ey ez) with ez in Hay by lia.
  set (ax := fst (shl_align px ex ez)) in *.
  set (ay := fst (shl_align py ey ez)) in *.
  change (Zpos ax + Zpos ay) with (Zpos (ax + ay)).
  cbn [binary_normalize].
  assert (Hdx : Zdigits2 (Zpos ax) = Zdigits2 (Zpos px) + (ex - ez))
    by (rewrite Hax; apply Zdigits2_mul_pow2; lia).
  assert (Hdy : Zdigits2 (Zpos ay) = Zdigits2 (Zpos py) + (ey - ez))
    by (rewrite Hay; apply Zdigits2_mul_pow2; lia).
  assert (Hd : Zdigits2 (Zpos ax) <= Zdigits2 (Zpos (ax + ay))
               <= Z.max (Zdigits2 (Zpos ax)) (Zdigits2 (Zpos ay)) + 1).
  { split; [apply Zdigits2_mono; lia|].
    pose proof (Zdigits2_bounds (Zpos ax) (Pos2Z.is_pos _)) as [_ Hx2].
    pose proof (Zdigits2_bounds (Zpos ay) (Pos2Z.is_pos _)) as [_ Hy2].
    pose proof (Zdigits2_pos (Zpos ax) (Pos2Z.is_pos _)).
    pose proof (Zdigits2_pos (Zpos ay) (Pos2Z.is_pos _)).
    set (M := Z.max (Zdigits2 (Zpos ax)) (Zdigits2 (Zpos ay))) in *.
    assert (2 ^ Zdigits2 (Zpos ax) <= 2 ^ M)
      by (apply Z.pow_le_mono_r; lia).
    assert (2 ^ Zdigits2 (Zpos ay) <= 2 ^ M)
      by (apply Z.pow_le_mono_r; lia).
    apply Zdigits2_le; [|lia].
    replace (M + 1) with (Z.succ M) by lia.
    rewrite Z.pow_succ_r by lia. rewrite Pos2Z.inj_add. lia. }
  destruct (binary_round_finite (ax + ay) ez) as (p & e & Hr & Hb); [lia|].
  exists p, e. split; [exact Hr | lia].
Qed.

Lemma of_uint63_between (u : int) :
  (0 < Uint63.to_Z u)%Z -> finite_between 1 64 (of_uint63 u).
Proof.
  intros Hu. unfold finite_between. rewrite FloatAxioms.of_uint63_spec.
  pose proof (Uint63.to_Z_bounded u) as [_ Hhi].
  destruct (Uint63.to_Z u) as [|p|p]; try lia.
  cbn [binary_normalize].
  pose proof (Zdigits2_pos (Zpos p) (Pos2Z.is_pos _)).
  assert (Zdigits2 (Zpos p) <= 63).
  { apply Zdigits2_le; [|lia]. split; [lia | exact Hhi]. }
  destruct (binary_round_finite p 0) as (q & e & Hr & Hb); [lia|].
  exists q, e. split; [exact Hr | lia].
Qed.

End rounding.

(** ** The score does not decrease with the similarity *)

Lemma ltb_leb (a b : float) : (a <? b)%float = true → (a <=? b)%float = true.
Proof.
  rewrite FloatAxioms.ltb_spec, FloatAxioms.leb_spec. unfold SFltb, SFleb.
  by destruct (SFcompare _ _) as [[]|].
Qed.


(** A closed double is between two powers of two. *)
Ltac finite_between_compute :=
  eexists _, _; split;
    [vm_compute; reflexivity | split; vm_compute; discriminate].

(** The path boost is one of thirteen doubles between 1 and 2.028. *)
Lemma path_boost_finite (path : option (list string)) :
  finite_between 1 2 (path_boost path).
Proof.
  unfold path_boost. destruct path as [[|x p]|];
    repeat (case_decide || case_bool_decide); finite_between_compute.
Qed.

Lemma level_boost_finite (d : doc) : finite_between 1 1 (level_boost d).
Proof.
  unfold level_boost. repeat case_decide; finite_between_compute.
Qed.

(** The topic boost [1.0 + n * 0.1] is finite and at least 1 for every count
    of matches. *)
Lemma topic_boost_finite (topics : list string) (d : doc) :
  finite_between 1 64 (topic_boost topics d).
Proof.
  unfold topic_boost. case_decide; [|finite_between_compute].
  unfold float_of_nat. set (u := Uint63.of_Z _).
  destruct (Z.eq_dec (Uint63.to_Z u) 0%Z) as [Hu|Hu].
  - exists 4503599627370496%positive, (-52)%Z.
    split; [|split; vm_compute; discriminate].
    rewrite FloatAxioms.add_spec, FloatAxioms.mul_spec,
      FloatAxioms.of_uint63_spec, Hu.
    vm_compute. reflexivity.
  - pose proof (Uint63.to_Z_bounded u) as [Hu0 _].
    apply (finite_between_weaken 1 (Z.max 1 62 + 2)%Z);
      [|lia|vm_compute; discriminate].
    apply (add_between 1 1 (-3) 62);
      [finite_between_compute| |lia|vm_compute; discriminate].
    apply (mul_between 1 64 (-3) (-3)); [|finite_between_compute|lia|lia].
    apply of_uint63_between. lia.
Qed.




(** ** Further properties of the traversal *)

(** *** What an expansion keeps *)

(** A property of states that the expansion of the node [cur], taken off the
    work list at [depth], keeps when every discovery of an unvisited node
    keeps it. *)
Section expansion.
Context (P : traversal_state → Prop) (all_docs : list doc).
Context (cur : string) (depth : Z).
Context (Hstep : ∀ counter label st id,
           (counter, label) ∈ counter_labels → P st → id ∉ visited st →
           P (discover counter label cur depth st id)).

Lemma label_parent : ("parent", "parent") ∈ counter_labels.
Proof. unfold counter_labels. set_solver. Qed.
Lemma label_child : ("child", "child") ∈ counter_labels.
Proof. unfold counter_labels. set_solver. Qed.
Lemma label_sibling : ("sibling", "sibling") ∈ counter_labels.
Proof. unfold counter_labels. set_solver. Qed.
Lemma label_same_level : ("semantic", "same_level") ∈ counter_labels.
Proof. unfold counter_labels. set_solver. Qed.
Lemma label_semantic : ("topic", "semantic") ∈ counter_labels.
Proof. unfold counter_labels. set_solver. Qed.

Lemma foldl_keeps {A} (f : traversal_state → A → traversal_state)
    (l : list A) (st : traversal_state) :
  (∀ st x, P st → P (f st x)) → P st → P (foldl f st l).
Proof.
  intros Hf. revert st. induction l as [|x l IH]; intros st HP; [done|].
  simpl. by apply IH, Hf.
Qed.

Lemma visit_parent_keeps d st : P st → P (visit_parent cur depth d st).
Proof.
  intros HP. unfold visit_parent.
  destruct (parent_chunk_id d) as [p|]; [|done].
  destruct (str_truthy p); [|done]. simpl.
  case_bool_decide; [|done].
  by apply Hstep; [apply label_parent|..].
Qed.

Lemma visit_children_keeps p2c st : P st → P (visit_children p2c cur depth st).
Proof.
  intros HP. unfold visit_children. apply foldl_keeps; [|done].
  intros st' x HP'. case_bool_decide; [|done].
  by apply Hstep; [apply label_child|..].
Qed.

Lemma visit_siblings_keeps p2c d st :
  P st → P (visit_siblings p2c cur depth d st).
Proof.
  intros HP. unfold visit_siblings.
  destruct (parent_chunk_id d) as [p|]; [|done].
  destruct (str_truthy p); [|done].
  apply foldl_keeps; [|done].
  intros st' x HP'. case_bool_decide; simpl; [|done].
  case_bool_decide; [|done].
  by apply Hstep; [apply label_sibling|..].
Qed.

Lemma visit_same_level_keeps doc_map pg2c d st :
  P st → P (visit_same_level doc_map pg2c cur depth d st).
Proof.
  intros HP. unfold visit_same_level.
  destruct (page_id d) as [p|]; [|done].
  destruct (str_truthy p && _); [|done].
  apply foldl_keeps; [|done].
  intros st' x HP'. case_bool_decide; simpl; [|done].
  case_bool_decide; [|done].
  destruct (doc_map !! x); [|done].
  case_bool_decide; [|done].
  by apply Hstep; [apply label_same_level|..].
Qed.

Lemma visit_semantic_keeps d st :
  NoDup (_id <$> all_docs) → P st → P (visit_semantic all_docs cur depth d st).
Proof.
  intros Hnd HP. unfold visit_semantic.
  destruct (_ && _); [|done].
  destruct (embedding d) as [[|a e]|]; try done.
  set (l := take 2 _).
  assert (Hl : NoDup (fst <$> l)).
  { subst l. rewrite fmap_take. eapply sublist_NoDup; [|apply sublist_take].
    rewrite sort_desc_perm.
    eapply sublist_NoDup; [done | apply semantic_neighbors_sublist]. }
  assert (Hnew : Forall (λ n, n.1 ∉ visited st) l).
  { apply Forall_forall. intros n Hn.
    by apply top_neighbors_elem in Hn as [_ ?]. }
  clearbody l. revert st HP Hnew.
  induction l as [|x l IH]; intros st HP Hnew; [done|].
  simpl. rewrite fmap_cons in Hl. apply NoDup_cons in Hl as [Hx Hl].
  apply Forall_cons in Hnew as [Hnx Hnew].
  apply IH; [done| |].
  - by apply Hstep; [apply label_semantic|..].
  - apply Forall_forall. intros y Hy. simpl.
    rewrite Forall_forall in Hnew.
    apply not_elem_of_union. split; [|by apply Hnew].
    apply not_elem_of_singleton. intros Heq. apply Hx.
    rewrite <- Heq. by apply list_elem_of_fmap_2.
Qed.

Lemma expand_node_keeps doc_map p2c pg2c d st :
  NoDup (_id <$> all_docs) → P st →
  P (expand_node all_docs doc_map p2c pg2c cur depth d st).
Proof.
  intros Hnd HP. unfold expand_node.
  by apply visit_semantic_keeps, visit_same_level_keeps, visit_siblings_keeps,
    visit_children_keeps, visit_parent_keeps.
Qed.

End expansion.

(** *** What the loop keeps *)

Lemma traverse_loop_keeps (J : traversal_state → Prop) (all_docs : list doc)
    (max_nodes max_depth : Z) (fuel : nat) :
  (∀ st cur depth rest,
     J st → nodes_to_explore st = (cur, depth) :: rest →
     J (loop_body all_docs max_depth cur depth rest st)) →
  ∀ st st', J st →
            traverse_loop fuel all_docs max_nodes max_depth st = Some st' →
            J st'.
Proof.
  intros Hbody. induction fuel as [|fuel IH]; intros st st' HJ; simpl;
    destruct (nodes_to_explore st) as [|[cur depth] rest] eqn:Hq;
    try (by intros [= <-]);
    case_bool_decide; try (by intros [= <-]); try done.
  apply IH. by apply Hbody.
Qed.

Lemma traverse_graph_keeps (J : traversal_state → Prop) (all_docs : list doc)
    (seed_nodes : list string) (max_nodes max_depth : Z) :
  (∀ st cur depth rest,
     J st → nodes_to_explore st = (cur, depth) :: rest →
     J (loop_body all_docs max_depth cur depth rest st)) →
  J (seed_state seed_nodes) →
  ∃ st, J st ∧
        _traverse_graph all_docs seed_nodes max_nodes max_depth
        = {| visited_nodes := elements (visited st);
             result_paths := discovery_paths st;
             result_counts := relationship_counts st |}.
Proof.
  intros Hbody Hseed. unfold _traverse_graph, traverse_final.
  destruct (traverse_loop _ _ _ _ _) as [st'|] eqn:Hrun; simpl.
  - exists st'. split; [|done]. by eapply traverse_loop_keeps.
  - by exists (seed_state seed_nodes).
Qed.

(** *** The visited nodes are seeds or nodes that the snapshot names *)

Lemma visited_in_range_discover (all_docs : list doc) (seed_nodes : list string)
    counter label cur depth st id :
  visited_in_range all_docs seed_nodes st → id ∈ reachable_ids all_docs →
  visited_in_range all_docs seed_nodes (discover counter label cur depth st id).
Proof.
  intros [Hs Hr] Hid. split; simpl.
  - intros x Hx. apply elem_of_union_r. by apply Hs.
  - intros x [->%elem_of_singleton|Hx]%elem_of_union; [by right|by apply Hr].
Qed.

Lemma loop_body_visited_in_range (all_docs : list doc)
    (seed_nodes : list string) (max_depth : Z) cur depth rest st :
  visited_in_range all_docs seed_nodes st →
  visited_in_range all_docs seed_nodes
    (loop_body all_docs max_depth cur depth rest st).
Proof.
  intros HP. unfold loop_body.
  case_bool_decide; [done|].
  destruct (build_doc_map all_docs !! cur) as [d|] eqn:Hd; [|done].
  apply build_doc_map_lookup_Some in Hd as [Hd _].
  set (P := visited_in_range all_docs seed_nodes).
  set (Q := λ x : string, x ∈ reachable_ids all_docs).
  assert (Hc : ∀ c l, discovery_closed P Q c l).
  { intros c l cur' depth' st' id HP' HQ _.
    by apply visited_in_range_discover. }
  unfold expand_node.
  assert (Hsem : ∀ st', P st' → P (visit_semantic all_docs cur depth d st')).
  { intros st' HP'. unfold visit_semantic.
    destruct (_ && _); [|done].
    destruct (embedding d) as [[|a e]|]; try done.
    eapply (foldl_preserves P (λ n : string * float, Q n.1)); [| |done].
    - intros st'' n Hn HP''. by apply visited_in_range_discover.
    - apply Forall_forall. intros n Hn.
      apply top_neighbors_elem in Hn as [Hn _].
      by apply reachable_ids_id. }
  apply Hsem.
  apply (visit_same_level_preserves P Q all_docs); [done..|].
  apply (visit_siblings_preserves P Q all_docs); [done..|].
  apply (visit_children_preserves P Q all_docs); [done..|].
  by apply (visit_parent_preserves P Q all_docs).
Qed.

Lemma seed_state_visited_in_range (all_docs : list doc)
    (seed_nodes : list string) :
  visited_in_range all_docs seed_nodes (seed_state seed_nodes).
Proof.
  split; simpl; intros x; rewrite elem_of_list_to_set; auto.
Qed.

Lemma traverse_graph_in_range (all_docs : list doc) (seed_nodes : list string)
    (max_nodes max_depth : Z) :
  ∃ st, visited_in_range all_docs seed_nodes st ∧
        _traverse_graph all_docs seed_nodes max_nodes max_depth
        = {| visited_nodes := elements (visited st);
             result_paths := discovery_paths st;
             result_counts := relationship_counts st |}.
Proof.
  apply traverse_graph_keeps.
  - intros. by apply loop_body_visited_in_range.
  - apply seed_state_visited_in_range.
Qed.

(** X1: every seed is returned, and every node returned is a seed, the id of a
    document of the snapshot or the parent that a document names: the
    traversal invents no id, but it can return the id of a parent that the
    store does not hold. *)
Theorem visited_nodes_are_seeds_or_named (all_docs : list doc)
    (seed_nodes : list string) (max_nodes max_depth : Z) (x : string) :
  let r := _traverse_graph all_docs seed_nodes max_nodes max_depth in
  (x ∈ seed_nodes → x ∈ visited_nodes r) ∧
  (x ∈ visited_nodes r →
   x ∈ seed_nodes ∨ x ∈ _id <$> all_docs ∨
   ∃ d, d ∈ all_docs ∧ parent_chunk_id d = Some x).
Proof.
  intros r. subst r.
  destruct (traverse_graph_in_range all_docs seed_nodes max_nodes max_depth)
    as (st & [Hs Hr] & ->).
  simpl. split.
  - intros Hx. apply elem_of_elements. by apply Hs.
  - intros Hx%elem_of_elements. apply Hr in Hx as [Hx|Hx]; [by left|].
    right. unfold reachable_ids in Hx.
    apply elem_of_app in Hx as [Hx|Hx]; [by left|].
    right. apply list_elem_of_omap in Hx as (d & Hd & Hp). by exists d.
Qed.

(** *** The discovery paths *)

Lemma counter_labels_hop (c l : string) :
  (c, l) ∈ counter_labels → l ∈ hop_labels.
Proof. intros H. unfold hop_labels. by apply (list_elem_of_fmap_2 snd) in H. Qed.

Lemma path_inv_discover (max_depth : Z) counter label cur depth st id
    (p : list string) :
  (counter, label) ∈ counter_labels → (depth < max_depth)%Z →
  path_inv max_depth st →
  discovery_paths st !! cur = Some p → (Z.of_nat (length p) = depth + 1)%Z →
  id ∉ visited st →
  path_inv max_depth (discover counter label cur depth st id) ∧
  discovery_paths (discover counter label cur depth st id) !! cur = Some p.
Proof.
  intros Hl Hdepth (Hdom & Hwf & Hq) Hcur Hlen Hid.
  assert (Hne : ∀ k, is_Some (discovery_paths st !! k) → k ≠ id).
  { intros k Hk%elem_of_dom ->. by rewrite Hdom in Hk. }
  split; [split; [|split]|]; simpl.
  - rewrite dom_insert_L, Hdom. done.
  - intros k q [[<- <-]|[_ Hk]]%lookup_insert_Some; [|by eapply Hwf].
    rewrite Hcur. simpl.
    destruct (Hwf _ _ Hcur) as (hops & -> & Hhops & _).
    exists (hops ++ [label]). split; [done|]. split.
    + apply Forall_app. split; [done|].
      apply Forall_singleton. by eapply counter_labels_hop.
    + rewrite length_app. simpl in *. lia.
  - intros k d [Hk|Hk%list_elem_of_singleton]%elem_of_app.
    + destruct (Hq _ _ Hk) as (q & Hkq & Hlq). exists q. split; [|done].
      rewrite lookup_insert_ne; [done|]. intros <-. by eapply Hne.
    + injection Hk as -> ->. rewrite Hcur. simpl.
      exists (p ++ [label]). rewrite lookup_insert_eq. split; [done|].
      rewrite length_app. simpl. lia.
  - rewrite lookup_insert_ne; [done|]. intros <-. by eapply Hne.
Qed.

Lemma loop_body_path_inv (all_docs : list doc) (max_depth : Z)
    cur depth rest st :
  NoDup (_id <$> all_docs) →
  path_inv max_depth st → nodes_to_explore st = (cur, depth) :: rest →
  path_inv max_depth (loop_body all_docs max_depth cur depth rest st).
Proof.
  intros Hnd (Hdom & Hwf & Hq) Hqueue.
  assert (Hpop : path_inv max_depth (with_queue rest st)).
  { split; [done|]. split; [done|]. simpl. intros k d Hk.
    apply Hq. rewrite Hqueue. by apply elem_of_cons; right. }
  unfold loop_body. fold (with_queue rest st).
  case_bool_decide as Hdepth; [done|].
  destruct (build_doc_map all_docs !! cur) as [d|] eqn:Hd; [|done].
  destruct (Hq cur depth) as (p & Hp & Hlen);
    [rewrite Hqueue; by apply elem_of_cons; left|].
  set (P := λ st', path_inv max_depth st' ∧ discovery_paths st' !! cur = Some p).
  apply (expand_node_keeps P all_docs cur depth); [|done|done].
  intros counter label st' id Hl [HP' Hp'] Hid.
  eapply path_inv_discover; [done|lia|done..].
Qed.

Lemma seed_state_path_inv (max_depth : Z) (seed_nodes : list string) :
  path_inv max_depth (seed_state seed_nodes).
Proof.
  destruct (seed_paths_spec seed_nodes ∅) as [Hd Hl].
  assert (Hseed : path_from_seed max_depth ["seed"]).
  { exists []. repeat split; [by apply Forall_nil | simpl; lia]. }
  split; [|split]; simpl.
  - rewrite Hd, dom_empty_L. set_solver.
  - intros k p [->|Hk]%Hl; [done|]. by rewrite lookup_empty in Hk.
  - intros k d (s & [= -> ->] & Hs)%list_elem_of_fmap.
    exists ["seed"]. split; [|done].
    assert (Hin : s ∈ dom (foldl (λ m node, <[node := ["seed"]]> m) ∅ seed_nodes))
      by (rewrite Hd; set_solver).
    apply elem_of_dom in Hin as [p Hp]. rewrite Hp.
    apply Hl in Hp as [->|Hp]; [done|]. by rewrite lookup_empty in Hp.
Qed.

(** X2: on a snapshot with distinct ids, the nodes returned are the nodes with a
    discovery path, and every path is the word ["seed"] followed by at most
    [max_depth] hops, each one named [parent], [child], [sibling],
    [same_level] or [semantic]; the path of a seed is never written again. *)
Theorem discovery_paths_from_seed (all_docs : list doc)
    (seed_nodes : list string) (max_nodes max_depth : Z) :
  NoDup (_id <$> all_docs) →
  let r := _traverse_graph all_docs seed_nodes max_nodes max_depth in
  dom (result_paths r) = list_to_set (visited_nodes r) ∧
  (∀ id p, result_paths r !! id = Some p → path_from_seed max_depth p) ∧
  (∀ id, id ∈ seed_nodes → result_paths r !! id = Some ["seed"]).
Proof.
  intros Hnd r. subst r.
  set (J := λ st, path_inv max_depth st ∧
                  ∀ id, id ∈ seed_nodes →
                        discovery_paths st !! id = Some ["seed"]).
  destruct (traverse_graph_keeps J all_docs seed_nodes max_nodes max_depth)
    as (st & [(Hdom & Hwf & _) Hseed] & ->).
  - intros st cur depth rest [HJ Hseed] Hq. split.
    + by apply loop_body_path_inv.
    + (* a seed is visited from the start, and only unvisited nodes get a
         path *)
      unfold loop_body. fold (with_queue rest st).
      case_bool_decide; [done|].
      destruct (build_doc_map all_docs !! cur) as [d|]; [|done].
      set (P := λ st', dom (discovery_paths st') = visited st' ∧
                       ∀ id, id ∈ seed_nodes →
                             discovery_paths st' !! id = Some ["seed"]).
      apply (expand_node_keeps P all_docs cur depth); [|done|].
      * intros counter label st' id _ [Hd' Hs'] Hid. split; simpl.
        -- by rewrite dom_insert_L, Hd'.
        -- intros k Hk. rewrite lookup_insert_ne; [by apply Hs'|].
           intros <-. apply Hid. rewrite <- Hd'. apply elem_of_dom.
           rewrite (Hs' _ Hk). by eexists.
      * split; [apply HJ | done].
  - split; [apply seed_state_path_inv|].
    intros id Hid. simpl.
    destruct (seed_paths_spec seed_nodes ∅) as [Hd Hl].
    assert (Hin : id ∈ dom (foldl (λ m node, <[node := ["seed"]]> m) ∅
                              seed_nodes)) by (rewrite Hd; set_solver).
    apply elem_of_dom in Hin as [p Hp]. rewrite Hp.
    apply Hl in Hp as [->|Hp]; [done|]. by rewrite lookup_empty in Hp.
  - simpl. split; [|done]. by rewrite list_to_set_elements_L.
Qed.

Lemma discovery_paths_from_seed_witness :
  let r := _traverse_graph family ["A"] 30 3 in
  dom (result_paths r) = list_to_set (visited_nodes r) ∧
  (∀ id p, result_paths r !! id = Some p → path_from_seed 3 p) ∧
  (∀ id, id ∈ ["A"] → result_paths r !! id = Some ["seed"]).
Proof.
  apply (discovery_paths_from_seed family ["A"] 30 3).
  refine (bool_decide_unpack _ _). vm_compute. exact I.
Defined.

(** *** No depth, no traversal *)

(** X3: with [max_depth] at zero or below, every node taken off the work list is
    passed over: the result is the seeds, each with the path [["seed"]], and
    the five counters are at zero. *)
Theorem no_depth_no_traversal (all_docs : list doc) (seed_nodes : list string)
    (max_nodes max_depth : Z) :
  (max_depth ≤ 0)%Z →
  let r := _traverse_graph all_docs seed_nodes max_nodes max_depth in
  visited_nodes r = elements (list_to_set seed_nodes : gset string) ∧
  (∀ id, result_paths r !! id
         = if bool_decide (id ∈ seed_nodes) then Some ["seed"] else None) ∧
  (∀ c, c ∈ fst <$> counter_labels → result_counts r !! c = Some 0%Z).
Proof.
  intros Hdepth r. subst r.
  set (J := λ st, outcome_of st = outcome_of (seed_state seed_nodes) ∧
                  ∀ id d, (id, d) ∈ nodes_to_explore st → (0 ≤ d)%Z).
  destruct (traverse_graph_keeps J all_docs seed_nodes max_nodes max_depth)
    as (st & [Hout _] & ->).
  - intros st cur depth rest [Hout Hq] Hqueue.
    assert (0 ≤ depth)%Z
      by (apply (Hq cur); rewrite Hqueue; by apply elem_of_cons; left).
    unfold loop_body. rewrite bool_decide_eq_true_2 by lia.
    split; [done|]. simpl. intros id d Hid. apply (Hq id).
    rewrite Hqueue. by apply elem_of_cons; right.
  - split; [done|]. simpl. by intros id d (s & [= -> ->] & _)%list_elem_of_fmap.
  - injection Hout as Hv Hp Hc. simpl. rewrite Hv, Hp, Hc. simpl.
    split; [done|]. split.
    + intros id. destruct (seed_paths_spec seed_nodes ∅) as [Hd Hl].
      case_bool_decide as Hid.
      * assert (Hin : id ∈ dom (foldl (λ m node, <[node := ["seed"]]> m) ∅
                                  seed_nodes)) by (rewrite Hd; set_solver).
        apply elem_of_dom in Hin as [p Hp']. rewrite Hp'.
        apply Hl in Hp' as [->|Hp']; [done|]. by rewrite lookup_empty in Hp'.
      * apply not_elem_of_dom. rewrite Hd. set_solver.
    + intros c. unfold counter_labels. simpl.
      rewrite !elem_of_cons, elem_of_nil.
      intros [->|[->|[->|[->|[->|[]]]]]]; reflexivity.
Qed.

Lemma no_depth_no_traversal_witness :
  let r := _traverse_graph family ["A"] 30 0 in
  visited_nodes r = elements (list_to_set ["A"] : gset string) ∧
  (∀ id, result_paths r !! id
         = if bool_decide (id ∈ ["A"]) then Some ["seed"] else None) ∧
  (∀ c, c ∈ fst <$> counter_labels → result_counts r !! c = Some 0%Z).
Proof. apply (no_depth_no_traversal family ["A"] 30 0). lia. Defined.

(** *** One unit of a counter for every node found *)

Lemma counters_total_alter (counter label : string) (counts : gmap string Z) :
  (counter, label) ∈ counter_labels →
  dom counts = list_to_set (fst <$> counter_labels) →
  counters_total (alter Z.succ counter counts)
  = (counters_total counts + 1)%Z.
Proof.
  intros Hl Hdom.
  assert (Hin : ∀ c, c ∈ fst <$> counter_labels → is_Some (counts !! c)).
  { intros c Hc. apply elem_of_dom. rewrite Hdom. set_solver. }
  unfold counter_labels in Hl, Hin. simpl in Hin.
  destruct (Hin "parent") as [v1 H1]; [set_solver|].
  destruct (Hin "child") as [v2 H2]; [set_solver|].
  destruct (Hin "sibling") as [v3 H3]; [set_solver|].
  destruct (Hin "semantic") as [v4 H4]; [set_solver|].
  destruct (Hin "topic") as [v5 H5]; [set_solver|].
  unfold counters_total, counter_labels. simpl.
  revert Hl. rewrite !elem_of_cons, elem_of_nil.
  intros [H|[H|[H|[H|[H|[]]]]]]; injection H as -> ->;
    rewrite lookup_alter_eq, !lookup_alter_ne by done;
    rewrite H1, H2, H3, H4, H5; simpl; lia.
Qed.

Lemma counted_discover (seed_nodes : list string) counter label cur depth st id :
  (counter, label) ∈ counter_labels → counted seed_nodes st →
  id ∉ visited st →
  counted seed_nodes (discover counter label cur depth st id).
Proof.
  intros Hl [Hdom Hsize] Hid. split; simpl.
  - by rewrite dom_alter_L.
  - rewrite size_union by set_solver. rewrite size_singleton.
    rewrite (counters_total_alter counter label) by done. lia.
Qed.

Lemma traverse_graph_counted (all_docs : list doc) (seed_nodes : list string)
    (max_nodes max_depth : Z) :
  NoDup (_id <$> all_docs) →
  ∃ st, counted seed_nodes st ∧
        _traverse_graph all_docs seed_nodes max_nodes max_depth
        = {| visited_nodes := elements (visited st);
             result_paths := discovery_paths st;
             result_counts := relationship_counts st |}.
Proof.
  intros Hnd. apply traverse_graph_keeps.
  - intros st cur depth rest HJ Hq.
    unfold loop_body. fold (with_queue rest st).
    case_bool_decide; [done|].
    destruct (build_doc_map all_docs !! cur) as [d|]; [|done].
    apply (expand_node_keeps (counted seed_nodes) all_docs cur depth);
      [|done|done].
    intros. by apply (counted_discover seed_nodes counter label).
  - split.
    + simpl. apply leibniz_equiv. rewrite !dom_insert, dom_empty. set_solver.
    + assert (Hz : counters_total (relationship_counts (seed_state seed_nodes))
                   = 0%Z) by (vm_compute; reflexivity).
      rewrite Hz. simpl. lia.
Qed.

(** X4: on a snapshot with distinct ids, the nodes returned are the distinct
    seeds and one node more for every unit of a counter: the sum of the five
    counters is the number of nodes that the traversal added to the seeds. *)
Theorem counters_sum_to_found_nodes (all_docs : list doc)
    (seed_nodes : list string) (max_nodes max_depth : Z) :
  NoDup (_id <$> all_docs) →
  let r := _traverse_graph all_docs seed_nodes max_nodes max_depth in
  Z.of_nat (length (visited_nodes r))
  = (Z.of_nat (size (list_to_set seed_nodes : gset string))
     + counters_total (result_counts r))%Z.
Proof.
  intros Hnd r. subst r.
  destruct (traverse_graph_counted all_docs seed_nodes max_nodes max_depth Hnd)
    as (st & [_ Hsize] & ->).
  simpl. exact Hsize.
Qed.

Lemma counters_sum_to_found_nodes_witness :
  let r := _traverse_graph family ["A"] 30 3 in
  Z.of_nat (length (visited_nodes r))
  = (Z.of_nat (size (list_to_set ["A"] : gset string))
     + counters_total (result_counts r))%Z.
Proof.
  apply (counters_sum_to_found_nodes family ["A"] 30 3).
  refine (bool_decide_unpack _ _). vm_compute. exact I.
Defined.
(** *** The traversal is complete within its budget *)

Lemma index_by_complete (key : doc → option string) (all_docs : list doc)
    (d : doc) (k : string) :
  d ∈ all_docs → key d = Some k → str_truthy k = true →
  _id d ∈ default [] (index_by key all_docs !! k).
Proof.
  induction all_docs as [|d' l IH] using rev_ind; [by intros ?%elem_of_nil|].
  intros Hd Hk Ht. rewrite index_by_snoc.
  apply elem_of_app in Hd as [Hd|Hd%list_elem_of_singleton].
  - specialize (IH Hd Hk Ht).
    destruct (key d') as [k'|]; [|done].
    destruct (str_truthy k'); [|done].
    destruct (decide (k' = k)) as [->|Hne].
    + rewrite lookup_insert_eq. simpl. apply elem_of_app. by left.
    + by rewrite lookup_insert_ne.
  - subst d'. rewrite Hk, Ht, lookup_insert_eq. simpl.
    apply elem_of_app. right. by apply list_elem_of_singleton.
Qed.

Lemma build_doc_map_lookup_elem (all_docs : list doc) (d : doc) :
  NoDup (_id <$> all_docs) → d ∈ all_docs →
  build_doc_map all_docs !! _id d = Some d.
Proof.
  intros Hnd Hd.
  destruct (build_doc_map all_docs !! _id d) as [d'|] eqn:Hd'.
  - apply build_doc_map_lookup_Some in Hd' as [Hin Hid]. f_equal.
    clear -Hnd Hd Hin Hid.
    induction all_docs as [|a l IH]; [by apply elem_of_nil in Hd|].
    rewrite fmap_cons in Hnd. apply NoDup_cons in Hnd as [Ha Hnd].
    apply elem_of_cons in Hd as [->|Hd];
      apply elem_of_cons in Hin as [->|Hin]; try done.
    + exfalso. apply Ha. rewrite <- Hid. by apply list_elem_of_fmap_2.
    + exfalso. apply Ha. rewrite Hid. by apply list_elem_of_fmap_2.
    + by apply IH.
  - apply build_doc_map_lookup_None in Hd'. exfalso. apply Hd'.
    by apply list_elem_of_fmap_2.
Qed.

Lemma discover_visited_mono counter label cur depth st id (x : string) :
  x ∈ visited st → x ∈ visited (discover counter label cur depth st id).
Proof. intros Hx. simpl. by apply elem_of_union_r. Qed.

Lemma foldl_visits {A} (f : traversal_state → A → traversal_state)
    (key : A → string) (R : A → Prop) (l : list A) :
  (∀ st a x, x ∈ visited st → x ∈ visited (f st a)) →
  (∀ st a, R a → key a ∈ visited (f st a)) →
  ∀ st a, a ∈ l → R a → key a ∈ visited (foldl f st l).
Proof.
  intros Hmono Hpost.
  assert (Hfold : ∀ l st x, x ∈ visited st → x ∈ visited (foldl f st l)).
  { clear l. induction l as [|b l IH]; intros st x Hx; [done|].
    simpl. by apply IH, Hmono. }
  induction l as [|b l IH]; intros st a Ha HR; [by apply elem_of_nil in Ha|].
  simpl. apply elem_of_cons in Ha as [->|Ha].
  - by apply Hfold, Hpost.
  - by apply IH.
Qed.

Lemma visit_parent_visits cur depth d st (q : string) :
  parent_chunk_id d = Some q → str_truthy q = true →
  q ∈ visited (visit_parent cur depth d st).
Proof.
  intros Hq Ht. unfold visit_parent. rewrite Hq, Ht. simpl.
  case_bool_decide as Hv.
  - simpl. apply elem_of_union_l. by apply elem_of_singleton.
  - by destruct (decide (q ∈ visited st)).
Qed.

Lemma visit_children_visits p2c cur depth st (c : string) :
  c ∈ default [] (p2c !! cur) →
  c ∈ visited (visit_children p2c cur depth st).
Proof.
  intros Hc. unfold visit_children.
  apply (foldl_visits _ id (λ _, True)); [| |done|done].
  - intros st' a x Hx. case_bool_decide; [|done].
    by apply discover_visited_mono.
  - intros st' a _. case_bool_decide as Hv.
    + simpl. apply elem_of_union_l. by apply elem_of_singleton.
    + by destruct (decide (a ∈ visited st')).
Qed.

Lemma visit_siblings_visits p2c cur depth d st (q s : string) :
  parent_chunk_id d = Some q → str_truthy q = true →
  s ∈ default [] (p2c !! q) → s ≠ cur →
  s ∈ visited (visit_siblings p2c cur depth d st).
Proof.
  intros Hq Ht Hs Hne. unfold visit_siblings. rewrite Hq, Ht.
  apply (foldl_visits _ id (λ s, s ≠ cur)); [| |done|done].
  - intros st' a x Hx. destruct (_ && _); [|done].
    by apply discover_visited_mono.
  - intros st' a Ha. rewrite (bool_decide_eq_true_2 _ Ha). simpl.
    case_bool_decide as Hv.
    + simpl. apply elem_of_union_l. by apply elem_of_singleton.
    + by destruct (decide (a ∈ visited st')).
Qed.

Lemma visit_same_level_visits doc_map pg2c cur depth d st
    (pg x : string) (l : Z) (c : doc) :
  page_id d = Some pg → str_truthy pg = true →
  level d = Some l → (0 < l)%Z →
  x ∈ default [] (pg2c !! pg) → x ≠ cur →
  doc_map !! x = Some c → level c = Some l →
  x ∈ visited (visit_same_level doc_map pg2c cur depth d st).
Proof.
  intros Hpg Ht Hl Hpos Hx Hne Hc Hlc. unfold visit_same_level.
  rewrite Hpg, Ht, Hl. simpl. rewrite (bool_decide_eq_true_2 _ Hpos).
  apply (foldl_visits _ id
           (λ x, x ≠ cur ∧ ∃ c, doc_map !! x = Some c ∧ level c = Some l));
    [| |done|by eauto].
  - intros st' a y Hy. destruct (_ && _); [|done].
    destruct (doc_map !! a); [|done].
    case_bool_decide; [|done]. by apply discover_visited_mono.
  - intros st' a (Ha & c' & Hc' & Hlc').
    rewrite (bool_decide_eq_true_2 _ Ha). simpl.
    case_bool_decide as Hv.
    + rewrite Hc', (bool_decide_eq_true_2 _ Hlc'). simpl.
      apply elem_of_union_l. by apply elem_of_singleton.
    + by destruct (decide (a ∈ visited st')).
Qed.

(** The expansion of a node of the snapshot visits its neighbourhood. *)
Lemma expand_node_neighbourhood (all_docs : list doc) cur depth d st :
  NoDup (_id <$> all_docs) → d ∈ all_docs → _id d = cur →
  cur ∈ visited st →
  neighbourhood_visited all_docs
    (visited (expand_node all_docs (build_doc_map all_docs)
                (build_parent_to_children all_docs)
                (build_page_to_chunks all_docs) cur depth d st)) d.
Proof.
  intros Hnd Hd Hid Hcur. unfold expand_node.
  set (st1 := visit_parent cur depth d st).
  set (st2 := visit_children _ cur depth st1).
  set (st3 := visit_siblings _ cur depth d st2).
  set (st4 := visit_same_level _ _ cur depth d st3).
  assert (Hmono : ∀ x st', x ∈ visited st' →
            ∀ counter label st'' id,
              (counter, label) ∈ counter_labels → x ∈ visited st'' →
              id ∉ visited st'' →
              x ∈ visited (discover counter label cur depth st'' id)).
  { intros x _ _ counter label st'' id _ Hx _.
    by apply discover_visited_mono. }
  assert (H1 : ∀ x, x ∈ visited st → x ∈ visited st1).
  { intros x Hx.
    by apply (visit_parent_keeps (λ s, x ∈ visited s) cur depth
                (Hmono x st Hx)). }
  assert (H2 : ∀ x, x ∈ visited st1 → x ∈ visited st2).
  { intros x Hx.
    by apply (visit_children_keeps (λ s, x ∈ visited s) cur depth
                (Hmono x st1 Hx)). }
  assert (H3 : ∀ x, x ∈ visited st2 → x ∈ visited st3).
  { intros x Hx.
    by apply (visit_siblings_keeps (λ s, x ∈ visited s) cur depth
                (Hmono x st2 Hx)). }
  assert (H4 : ∀ x, x ∈ visited st3 → x ∈ visited st4).
  { intros x Hx.
    by apply (visit_same_level_keeps (λ s, x ∈ visited s) cur depth
                (Hmono x st3 Hx)). }
  assert (H5 : ∀ x, x ∈ visited st4 →
                    x ∈ visited (visit_semantic all_docs cur depth d st4)).
  { intros x Hx.
    by apply (visit_semantic_keeps (λ s, x ∈ visited s) all_docs cur depth
                (Hmono x st4 Hx)). }
  split.
  - intros q Hq Ht. apply H5, H4, H3, H2. by apply visit_parent_visits.
  - intros c Hc [[Hpc Ht]|[(q & Hq & Hpc & Ht)|
                 (pg & l & Hpg & Hpgc & Ht & Hl & Hlc & Hpos)]].
    + apply H5, H4, H3. apply visit_children_visits.
      rewrite <- Hid. by apply index_by_complete.
    + destruct (decide (_id c = cur)) as [->|Hne];
        [by apply H5, H4, H3, H2, H1|].
      apply H5, H4. eapply visit_siblings_visits; [done..| |done].
      by apply index_by_complete.
    + destruct (decide (_id c = cur)) as [->|Hne];
        [by apply H5, H4, H3, H2, H1|].
      apply H5. eapply visit_same_level_visits; [done..| |done| |done].
      * by apply index_by_complete.
      * by apply build_doc_map_lookup_elem.
Qed.

Lemma worked_off_mono (all_docs : list doc) (max_depth : Z)
    (st st' : traversal_state) (x : string) :
  (∀ y, y ∈ visited st → y ∈ visited st') →
  discovery_paths st' !! x = discovery_paths st !! x →
  worked_off all_docs max_depth st x → worked_off all_docs max_depth st' x.
Proof.
  intros Hsub Hp Hw d p Hd Hx Hlen. rewrite Hp in Hx.
  destruct (Hw d p Hd Hx Hlen) as [Hpar Hlink].
  split; [intros q ? ? | intros c ? ?]; apply Hsub; eauto.
Qed.

Lemma loop_body_work_inv (all_docs : list doc) (max_depth : Z)
    cur depth rest st :
  NoDup (_id <$> all_docs) →
  path_inv max_depth st → work_inv all_docs max_depth st →
  nodes_to_explore st = (cur, depth) :: rest →
  work_inv all_docs max_depth (loop_body all_docs max_depth cur depth rest st).
Proof.
  intros Hnd (Hdom & Hwf & Hq) HK Hqueue.
  destruct (Hq cur depth) as (pc & Hpc & Hlen);
    [rewrite Hqueue; by apply elem_of_cons; left|].
  assert (Hcur : cur ∈ visited st).
  { rewrite <- Hdom. apply elem_of_dom. by eexists. }
  unfold loop_body. fold (with_queue rest st).
  case_bool_decide as Hdepth.
  { intros x Hx. destruct (HK x Hx) as [[dep Hin]|Hw]; [|by right].
    rewrite Hqueue in Hin. apply elem_of_cons in Hin as [[= -> ->]|Hin];
      [|left; by exists dep].
    right. intros d p _ Hp Hl. simpl in Hp. rewrite Hpc in Hp.
    injection Hp as <-. lia. }
  destruct (build_doc_map all_docs !! cur) as [d|] eqn:Hd.
  2:{ intros x Hx. destruct (HK x Hx) as [[dep Hin]|Hw]; [|by right].
      rewrite Hqueue in Hin. apply elem_of_cons in Hin as [[= -> ->]|Hin];
        [|left; by exists dep].
      right. intros d p Hd'. by rewrite Hd in Hd'. }
  pose proof (build_doc_map_lookup_Some _ _ _ Hd) as [Hdin Hdid].
  set (st1 := with_queue rest st).
  set (P := λ st',
    (∀ x, x ∈ visited st1 → x ∈ visited st') ∧
    (∀ e, e ∈ rest → e ∈ nodes_to_explore st') ∧
    (∀ x, x ∈ visited st' →
          x ∈ visited st1 ∨ ∃ dep, (x, dep) ∈ nodes_to_explore st') ∧
    (∀ x, x ∈ visited st1 →
          discovery_paths st' !! x = discovery_paths st1 !! x) ∧
    dom (discovery_paths st') = visited st').
  assert (HP : P (expand_node all_docs (build_doc_map all_docs)
                    (build_parent_to_children all_docs)
                    (build_page_to_chunks all_docs) cur depth d st1)).
  { apply (expand_node_keeps P all_docs cur depth); [|done|].
    - intros counter label st' id _ (Ha & Hb & Hc & He & Hf) Hid.
      split; [|split; [|split; [|split]]]; simpl.
      + intros x Hx. apply elem_of_union_r. by apply Ha.
      + intros e He'. apply elem_of_app. left. by apply Hb.
      + intros x [->%elem_of_singleton|Hx]%elem_of_union.
        * right. exists (depth + 1)%Z. apply elem_of_app. right.
          by apply list_elem_of_singleton.
        * destruct (Hc x Hx) as [?|[dep ?]]; [by left|].
          right. exists dep. apply elem_of_app. by left.
      + intros x Hx. rewrite lookup_insert_ne; [by apply He|].
        intros <-. by apply Hid, Ha.
      + by rewrite dom_insert_L, Hf.
    - subst P. simpl. repeat split; try done. intros x Hx. by left. }
  destruct HP as (Ha & Hb & Hc & He & Hf).
  intros x Hx. destruct (Hc x Hx) as [Hold|Hnew]; [|by left].
  destruct (HK x Hold) as [[dep Hin]|Hw].
  - rewrite Hqueue in Hin. apply elem_of_cons in Hin as [[= -> ->]|Hin];
      [|left; exists dep; by apply Hb].
    right. intros d' p Hd' _ _. rewrite Hd in Hd'. injection Hd' as <-.
    by apply expand_node_neighbourhood.
  - right. eapply worked_off_mono; [exact Ha| |exact Hw].
    by apply He.
Qed.

Lemma seed_state_work_inv (all_docs : list doc) (max_depth : Z)
    (seed_nodes : list string) :
  work_inv all_docs max_depth (seed_state seed_nodes).
Proof.
  intros x Hx. simpl in Hx. apply elem_of_list_to_set in Hx.
  left. exists 0%Z. simpl. by apply (list_elem_of_fmap_2 (λ node, (node, 0%Z))).
Qed.

(** The loop ends on an empty work list or on a spent budget. *)
Lemma traverse_loop_end (all_docs : list doc) (max_nodes max_depth : Z)
    (fuel : nat) :
  ∀ st st',
    traverse_loop fuel all_docs max_nodes max_depth st = Some st' →
    nodes_to_explore st' = [] ∨ (max_nodes ≤ Z.of_nat (size (visited st')))%Z.
Proof.
  induction fuel as [|fuel IH]; intros st st'; simpl;
    destruct (nodes_to_explore st) as [|[cur depth] rest] eqn:Hq;
    try (intros [= <-]; by left);
    case_bool_decide as Hlt; try (intros [= <-]; right; lia); try done.
  apply IH.
Qed.

(** X5: on a snapshot with distinct ids, a traversal that returns fewer than
    [max_nodes] nodes has left nothing out: for every document it returns
    that was reached by fewer than [max_depth] hops, it also returns the
    parent the document names, the documents that name it as their parent,
    the documents with the same parent, and the documents of the same page
    at the same positive level. *)
Theorem traversal_complete_within_budget (all_docs : list doc)
    (seed_nodes : list string) (max_nodes max_depth : Z) :
  NoDup (_id <$> all_docs) →
  let r := _traverse_graph all_docs seed_nodes max_nodes max_depth in
  (Z.of_nat (length (visited_nodes r)) < max_nodes)%Z →
  ∀ d p, d ∈ all_docs → result_paths r !! _id d = Some p →
         (Z.of_nat (length p) ≤ max_depth)%Z →
         (∀ q, parent_chunk_id d = Some q → str_truthy q = true →
               q ∈ visited_nodes r) ∧
         (∀ c, c ∈ all_docs → linked d c → _id c ∈ visited_nodes r).
Proof.
  intros Hnd r. subst r. unfold _traverse_graph, traverse_final.
  destruct (traverse_final_total all_docs seed_nodes max_nodes max_depth)
    as [st Hrun].
  unfold traverse_final in Hrun. rewrite Hrun. simpl.
  intros Hbudget d p Hd Hp Hlen.
  set (J := λ st, path_inv max_depth st ∧ work_inv all_docs max_depth st).
  assert (HJ : J st).
  { eapply (traverse_loop_keeps J); [| |exact Hrun].
    - intros st0 cur depth rest [Hpi Hwi] Hq. split.
      + by apply loop_body_path_inv.
      + by apply loop_body_work_inv.
    - split; [apply seed_state_path_inv | apply seed_state_work_inv]. }
  destruct HJ as [(Hdom & _ & _) HK].
  apply traverse_loop_end in Hrun as [Hempty|Hfull];
    [|change (size (visited st)) with (length (elements (visited st)))
        in Hfull; lia].
  assert (Hv : _id d ∈ visited st).
  { rewrite <- Hdom. apply elem_of_dom. by eexists. }
  destruct (HK _ Hv) as [[dep Hin]|Hw].
  { rewrite Hempty in Hin. by apply elem_of_nil in Hin. }
  destruct (Hw d p (build_doc_map_lookup_elem _ _ Hnd Hd) Hp Hlen)
    as [Hpar Hlink].
  split; [intros q ? ? | intros c ? ?]; apply elem_of_elements; eauto.
Qed.

Lemma traversal_complete_within_budget_witness :
  let r := _traverse_graph family ["A"] 30 3 in
  (∀ q, parent_chunk_id family_A = Some q → str_truthy q = true →
        q ∈ visited_nodes r) ∧
  (∀ c, c ∈ family → linked family_A c → _id c ∈ visited_nodes r).
Proof.
  apply (traversal_complete_within_budget family ["A"] 30 3)
    with (p := ["seed"]).
  - refine (bool_decide_unpack _ _). vm_compute. exact I.
  - vm_compute. reflexivity.
  - apply elem_of_cons. by left.
  - vm_compute. reflexivity.
  - simpl. lia.
Defined.

(** ** The order of doubles *)

Section float_order.
Local Open Scope Z_scope.

Lemma SFleb_finite_pos_iff (m1 m2 : positive) (e1 e2 : Z) :
  SFleb (S754_finite false m1 e1) (S754_finite false m2 e2) = true
  <-> e1 < e2 \/ (e1 = e2 /\ (m1 <= m2)%positive).
Proof.
  split; [apply SFleb_finite_pos|].
  unfold SFleb, SFcompare.
  change (Pos.compare_cont Eq m1 m2) with (m1 ?= m2)%positive.
  destruct (Z.compare_spec e1 e2) as [He|He|He]; [|done|lia].
  intros [?|[_ Hm]]; [lia|].
  destruct (Pos.compare_spec m1 m2) as [?|?|?]; try done; lia.
Qed.

Lemma SFleb_finite_neg_iff (m1 m2 : positive) (e1 e2 : Z) :
  SFleb (S754_finite true m1 e1) (S754_finite true m2 e2) = true
  <-> e2 < e1 \/ (e2 = e1 /\ (m2 <= m1)%positive).
Proof.
  change (S754_finite true m1 e1) with (SFopp (S754_finite false m1 e1)).
  change (S754_finite true m2 e2) with (SFopp (S754_finite false m2 e2)).
  rewrite SFleb_opp. apply SFleb_finite_pos_iff.
Qed.

(** [<=] on doubles is transitive. *)
Lemma SFleb_trans (x y z : spec_float) :
  SFleb x y = true -> SFleb y z = true -> SFleb x z = true.
Proof.
  destruct x as [[]|[]| |[] m1 e1], y as [[]|[]| |[] m2 e2],
           z as [[]|[]| |[] m3 e3];
    try reflexivity; try discriminate;
    rewrite ?SFleb_finite_pos_iff, ?SFleb_finite_neg_iff; lia.
Qed.

(** Two doubles that are numbers are comparable. *)
Lemma SFleb_total (x y : spec_float) :
  SFeqb x x = true -> SFeqb y y = true ->
  SFltb x y = false -> SFleb y x = true.
Proof.
  destruct x as [[]|[]| |[] m1 e1], y as [[]|[]| |[] m2 e2];
    try reflexivity; try discriminate; intros _ _;
    rewrite ?SFleb_finite_pos_iff, ?SFleb_finite_neg_iff;
    unfold SFltb, SFcompare;
    change (Pos.compare_cont Eq m1 m2) with (m1 ?= m2)%positive;
    destruct (Z.compare_spec e1 e2) as [He|He|He]; try discriminate; try lia;
    destruct (Pos.compare_spec m1 m2) as [?|?|?]; try discriminate; lia.
Qed.

Lemma leb_trans (x y z : float) :
  (x <=? y)%float = true -> (y <=? z)%float = true -> (x <=? z)%float = true.
Proof. rewrite !FloatAxioms.leb_spec. apply SFleb_trans. Qed.

Lemma leb_total (x y : float) :
  (x =? x)%float = true -> (y =? y)%float = true ->
  (x <? y)%float = false -> (y <=? x)%float = true.
Proof.
  rewrite !FloatAxioms.eqb_spec, FloatAxioms.ltb_spec, FloatAxioms.leb_spec.
  apply SFleb_total.
Qed.

Lemma leb_refl (x : float) : (x =? x)%float = true -> (x <=? x)%float = true.
Proof.
  rewrite FloatAxioms.eqb_spec, FloatAxioms.leb_spec. unfold SFeqb, SFleb.
  by destruct (SFcompare _ _) as [[]|].
Qed.

End float_order.

(** ** The ranking *)

Lemma insert_desc_perm {A} (key : A → float) (x : A) (l : list A) :
  insert_desc key x l ≡ₚ x :: l.
Proof.
  induction l as [|y l IH]; simpl; [done|].
  destruct (key x <? key y)%float; [|done].
  rewrite IH. apply Permutation_swap.
Qed.

Lemma insert_desc_sorted {A} (key : A → float) (x : A) (l : list A) :
  is_number (key x) → Forall (λ y, is_number (key y)) l →
  StronglySorted (ranked_before key) l →
  StronglySorted (ranked_before key) (insert_desc key x l).
Proof.
  intros Hx Hl Hs. induction Hs as [|y l Hs IH Hy]; simpl.
  - by repeat constructor.
  - apply Forall_cons in Hl as [Hny Hl].
    destruct (key x <? key y)%float eqn:Hlt.
    + constructor; [by apply IH|].
      rewrite insert_desc_perm. constructor; [|done].
      by apply ltb_leb.
    + assert (Hyx : ranked_before key x y) by by apply leb_total.
      constructor; [by constructor|].
      constructor; [done|].
      eapply Forall_impl; [exact Hy|]. intros z Hz. simpl in Hz.
      unfold ranked_before in *. by eapply leb_trans.
Qed.

(** A list whose keys are numbers is sorted best first. *)
Lemma sort_desc_sorted {A} (key : A → float) (l : list A) :
  Forall (λ y, is_number (key y)) l →
  StronglySorted (ranked_before key) (sort_desc key l).
Proof.
  induction 1 as [|x l Hx Hl IH]; simpl; [constructor|].
  apply insert_desc_sorted; [done| |done].
  fold (sort_desc key l). by rewrite sort_desc_perm.
Qed.

(** *** [_score_documents] *)

Lemma score_documents_elem (query_embedding : list float)
    (documents : list doc) (d : doc) (s : float) :
  (d, s) ∈ _score_documents query_embedding documents ↔
  d ∈ documents ∧
  ∃ e, embedding d = Some e ∧ e ≠ [] ∧
       s = _cosine_similarity query_embedding e.
Proof.
  unfold _score_documents. rewrite sort_desc_perm. rewrite list_elem_of_omap.
  split.
  - intros (d' & Hd & Hs).
    destruct (embedding d') as [[|a e]|] eqn:He; try done.
    injection Hs as <- <-. split; [done|]. by exists (a :: e).
  - intros (Hd & e & He & Hne & ->). exists d. split; [done|].
    rewrite He. by destruct e.
Qed.

(** X6: the documents are scored and ranked: the result holds exactly the
    documents that have a non-empty embedding, each with its cosine
    similarity to the query; when these similarities are numbers, no score
    exceeds one before it. *)
Theorem score_documents_ranked (query_embedding : list float)
    (documents : list doc) :
  (∀ d e, d ∈ documents → embedding d = Some e →
          is_number (_cosine_similarity query_embedding e)) →
  let scored := _score_documents query_embedding documents in
  (∀ d s, (d, s) ∈ scored ↔
          d ∈ documents ∧
          ∃ e, embedding d = Some e ∧ e ≠ [] ∧
               s = _cosine_similarity query_embedding e) ∧
  length scored ≤ length documents ∧
  StronglySorted (ranked_before snd) scored.
Proof.
  intros Hnum scored. subst scored. split; [|split].
  - intros d s. apply score_documents_elem.
  - unfold _score_documents. rewrite sort_desc_perm. apply length_omap_le.
  - unfold _score_documents. apply sort_desc_sorted.
    apply Forall_forall. intros [d s] Hd. simpl.
    apply list_elem_of_omap in Hd as (d' & Hd' & Hs).
    destruct (embedding d') as [[|a e]|] eqn:He; try done.
    injection Hs as <- <-. by eapply Hnum.
Qed.

Lemma score_documents_ranked_witness :
  let scored := _score_documents [1.0%float; 0.0%float] family in
  (∀ d s, (d, s) ∈ scored ↔
          d ∈ family ∧
          ∃ e, embedding d = Some e ∧ e ≠ [] ∧
               s = _cosine_similarity [1.0%float; 0.0%float] e) ∧
  length scored ≤ length family ∧
  StronglySorted (ranked_before snd) scored.
Proof.
  apply (score_documents_ranked [1.0%float; 0.0%float] family).
  intros d e Hd He. unfold family in Hd.
  repeat (apply elem_of_cons in Hd as [->|Hd]);
    [..|by apply elem_of_nil in Hd];
    try discriminate He; injection He as <-; reflexivity.
Defined.

(** ** A boost never moves a score towards zero *)

Section float_unit.
Local Open Scope Z_scope.

(** A canonical mantissa is left as it is. *)
Lemma round_pos_canonical (m : positive) (e : Z) :
  canonical_mantissa prec emax m e = true -> e <= 971 ->
  round_pos (Zpos m) e = S754_finite false m e.
Proof.
  intros Hc He. unfold canonical_mantissa in Hc. apply Z.eqb_eq in Hc.
  change (Zpos (digits2_pos m)) with (Zdigits2 (Zpos m)) in Hc.
  unfold round_pos. rewrite binary_round_aux_eq by lia.
  assert (Hk : shift_of (Zpos m) e = 0) by (unfold shift_of; lia).
  rewrite Hk, Z.add_0_r.
  change (round_at 0 (Zpos m)) with (Zpos m).
  unfold normalized. rewrite Hk, Z.add_0_r. change (2 ^ 0) with 1.
  rewrite Z.div_1_r. unfold shr_final. change (emax - prec) with 971.
  by rewrite (proj2 (Z.leb_le _ _) He).
Qed.

Lemma round_pos_shift_canonical (m : positive) (e j : Z) :
  canonical_mantissa prec emax m e = true -> 0 <= j ->
  round_pos (Zpos m * 2 ^ j) (e - j) = round_pos (Zpos m) e.
Proof.
  intros Hc Hj. unfold canonical_mantissa in Hc. apply Z.eqb_eq in Hc.
  change (Zpos (digits2_pos m)) with (Zdigits2 (Zpos m)) in Hc.
  unfold round_pos.
  assert (0 < 2 ^ j) by (apply Z.pow_pos_nonneg; lia).
  rewrite !binary_round_aux_eq by nia.
  assert (Hk : shift_of (Zpos m * 2 ^ j) (e - j) = shift_of (Zpos m) e + j).
  { unfold shift_of. rewrite Zdigits2_mul_pow2 by lia.
    replace (Zdigits2 (Zpos m) + j + (e - j)) with (Zdigits2 (Zpos m) + e)
      by lia. lia. }
  rewrite Hk. rewrite round_at_shift by (try apply shift_of_nonneg; lia).
  f_equal. lia.
Qed.

(** The double 1.0. *)
Lemma prim_one : Prim2SF 1%float = S754_finite false 4503599627370496 (-52).
Proof. reflexivity. Qed.

Lemma SFmul_one_r (x : spec_float) :
  valid_binary x = true ->
  SFmul prec emax x (S754_finite false 4503599627370496 (-52)) = x.
Proof.
  destruct x as [[]|[]| |s m e]; try reflexivity.
  unfold valid_binary, SpecFloat.valid_binary, bounded.
  intros [Hc He]%andb_prop. apply Z.leb_le in He.
  change (emax - prec) with 971 in He.
  cbn [SFmul]. rewrite xorb_false_r.
  assert (Hpos : round_pos (Zpos (m * 4503599627370496)) (e + -52)
                 = S754_finite false m e).
  { rewrite Pos2Z.inj_mul. change (Zpos 4503599627370496) with (2 ^ 52).
    replace (e + -52) with (e - 52) by lia.
    rewrite round_pos_shift_canonical by (done || lia).
    by apply round_pos_canonical. }
  destruct s; [|exact Hpos].
  rewrite binary_round_aux_opp. fold (round_pos (Zpos (m * 4503599627370496))
                                        (e + -52)).
  by rewrite Hpos.
Qed.

Lemma SFmul_comm (x y : spec_float) : SFmul prec emax x y = SFmul prec emax y x.
Proof.
  destruct x as [[]|[]| |[] m1 e1], y as [[]|[]| |[] m2 e2];
    try reflexivity; cbn [SFmul xorb];
    by rewrite (Pos.mul_comm m1 m2), (Z.add_comm e1 e2).
Qed.

(** Multiplying by a double that is 1 or more moves a double away from
    zero, or leaves it where it is. *)
Lemma SFmul_ge_one (a : spec_float) (mc : positive) (ec : Z) :
  valid_binary a = true ->
  valid_binary (S754_finite false mc ec) = true ->
  SFleb (S754_finite false 4503599627370496 (-52)) (S754_finite false mc ec)
  = true ->
  sf_nonneg a = true ->
  SFleb a (SFmul prec emax a (S754_finite false mc ec)) = true.
Proof.
  intros Va Vc Hone Ha.
  destruct a as [sa|[]| |[] ma ea]; try discriminate; try reflexivity.
  rewrite <- (SFmul_one_r (S754_finite false ma ea) Va) at 1.
  rewrite (SFmul_comm _ (S754_finite false 4503599627370496 (-52))).
  rewrite (SFmul_comm _ (S754_finite false mc ec)).
  by apply SFmul_mono.
Qed.

Lemma SFmul_ge_one_neg (a : spec_float) (mc : positive) (ec : Z) :
  valid_binary a = true ->
  valid_binary (S754_finite false mc ec) = true ->
  SFleb (S754_finite false 4503599627370496 (-52)) (S754_finite false mc ec)
  = true ->
  sf_nonpos a = true ->
  SFleb (SFmul prec emax a (S754_finite false mc ec)) a = true.
Proof.
  intros Va Vc Hone Ha.
  rewrite <- (SFopp_involutive a) in *.
  rewrite SFmul_opp, SFleb_opp.
  rewrite sf_nonpos_opp in Ha. rewrite valid_binary_opp in Va.
  by apply SFmul_ge_one.
Qed.

Lemma leb_zero_nonneg (x : float) :
  (0 <=? x)%float = true <-> sf_nonneg (Prim2SF x) = true.
Proof.
  rewrite FloatAxioms.leb_spec, prim_zero.
  by destruct (Prim2SF x) as [[]|[]| |[] ? ?].
Qed.

Lemma leb_zero_nonpos (x : float) :
  (x <=? 0)%float = true <-> sf_nonpos (Prim2SF x) = true.
Proof.
  rewrite FloatAxioms.leb_spec, prim_zero.
  by destruct (Prim2SF x) as [[]|[]| |[] ? ?].
Qed.

(** A finite double of magnitude 1 or more is 1.0 or more. *)
Lemma finite_between_ge_one (hi : Z) (c : float) :
  finite_between 1 hi c -> (1 <=? c)%float = true.
Proof.
  intros (p & e & Hc & Hb & He & _)%finite_between_valid.
  rewrite FloatAxioms.leb_spec, prim_one, Hc.
  apply SFleb_finite_pos_iff.
  destruct (Z.eq_dec e (-52)) as [->|Hne]; [right|left; lia].
  split; [done|].
  assert (Hd : Zdigits2 (Zpos p) = 53) by lia.
  pose proof (Zdigits2_bounds (Zpos p) (Pos2Z.is_pos p)) as [Hlo _].
  rewrite Hd in Hlo. change (2 ^ (53 - 1)) with 4503599627370496 in Hlo. lia.
Qed.

Lemma mul_boost_nonneg (lo hi : Z) (a c : float) :
  finite_between lo hi c -> (1 <=? c)%float = true ->
  (0 <=? a)%float = true ->
  (a <=? a * c)%float = true /\ (0 <=? a * c)%float = true.
Proof.
  intros Hc Hone Ha.
  pose proof (Prim2SF_valid c) as Vc.
  destruct Hc as (mc & ec & Hc & _).
  rewrite leb_zero_nonneg in *.
  rewrite !FloatAxioms.leb_spec, ?FloatAxioms.mul_spec, ?prim_one in *.
  rewrite Hc in *. split.
  - apply SFmul_ge_one; try done. apply Prim2SF_valid.
  - by apply SFmul_nonneg.
Qed.

Lemma mul_boost_nonpos (lo hi : Z) (a c : float) :
  finite_between lo hi c -> (1 <=? c)%float = true ->
  (a <=? 0)%float = true ->
  (a * c <=? a)%float = true /\ (a * c <=? 0)%float = true.
Proof.
  intros Hc Hone Ha.
  pose proof (Prim2SF_valid c) as Vc.
  destruct Hc as (mc & ec & Hc & _).
  rewrite leb_zero_nonpos in *.
  rewrite !FloatAxioms.leb_spec, ?FloatAxioms.mul_spec, ?prim_one in *.
  rewrite Hc in *. split.
  - apply SFmul_ge_one_neg; try done. apply Prim2SF_valid.
  - rewrite <- (SFopp_involutive (Prim2SF a)) in *.
    rewrite SFmul_opp, sf_nonpos_opp in *. by apply SFmul_nonneg.
Qed.

End float_unit.

Lemma path_boost_ge_one (path : option (list string)) :
  (1 <=? path_boost path)%float = true.
Proof. eapply finite_between_ge_one, path_boost_finite. Qed.

Lemma level_boost_ge_one (d : doc) : (1 <=? level_boost d)%float = true.
Proof. eapply finite_between_ge_one, level_boost_finite. Qed.

Lemma topic_boost_ge_one (topics : list string) (d : doc) :
  (1 <=? topic_boost topics d)%float = true.
Proof. eapply finite_between_ge_one, topic_boost_finite. Qed.

(** X7: each of the three boosts is 1.0 or more, so the composite score of a
    node is never nearer to zero than its base similarity: it is at least
    the similarity when that is zero or more, and at most the similarity
    when that is zero or less; the sign is kept. *)
Theorem boosts_move_score_away_from_zero (collection : list doc)
    (node_id : string) (d : doc) (e query_embedding : list float)
    (topics : list string) (path : option (list string)) :
  _get_document_by_id collection node_id = Some d →
  embedding d = Some e →
  let similarity := _cosine_similarity query_embedding e in
  let score :=
    _get_node_relevance_score collection node_id query_embedding topics path in
  ((0 <=? similarity)%float = true →
   (similarity <=? score)%float = true ∧ (0 <=? score)%float = true) ∧
  ((similarity <=? 0)%float = true →
   (score <=? similarity)%float = true ∧ (score <=? 0)%float = true).
Proof.
  intros Hd He similarity score. subst score.
  unfold _get_node_relevance_score. rewrite Hd, He. cbv zeta.
  fold similarity. generalize similarity. clear similarity. intros s.
  pose proof (path_boost_finite path) as Hp.
  pose proof (topic_boost_finite topics d) as Ht.
  pose proof (level_boost_finite d) as Hl.
  pose proof (path_boost_ge_one path) as Hp1.
  pose proof (topic_boost_ge_one topics d) as Ht1.
  pose proof (level_boost_ge_one d) as Hl1.
  split; intros Hs.
  - destruct (mul_boost_nonneg _ _ s _ Hp Hp1 Hs) as [H1 H1'].
    destruct (mul_boost_nonneg _ _ _ _ Ht Ht1 H1') as [H2 H2'].
    destruct (mul_boost_nonneg _ _ _ _ Hl Hl1 H2') as [H3 H3'].
    split; [|done]. eauto using leb_trans.
  - destruct (mul_boost_nonpos _ _ s _ Hp Hp1 Hs) as [H1 H1'].
    destruct (mul_boost_nonpos _ _ _ _ Ht Ht1 H1') as [H2 H2'].
    destruct (mul_boost_nonpos _ _ _ _ Hl Hl1 H2') as [H3 H3'].
    split; [|done]. eauto using leb_trans.
Qed.

Lemma boosts_move_score_away_from_zero_witness :
  let similarity :=
    _cosine_similarity [2.0%float; 1.0%float] [1.0%float; 2.0%float] in
  let score :=
    _get_node_relevance_score [slope_node] "n1" [2.0%float; 1.0%float] []
      (Some ["seed"]) in
  ((0 <=? similarity)%float = true →
   (similarity <=? score)%float = true ∧ (0 <=? score)%float = true) ∧
  ((similarity <=? 0)%float = true →
   (score <=? similarity)%float = true ∧ (score <=? 0)%float = true).
Proof.
  apply (boosts_move_score_away_from_zero [slope_node] "n1" slope_node
           [1.0%float; 2.0%float]); reflexivity.
Defined.

(** ** The cosine similarity is symmetric *)

Lemma mul_comm (x y : float) : (x * y = y * x)%float.
Proof.
  apply Prim2SF_inj. rewrite !FloatAxioms.mul_spec. apply SFmul_comm.
Qed.

Lemma dot_product_comm (vec1 vec2 : list float) :
  dot_product vec1 vec2 = dot_product vec2 vec1.
Proof.
  unfold dot_product. generalize 0%float as acc. revert vec2.
  induction vec1 as [|a vec1 IH]; intros [|b vec2] acc; simpl; try done.
  rewrite (mul_comm a b). apply IH.
Qed.

Lemma dot_product_longer (v w u : list float) :
  length v = length u → dot_product (v ++ w) u = dot_product v u.
Proof.
  unfold dot_product. generalize 0%float as acc. revert u.
  induction v as [|a v IH]; intros [|b u] acc Hlen; simpl in *; try done.
  - by destruct w.
  - apply IH. lia.
Qed.

(** X8: the cosine similarity of two vectors does not depend on their order,
    bit for bit.  Vectors of different lengths raise no error: the
    components of the longer one beyond the length of the shorter do not
    enter the dot product, though they enter its norm. *)
Theorem cosine_similarity_symmetric (vec1 vec2 : list float) :
  _cosine_similarity vec1 vec2 = _cosine_similarity vec2 vec1 ∧
  ∀ extra,
    length vec1 = length vec2 →
    _cosine_similarity (vec1 ++ extra) vec2
    = (let norms := (PrimFloat.sqrt (sum_squares (vec1 ++ extra))
                     * PrimFloat.sqrt (sum_squares vec2))%float in
       if (0 <? norms)%float then (dot_product vec1 vec2 / norms)%float
       else 0%float).
Proof.
  split.
  - unfold _cosine_similarity. cbv zeta.
    by rewrite (dot_product_comm vec1 vec2),
      (mul_comm (PrimFloat.sqrt (sum_squares vec1))).
  - intros extra Hlen. unfold _cosine_similarity. cbv zeta.
    by rewrite dot_product_longer.
Qed.

(** ** The topics of a score *)

Lemma filter_fmap_length {A B} (f : B → bool) (g : A → B) (l : list A) :
  length (List.filter (λ x, f (g x)) l) = length (List.filter f (g <$> l)).
Proof.
  induction l as [|x l IH]; [done|]. cbn. destruct (f (g x)); cbn; by rewrite IH.
Qed.

Lemma filter_length_perm {A} (f : A → bool) (l l' : list A) :
  l ≡ₚ l' → length (List.filter f l) = length (List.filter f l').
Proof.
  induction 1 as [|x l l' _ IH|x y l|l l' l'' _ IH1 _ IH2]; cbn.
  - done.
  - destruct (f x); cbn; by rewrite IH.
  - destruct (f x), (f y); reflexivity.
  - by rewrite IH1.
Qed.

(** X9: the score reads the topics only through their lower-case forms, and
    counts how many of them occur in the header and text of the node: two
    lists of topics that are the same up to order and letter case give the
    same score. *)
Theorem score_ignores_topic_order_and_case (collection : list doc)
    (node_id : string) (query_embedding : list float)
    (topics topics' : list string) (path : option (list string)) :
  py_lower <$> topics ≡ₚ py_lower <$> topics' →
  _get_node_relevance_score collection node_id query_embedding topics path
  = _get_node_relevance_score collection node_id query_embedding topics' path.
Proof.
  intros Hperm. unfold _get_node_relevance_score.
  destruct (_get_document_by_id collection node_id) as [d|]; [|done].
  destruct (embedding d) as [e|]; [|done]. cbv zeta.
  assert (Hm : topic_matches topics d = topic_matches topics' d).
  { unfold topic_matches. cbv zeta.
    set (hay := py_lower _).
    rewrite (filter_fmap_length (λ t, py_in t hay) py_lower topics).
    rewrite (filter_fmap_length (λ t, py_in t hay) py_lower topics').
    by apply filter_length_perm. }
  unfold topic_boost. by rewrite Hm.
Qed.

Lemma score_ignores_topic_order_and_case_witness :
  _get_node_relevance_score [unit_node] "n1" [1.0%float]
    ["Install"; "driver"] (Some ["seed"])
  = _get_node_relevance_score [unit_node] "n1" [1.0%float]
      ["DRIVER"; "install"] (Some ["seed"]).
Proof.
  apply (score_ignores_topic_order_and_case [unit_node] "n1" [1.0%float]
           ["Install"; "driver"] ["DRIVER"; "install"]).
  apply Permutation_swap.
Defined.

(** ** The result of a search is ranked and bounded *)

Section float_numbers.
Local Open Scope Z_scope.

Lemma is_number_spec (x : float) : is_number x <-> Prim2SF x <> S754_nan.
Proof.
  unfold is_number. rewrite FloatAxioms.eqb_spec. unfold SFeqb, SFcompare.
  destruct (Prim2SF x) as [[]|[]| |[] m e]; try (split; [done|reflexivity]).
  - split; [done|]. intros H. by destruct H.
  - rewrite Z.compare_refl.
    change (Pos.compare_cont Eq m m) with (m ?= m)%positive.
    by rewrite Pos.compare_refl.
  - rewrite Z.compare_refl.
    change (Pos.compare_cont Eq m m) with (m ?= m)%positive.
    by rewrite Pos.compare_refl.
Qed.

Lemma mul_number (lo hi : Z) (a c : float) :
  is_number a -> finite_between lo hi c -> is_number (a * c).
Proof.
  rewrite !is_number_spec, FloatAxioms.mul_spec.
  intros Ha (mc & ec & -> & _).
  destruct (sf_sign_cases (Prim2SF a)) as [Hn|[Hn|[Hn _]]]; [done| |].
  - pose proof (SFmul_nonneg _ mc ec Hn) as H.
    unfold SF64mul. by destruct (SFmul _ _ _ _).
  - pose proof (SFmul_nonneg _ mc ec Hn) as H.
    rewrite SFmul_opp in H. unfold SF64mul.
    by destruct (SFmul _ _ _ _).
Qed.

End float_numbers.

Lemma find_id_Some (collection : list doc) (k : string) (d : doc) :
  _get_document_by_id collection k = Some d → d ∈ collection ∧ _id d = k.
Proof.
  unfold _get_document_by_id. intros [Hd Hk]%find_some.
  apply bool_decide_eq_true_1 in Hk. split; [|done].
  by apply list_elem_of_In.
Qed.

Lemma relevance_score_number (collection : list doc) (node_id : string)
    (query_embedding : list float) (topics : list string)
    (path : option (list string)) :
  (∀ d e, d ∈ collection → embedding d = Some e →
          is_number (_cosine_similarity query_embedding e)) →
  is_number
    (_get_node_relevance_score collection node_id query_embedding topics path).
Proof.
  intros Hnum. unfold _get_node_relevance_score.
  destruct (_get_document_by_id collection node_id) as [d|] eqn:Hd; [|done].
  destruct (embedding d) as [e|] eqn:He; [|done]. cbv zeta.
  apply find_id_Some in Hd as [Hd _].
  eapply mul_number; [|apply level_boost_finite].
  eapply mul_number; [|apply topic_boost_finite].
  eapply mul_number; [|apply path_boost_finite].
  by eapply Hnum.
Qed.

Lemma retrieve_documents_scores (collection : list doc)
    (ranked : list (string * float)) :
  snd <$> retrieve_documents collection ranked `sublist_of` snd <$> ranked.
Proof.
  unfold retrieve_documents.
  induction ranked as [|[id s] l IH]; [done|]. cbn.
  destruct (_get_document_by_id collection id); cbn;
    [by apply sublist_skip | by apply sublist_cons].
Qed.

Lemma StronglySorted_sublist {A} (R : relation A) (l l' : list A) :
  l `sublist_of` l' → StronglySorted R l' → StronglySorted R l.
Proof.
  induction 1 as [|x l l' Hl IH|x l l' Hl IH]; intros Hs.
  - done.
  - apply StronglySorted_inv in Hs as [Hs Hx].
    constructor; [by apply IH|].
    apply Forall_forall. intros y Hy. rewrite Forall_forall in Hx.
    apply Hx. by eapply elem_of_sublist.
  - apply StronglySorted_inv in Hs as [Hs _]. by apply IH.
Qed.

Lemma StronglySorted_fmap_key {A} (key : A → float) (l : list A) :
  StronglySorted (ranked_before key) l →
  StronglySorted (ranked_before id) (key <$> l).
Proof.
  induction 1 as [|x l Hs IH Hx]; cbn; constructor; [done|].
  by apply Forall_fmap.
Qed.

(** X10: when the embedding of the query is obtained and its similarity to every
    stored embedding is a number, the scores of the result are ranked best
    first; and over a corpus that has an embedding, at most
    [n_total_results] documents are returned. *)
Theorem search_results_ranked (svc : services) (collection : list doc)
    (query : string) (query_embedding : list float)
    (n_seed_results n_total_results max_traversal_depth : Z) :
  embeddings_create svc query = Returned query_embedding →
  (∀ d e, d ∈ collection → embedding d = Some e →
          is_number (_cosine_similarity query_embedding e)) →
  (0 ≤ n_total_results)%Z →
  let r := search svc collection query n_seed_results n_total_results
             max_traversal_depth in
  StronglySorted (ranked_before id) (scores r) ∧
  (find_with_embedding collection ≠ [] →
   length (documents r) ≤ Z.to_nat n_total_results).
Proof.
  intros Hq Hnum Hn r. subst r. unfold search, _compute_embedding.
  rewrite Hq. cbv zeta.
  destruct (find_with_embedding collection) as [|d0 l] eqn:Hall.
  - split; [by repeat constructor | done].
  - cbn [scores documents].
    set (final := sort_desc snd _).
    assert (Hsorted : StronglySorted (ranked_before snd) final).
    { apply sort_desc_sorted. apply Forall_forall.
      intros [id s] (id' & [= -> ->] & _)%list_elem_of_fmap. simpl.
      by apply relevance_score_number. }
    assert (Htop : StronglySorted (ranked_before snd)
                     (py_take n_total_results final)).
    { unfold py_take. rewrite (proj2 (Z.leb_le _ _) Hn).
      rewrite <- (take_drop (Z.to_nat n_total_results) final) in Hsorted.
      by apply StronglySorted_app in Hsorted as (_ & ? & _). }
    split.
    + eapply StronglySorted_sublist; [apply retrieve_documents_scores|].
      by apply StronglySorted_fmap_key.
    + intros _. rewrite length_fmap.
      etrans; [apply length_omap_le|].
      unfold py_take. rewrite (proj2 (Z.leb_le _ _) Hn).
      rewrite length_take. lia.
Qed.

Lemma search_results_ranked_witness :
  let r := search services_up family "install the driver" 5 15 3 in
  StronglySorted (ranked_before id) (scores r) ∧
  (find_with_embedding family ≠ [] →
   length (documents r) ≤ Z.to_nat 15).
Proof.
  apply (search_results_ranked services_up family "install the driver"
           [1.0%float; 0.0%float] 5 15 3); [reflexivity| |lia].
  intros d e Hd He. unfold family in Hd.
  repeat (apply elem_of_cons in Hd as [->|Hd]);
    [..|by apply elem_of_nil in Hd];
    try discriminate He; injection He as <-; reflexivity.
Defined.

(** ** The graph of the chunks *)

Section chunk_graph.
Import Chunker.

Lemma save_chunk_lookup (st : loop_state) (i : nat) (c : chunk) :
  save_chunk st !! i = Some c →
  chunks st !! i = Some c ∨
  i = length (chunks st) ∧
  ∃ c0, current_chunk st = Some c0 ∧
        Chunker.children c = Chunker.children c0 ∧
        Chunker.parent_chunk_id c = Chunker.parent_chunk_id c0.
Proof.
  unfold save_chunk.
  destruct (current_chunk st) as [c0|]; [|by left].
  destruct (chunk_lines st); [by left|].
  intros [H|[Hi H]]%lookup_app_Some; [by left|]. right.
  destruct (i - length (chunks st)) as [|k] eqn:Hk; [|done].
  injection H as <-. split; [lia|]. by exists c0.
Qed.

Lemma save_chunk_length (st : loop_state) :
  length (chunks st) ≤ length (save_chunk st).
Proof.
  unfold save_chunk. destruct (current_chunk st); [|done].
  destruct (chunk_lines st); [done|]. rewrite length_app. lia.
Qed.

Lemma find_parent_before (hs : list (option header_slot)) (n : nat)
    (page_id : string) (i : nat) (p t : string) :
  find_parent hs n page_id i = Some (p, t) →
  ∃ j, j < n ∧ p = chunk_id page_id j.
Proof.
  induction i as [|i IH]; [done|]. simpl.
  destruct (hs !! i) as [[slot|]|]; try done.
  case_decide; [|done]. intros [= <- <-]. eauto.
Qed.

Lemma links_inv_save (page_id : string) (st : loop_state) (i : nat)
    (c : chunk) :
  links_inv page_id st → save_chunk st !! i = Some c →
  Chunker.children c = [] ∧ parent_before page_id i c.
Proof.
  intros [Hcs Hcur] [H|(-> & c0 & Hc0 & Hch & Hp)]%save_chunk_lookup.
  - by apply Hcs.
  - destruct (Hcur _ Hc0) as [Hch0 Hp0]. split; [congruence|].
    unfold parent_before. rewrite Hp. exact Hp0.
Qed.

Lemma process_element_links (page_id : string) (st : loop_state)
    (el : element) :
  links_inv page_id st → links_inv page_id (process_element page_id st el).
Proof.
  intros Hinv. destruct el as [tag raw|t].
  - split; cbn [process_element chunks current_chunk].
    + intros i c. by apply links_inv_save.
    + intros c [= <-]. cbn. split; [done|].
      intros p Hp.
      destruct (find_parent _ _ _ _) as [[p' t']|] eqn:Hf; [|done].
      injection Hp as <-. by eapply find_parent_before.
  - cbn [process_element].
    destruct (current_chunk st) as [c|] eqn:Hc; [|done].
    destruct (str_truthy (py_strip t)); [|done].
    destruct Hinv as [Hcs Hcur]. split; cbn; [done|].
    intros c' Hc'. apply Hcur. by rewrite Hc.
Qed.

Lemma first_pass_links (page_id : string) (els : list element) :
  ∀ st, links_inv page_id st →
        links_inv page_id (foldl (process_element page_id) st els).
Proof.
  induction els as [|el els IH]; intros st Hinv; [done|].
  cbn [foldl]. by apply IH, process_element_links.
Qed.

Lemma add_child_parent (id : string) (c : chunk) :
  Chunker.parent_chunk_id (add_child id c) = Chunker.parent_chunk_id c.
Proof. done. Qed.

(** The second pass, after the chunks at the positions below [k]. *)
Lemma fill_prefix (page_id : string) (cs : list chunk) (k : nat) :
  (∀ i c, cs !! i = Some c → parent_before page_id i c) →
  k ≤ length cs →
  let cs' := foldl (fill_child page_id (build_chunk_map page_id (length cs)))
               cs (seq 0 k) in
  length cs' = length cs ∧
  (∀ i, cs' !! i ≫= Chunker.parent_chunk_id
        = cs !! i ≫= Chunker.parent_chunk_id) ∧
  (∀ j c0, cs !! j = Some c0 →
     ∃ c, cs' !! j = Some c ∧
          Chunker.children c
          = Chunker.children c0
            ++ (chunk_id page_id
                  <$> List.filter
                        (λ i, bool_decide (cs !! i ≫= Chunker.parent_chunk_id
                                           = Some (chunk_id page_id j)))
                        (seq 0 k))).
Proof.
  intros Hpar. induction k as [|k IH]; intros Hk cs'; subst cs'.
  - simpl. split; [done|]. split; [done|].
    intros j c0 Hj. exists c0. by rewrite app_nil_r.
  - destruct IH as (Hlen & Hsame & Hch); [lia|].
    rewrite seq_S, foldl_app. cbn [foldl]. simpl.
    set (cs' := foldl _ cs (seq 0 k)) in *.
    assert (Hfilter : ∀ j,
      List.filter (λ i, bool_decide (cs !! i ≫= Chunker.parent_chunk_id
                                     = Some (chunk_id page_id j)))
        (seq 0 k ++ [k])
      = List.filter (λ i, bool_decide (cs !! i ≫= Chunker.parent_chunk_id
                                       = Some (chunk_id page_id j)))
          (seq 0 k)
        ++ (if bool_decide (cs !! k ≫= Chunker.parent_chunk_id
                            = Some (chunk_id page_id j))
            then [k] else [])).
    { intros j. rewrite List.filter_app. simpl. by destruct (bool_decide _). }
    destruct (lookup_lt_is_Some_2 cs k) as [ck Hck]; [lia|].
    destruct (Hch k ck Hck) as (ck' & Hck' & _).
    pose proof (Hsame k) as Hpk. rewrite Hck, Hck' in Hpk. simpl in Hpk.
    unfold fill_child. rewrite Hck'. rewrite Hpk.
    destruct (Chunker.parent_chunk_id ck) as [p|] eqn:Hp.
    + destruct (Hpar k ck Hck p Hp) as (j0 & Hj0 & ->).
      rewrite chunk_id_truthy, build_chunk_map_lookup by lia.
      split; [by rewrite length_alter|]. split.
      * intros i. destruct (decide (i = j0)) as [->|Hne].
        -- rewrite list_lookup_alter_eq. rewrite <- Hsame.
           by destruct (cs' !! j0).
        -- by rewrite list_lookup_alter_ne.
      * intros j c0 Hj. destruct (Hch j c0 Hj) as (c & Hc & Hcc).
        rewrite Hfilter, Hck. simpl. rewrite Hp.
        destruct (decide (j = j0)) as [->|Hne].
        -- exists (add_child (chunk_id page_id k) c).
           rewrite list_lookup_alter_eq, Hc. split; [done|]. simpl.
           rewrite bool_decide_eq_true_2 by done.
           by rewrite Hcc, fmap_app, app_assoc.
        -- exists c. rewrite list_lookup_alter_ne by done. split; [done|].
           rewrite bool_decide_eq_false_2, app_nil_r; [done|].
           intros [= H%chunk_id_inj]. done.
    + split; [done|]. split; [done|].
      intros j c0 Hj. destruct (Hch j c0 Hj) as (c & Hc & Hcc).
      exists c. split; [done|].
      rewrite Hfilter, Hck. simpl. rewrite Hp.
      by rewrite bool_decide_eq_false_2, app_nil_r.
Qed.

End chunk_graph.

Lemma chunk_content_links (all_elements : list Chunker.element)
    (page_id : string) (i : nat) (c : Chunker.chunk) :
  let cs := Chunker.chunk_content all_elements page_id in
  cs !! i = Some c →
  parent_before page_id i c ∧
  Chunker.children c = Chunker.chunk_id page_id <$> child_indexes page_id cs i.
Proof.
  intros cs Hc. subst cs. unfold Chunker.chunk_content in *. cbv zeta in *.
  set (st := foldl _ _ _) in *.
  assert (Hinv : links_inv page_id st).
  { apply first_pass_links. split; [|done]. intros k c0 Hk.
    cbn in Hk. by rewrite lookup_nil in Hk. }
  set (cs0 := Chunker.save_chunk st) in *.
  assert (H0 : ∀ k c0, cs0 !! k = Some c0 →
                       Chunker.children c0 = [] ∧ parent_before page_id k c0)
    by (intros k c0; by apply links_inv_save).
  destruct (fill_prefix page_id cs0 (length cs0)) as (Hlen & Hsame & Hch);
    [intros k c0 Hk; by apply H0 | done |].
  fold (Chunker.fill_children page_id cs0) in *.
  assert (Hi : i < length cs0).
  { rewrite <- Hlen. by eapply lookup_lt_Some. }
  destruct (lookup_lt_is_Some_2 cs0 i Hi) as [c0 Hc0].
  destruct (Hch i c0 Hc0) as (c' & Hc' & Hcc).
  rewrite Hc in Hc'. injection Hc' as <-.
  destruct (H0 i c0 Hc0) as [Hnil Hp0]. split.
  - pose proof (Hsame i) as Hpi. rewrite Hc, Hc0 in Hpi. simpl in Hpi.
    unfold parent_before. by rewrite Hpi.
  - rewrite Hcc, Hnil. simpl. unfold child_indexes. rewrite Hlen.
    f_equal. apply List.filter_ext. intros k. by rewrite Hsame.
Qed.

(** X11: the chunks of a page form a forest in the order of the page: the parent
    of a chunk, when it has one, is a chunk that comes before it, and the
    children of a chunk are, in order, the ids of the chunks that name it
    as their parent. *)
Theorem chunk_links_mirror (all_elements : list Chunker.element)
    (page_id : string) (i : nat) (c : Chunker.chunk) :
  let cs := Chunker.chunk_content all_elements page_id in
  cs !! i = Some c →
  parent_before page_id i c ∧
  Chunker.children c = Chunker.chunk_id page_id <$> child_indexes page_id cs i.
Proof. apply chunk_content_links. Qed.

Lemma chunk_links_mirror_witness :
  let cs := Chunker.chunk_content
              [Chunker.Header Chunker.h1 "A"; Chunker.Block "a";
               Chunker.Header Chunker.h2 "B"; Chunker.Block "b"] "page" in
  ∃ c, cs !! 1 = Some c ∧
       parent_before "page" 1 c ∧
       Chunker.children c
       = Chunker.chunk_id "page" <$> child_indexes "page" cs 1.
Proof.
  eexists. split; [vm_compute; reflexivity|].
  apply (chunk_links_mirror
           [Chunker.Header Chunker.h1 "A"; Chunker.Block "a";
            Chunker.Header Chunker.h2 "B"; Chunker.Block "b"] "page" 1).
  vm_compute. reflexivity.
Defined.

(** ** The shape of a chunk *)

Section chunk_shape.
Import Chunker.

Lemma fill_children_static (page_id : string) (cs : list chunk) :
  chunk_static <$> fill_children page_id cs = chunk_static <$> cs.
Proof.
  unfold fill_children.
  generalize (build_chunk_map page_id (length cs)) as m.
  generalize (seq 0 (length cs)) as idx. intros idx m.
  revert cs. induction idx as [|i idx IH]; intros cs; [done|].
  simpl. rewrite IH. unfold fill_child.
  destruct (cs !! i) as [c|]; [|done].
  destruct (Chunker.parent_chunk_id c) as [p|]; [|done].
  destruct (str_truthy p); [|done].
  destruct (m !! p) as [j|]; [|done].
  apply list_eq. intros k. rewrite !list_lookup_fmap.
  destruct (decide (k = j)) as [->|Hne].
  - rewrite list_lookup_alter_eq. by destruct (cs !! j).
  - by rewrite list_lookup_alter_ne.
Qed.

Lemma header_path_levels (page_id : string) (l : list (option header_slot))
    (off : nat) :
  let r := omap id
             (imap (λ i o,
                (λ slot, {| pe_level := i + off + 1; pe_text := text slot;
                            pe_chunk_id :=
                              chunk_id page_id (chunk_index slot) |}) <$> o)
                l) in
  StronglySorted lt (pe_level <$> r) ∧
  Forall (λ x, off < x ≤ off + length l) (pe_level <$> r).
Proof.
  revert off. induction l as [|o l IH]; intros off r; subst r.
  - split; constructor.
  - rewrite imap_cons.
    rewrite (imap_ext _ (λ i o,
               (λ slot, {| pe_level := i + S off + 1; pe_text := text slot;
                           pe_chunk_id :=
                             chunk_id page_id (chunk_index slot) |}) <$> o))
      by (intros i x _; simpl; destruct x; simpl; [do 2 f_equal; lia|done]).
    destruct (IH (S off)) as [Hs Hb].
    assert (Hb' : Forall (λ x, off < x ≤ off + length (o :: l))
                    (pe_level <$> omap id
                       (imap (λ i o,
                          (λ slot, {| pe_level := i + S off + 1;
                                      pe_text := text slot;
                                      pe_chunk_id :=
                                        chunk_id page_id (chunk_index slot) |})
                            <$> o) l))).
    { eapply Forall_impl; [exact Hb|]. simpl. intros x ?. lia. }
    destruct o as [slot|]; cbn; [|done].
    split.
    + constructor; [done|]. eapply Forall_impl; [exact Hb|].
      simpl. intros x ?. lia.
    + constructor; [simpl; lia | done].
Qed.

Lemma build_header_path_levels (hs : list (option header_slot))
    (page_id : string) (header_level : nat) :
  StronglySorted lt (pe_level <$> build_header_path hs page_id header_level) ∧
  Forall (λ x, 1 ≤ x < header_level + 1)
    (pe_level <$> build_header_path hs page_id header_level).
Proof.
  unfold build_header_path.
  rewrite (imap_ext _ (λ i o,
             (λ slot, {| pe_level := i + 0 + 1; pe_text := text slot;
                         pe_chunk_id :=
                           chunk_id page_id (chunk_index slot) |}) <$> o))
    by (intros i x _; simpl; destruct x; simpl; [do 2 f_equal; lia|done]).
  destruct (header_path_levels page_id (take header_level hs) 0) as [Hs Hb].
  split; [done|]. eapply Forall_impl; [exact Hb|].
  simpl. intros x. rewrite length_take. lia.
Qed.

Lemma py_join_truthy (sep t : string) (l : list string) :
  t ≠ "" → py_join sep (t :: l) ≠ "".
Proof.
  intros Ht. simpl. destruct l as [|u l]; [done|].
  destruct t; [done|]. done.
Qed.

Lemma py_strip_truthy (t : string) :
  str_truthy (py_strip t) = true → t ≠ "".
Proof. by intros H ->. Qed.

Lemma tag_index_bound (tag : header_tag) : tag_index tag < 6.
Proof. destruct tag; simpl; lia. Qed.

Lemma shape_inv_save (st : loop_state) :
  shape_inv st →
  Forall (λ c, well_shaped c ∧ well_filled c) (save_chunk st).
Proof.
  intros (Hcs & Hcur & Hlines). unfold save_chunk.
  destruct (current_chunk st) as [c|]; [|done].
  destruct (chunk_lines st) as [|t l] eqn:Hl; [done|].
  apply Forall_app. split; [done|]. apply Forall_singleton.
  apply Forall_cons in Hlines as [Ht _].
  split; [exact (Hcur c eq_refl)|]. split; [|done]. cbn.
  by apply py_join_truthy.
Qed.

Lemma process_element_shape (page_id : string) (st : loop_state)
    (el : element) :
  shape_inv st → shape_inv (process_element page_id st el).
Proof.
  intros Hinv. destruct el as [tag raw|t].
  - split; [|split]; cbn [process_element chunks current_chunk chunk_lines].
    + by apply shape_inv_save.
    + intros c [= <-]. pose proof (tag_index_bound tag).
      destruct (build_header_path_levels
                  (foldl (λ hs i, <[i:=None]> hs)
                     (<[tag_index tag :=
                          Some {| text := py_strip raw;
                                  chunk_index := length (save_chunk st) |}]>
                        (current_headers st))
                     (seq (S (tag_index tag)) (6 - S (tag_index tag))))
                  page_id (tag_index tag)) as [Hs Hb].
      repeat split; cbn; try lia; try done.
      * by destruct (find_parent _ _ _ _).
      * by destruct (find_parent _ _ _ _).
    + constructor.
  - cbn [process_element].
    destruct (current_chunk st) as [c|] eqn:Hc; [|done].
    destruct (str_truthy (py_strip t)) eqn:Ht; [|done].
    destruct Hinv as (Hcs & Hcur & Hlines). split; [|split]; cbn; [done| |].
    + intros c' Hc'. apply Hcur. by rewrite Hc.
    + apply Forall_app. split; [done|]. apply Forall_singleton.
      by apply py_strip_truthy.
Qed.

Lemma first_pass_shape (page_id : string) (els : list element) :
  ∀ st, shape_inv st → shape_inv (foldl (process_element page_id) st els).
Proof.
  induction els as [|el els IH]; intros st Hinv; [done|].
  cbn [foldl]. by apply IH, process_element_shape.
Qed.

End chunk_shape.

(** X12: every chunk has a level from 1 to 6 and the depth one below it, a
    parent header exactly when it has a parent, a header path whose levels
    rise and stay below its own, a text that is not empty, and as
    [full_context] its header, a rule of ["="] as long as the header, and
    the text, on three lines. *)
Theorem chunk_shape (all_elements : list Chunker.element) (page_id : string)
    (c : Chunker.chunk) :
  c ∈ Chunker.chunk_content all_elements page_id →
  well_shaped c ∧ well_filled c.
Proof.
  intros Hc. unfold Chunker.chunk_content in Hc. cbv zeta in Hc.
  set (st := foldl _ _ _) in *.
  assert (Hinv : shape_inv st).
  { apply first_pass_shape. split; [constructor|]. split; [done|constructor]. }
  apply shape_inv_save in Hinv.
  apply list_elem_of_lookup in Hc as [i Hi].
  assert (Hst : chunk_static <$> Chunker.save_chunk st !! i
                = Some (chunk_static c)).
  { rewrite <- list_lookup_fmap, <- (fill_children_static page_id),
      list_lookup_fmap, Hi. done. }
  destruct (Chunker.save_chunk st !! i) as [c0|] eqn:H0; [|done].
  injection Hst as Hh Hl Hp Hph Hhp Hd Hct Hfc.
  rewrite Forall_forall in Hinv.
  destruct (Hinv c0) as [Hshape Hfill]; [by eapply list_elem_of_lookup_2|].
  unfold well_shaped, well_filled in *.
  by rewrite <- Hh, <- Hl, <- Hp, <- Hph, <- Hhp, <- Hd, <- Hct, <- Hfc.
Qed.

Lemma chunk_shape_witness :
  ∃ c,
    c ∈ Chunker.chunk_content
          [Chunker.Header Chunker.h1 "A"; Chunker.Block "a"] "page" ∧
    well_shaped c ∧ well_filled c.
Proof.
  eexists. split; [vm_compute; apply list_elem_of_here|].
  apply (chunk_shape [Chunker.Header Chunker.h1 "A"; Chunker.Block "a"]
           "page").
  vm_compute. apply list_elem_of_here.
Defined.

(** ** The parent of a chunk is the header that encloses it *)

Section chunk_stack.
Import Chunker.

Lemma last_at_most_snoc (K x : nat) (l : list nat) :
  last_at_most K (l ++ [x])
  = if bool_decide (x ≤ K) then Some (length l) else last_at_most K l.
Proof.
  induction l as [|y l IH]; simpl.
  - by destruct (bool_decide (x ≤ K)).
  - rewrite IH. destruct (bool_decide (x ≤ K)); [done|].
    by destruct (last_at_most K l).
Qed.

Lemma last_at_most_None (K : nat) (l : list nat) :
  last_at_most K l = None → Forall (λ y, K < y) l.
Proof.
  induction l as [|x l IH]; simpl; [constructor|].
  destruct (last_at_most K l); [done|].
  case_bool_decide; [done|]. intros _. constructor; [lia|by apply IH].
Qed.

Lemma last_at_most_Some (K : nat) (l : list nat) (j : nat) :
  last_at_most K l = Some j →
  ∃ x, l !! j = Some x ∧ x ≤ K ∧
       ∀ j' y, j < j' → l !! j' = Some y → K < y.
Proof.
  revert j. induction l as [|x l IH]; intros j; simpl; [done|].
  destruct (last_at_most K l) as [j0|] eqn:Hl.
  - intros [= <-]. destruct (IH j0 eq_refl) as (y & Hy & Hle & Hafter).
    exists y. split; [done|]. split; [done|].
    intros [|j'] z Hj' Hz; [lia|]. simpl in Hz. eapply Hafter; [|done]. lia.
  - case_bool_decide as Hx; [|done]. intros [= <-].
    exists x. split; [done|]. split; [done|].
    intros [|j'] z Hj' Hz; [lia|]. simpl in Hz.
    apply last_at_most_None in Hl. rewrite Forall_forall in Hl.
    apply Hl. by eapply list_elem_of_lookup_2.
Qed.

Lemma last_at_most_intro (K : nat) (l : list nat) (j x : nat) :
  l !! j = Some x → x ≤ K →
  (∀ j' y, j < j' → l !! j' = Some y → K < y) →
  last_at_most K l = Some j.
Proof.
  intros Hj Hx Hafter.
  destruct (last_at_most K l) as [j0|] eqn:Hl.
  - destruct (last_at_most_Some K l j0 Hl) as (y & Hy & Hle & Hafter0).
    destruct (lt_eq_lt_dec j j0) as [[Hlt| ->]|Hgt]; [|done|].
    + specialize (Hafter j0 y Hlt Hy). lia.
    + specialize (Hafter0 j x Hgt Hj). lia.
  - apply last_at_most_None in Hl. rewrite Forall_forall in Hl.
    specialize (Hl x (list_elem_of_lookup_2 _ _ _ Hj)). lia.
Qed.

(** The last level at most [K + 1], when it is not [K + 1] itself, is the
    last level at most [K]. *)
Lemma last_at_most_pred (K : nat) (l : list nat) :
  match last_at_most (S K) l with
  | Some j => ∀ x, l !! j = Some x → x ≠ S K → last_at_most K l = Some j
  | None => last_at_most K l = None
  end.
Proof.
  destruct (last_at_most (S K) l) as [j|] eqn:Hl.
  - intros x Hx Hne.
    destruct (last_at_most_Some _ _ _ Hl) as (y & Hy & Hle & Hafter).
    assert (y = x) as -> by congruence.
    eapply last_at_most_intro; [done|lia|].
    intros j' z Hj' Hz. specialize (Hafter j' z Hj' Hz). lia.
  - apply last_at_most_None in Hl.
    destruct (last_at_most K l) as [j|] eqn:Hl'; [|done].
    destruct (last_at_most_Some _ _ _ Hl') as (y & Hy & Hle & _).
    rewrite Forall_forall in Hl.
    specialize (Hl y (list_elem_of_lookup_2 _ _ _ Hy)). lia.
Qed.

Lemma last_at_most_lt (K : nat) (l : list nat) (j : nat) :
  last_at_most K l = Some j → j < length l.
Proof.
  intros (x & Hx & _)%last_at_most_Some. by eapply lookup_lt_Some.
Qed.

(** The scan of [find_parent] over a stack that is as [slot_at] says. *)
Lemma find_parent_encloser (page_id : string) (hs : list skeleton)
    (stack : list (option header_slot)) (i : nat) :
  Forall (λ s, 1 ≤ sk_level s) hs →
  (∀ k, k < i → stack !! k = Some (slot_at hs k)) →
  find_parent stack (length hs) page_id i
  = match last_at_most i (sk_level <$> hs) with
    | Some j =>
        (λ s, (chunk_id page_id j, sk_header s)) <$> hs !! j
    | None => None
    end.
Proof.
  intros Hlev. induction i as [|i IH]; intros Hstack.
  - simpl. destruct (last_at_most 0 (sk_level <$> hs)) as [j|] eqn:Hl; [|done].
    destruct (last_at_most_Some _ _ _ Hl) as (x & Hx & Hle & _).
    apply list_lookup_fmap_Some in Hx as (s & -> & Hs).
    rewrite Forall_forall in Hlev.
    specialize (Hlev s (list_elem_of_lookup_2 _ _ _ Hs)). lia.
  - simpl. rewrite (Hstack i) by lia. unfold slot_at.
    replace (i + 1) with (S i) by lia.
    pose proof (last_at_most_pred i (sk_level <$> hs)) as Hpred.
    destruct (last_at_most (S i) (sk_level <$> hs)) as [j|] eqn:Hl.
    + pose proof (last_at_most_lt _ _ _ Hl) as Hj.
      rewrite length_fmap in Hj.
      destruct (lookup_lt_is_Some_2 hs j Hj) as [s Hs]. rewrite Hs.
      case_decide as Hlv.
      * simpl. by rewrite decide_True by done.
      * rewrite IH by (intros k Hk; apply Hstack; lia).
        rewrite (Hpred (sk_level s)); [by rewrite Hs| |done].
        by rewrite list_lookup_fmap, Hs.
    + rewrite IH by (intros k Hk; apply Hstack; lia). by rewrite Hpred.
Qed.

Lemma clear_lower_lookup (stack : list (option header_slot)) (h k : nat) :
  length stack = 6 → k < 6 →
  foldl (λ hs i, <[i := None]> hs) stack (seq (S h) (6 - S h)) !! k
  = if decide (h < k) then Some None else stack !! k.
Proof.
  intros Hlen Hk.
  assert (Hgen : ∀ (idx : list nat) (st0 : list (option header_slot)),
            length st0 = 6 →
            foldl (λ hs i, <[i := None]> hs) st0 idx !! k
            = if decide (k ∈ idx) then Some None else st0 !! k).
  { induction idx as [|i idx IH]; intros st0 Hl0; cbn [foldl].
    - destruct (decide (k ∈ [])) as [H|H]; [by apply elem_of_nil in H|done].
    - rewrite IH by by rewrite length_insert.
      destruct (decide (k ∈ idx)) as [Hin|Hnin],
               (decide (k ∈ i :: idx)) as [Hin'|Hnin']; try done.
      + destruct Hnin'. by right.
      + apply elem_of_cons in Hin' as [->|?]; [|done].
        apply list_lookup_insert_eq. lia.
      + apply list_lookup_insert_ne. intros ->. apply Hnin'. by left. }
  rewrite Hgen by done.
  destruct (decide (h < k)), (decide (k ∈ seq (S h) (6 - S h))) as [Hin|Hnin];
    try done.
  - destruct Hnin. apply elem_of_seq. lia.
  - apply elem_of_seq in Hin. lia.
Qed.

Lemma clear_lower_length (stack : list (option header_slot)) (idx : list nat) :
  length (foldl (λ hs i, <[i := None]> hs) stack idx) = length stack.
Proof.
  revert stack. induction idx as [|i idx IH]; intros stack; [done|].
  simpl. by rewrite IH, length_insert.
Qed.

(** When the open chunk has a text, saving it leaves the headers met so far
    as they are. *)
Lemma save_chunk_headers (st : loop_state) :
  (∀ c, current_chunk st = Some c → chunk_lines st ≠ []) →
  skeleton_of <$> save_chunk st = headers_so_far st.
Proof.
  intros Hlines. unfold save_chunk, headers_so_far.
  destruct (current_chunk st) as [c|]; [|by rewrite app_nil_r].
  destruct (chunk_lines st) as [|t l]; [by destruct (Hlines c)|].
  by rewrite !fmap_app.
Qed.

Lemma encloser_is_parent_app (page_id : string) (hs hs' : list skeleton)
    (i : nat) (s : skeleton) :
  i < length hs → encloser_is_parent page_id hs i s →
  encloser_is_parent page_id (hs ++ hs') i s.
Proof.
  intros Hi. unfold encloser_is_parent.
  rewrite take_app_le by lia.
  destruct (last_at_most _ _) as [j|] eqn:Hl; [|done].
  apply last_at_most_lt in Hl. rewrite length_fmap, length_take in Hl.
  by rewrite lookup_app_l by lia.
Qed.

Lemma process_header_stack (page_id : string) (st : loop_state)
    (tag : header_tag) (raw : string) :
  (∀ c, current_chunk st = Some c → chunk_lines st ≠ []) →
  stack_inv page_id st →
  stack_inv page_id (process_element page_id st (Header tag raw)).
Proof.
  intros Hlines (Hlen & Hstack & Hlev & Hpar).
  pose proof (save_chunk_headers st Hlines) as Hsave.
  pose proof (tag_index_bound tag) as Hh.
  set (h := tag_index tag) in *.
  set (hs := headers_so_far st) in *.
  assert (Hn : length (save_chunk st) = length hs)
    by (by rewrite <- Hsave, length_fmap).
  cbn [process_element]. fold h.
  set (stack2 := foldl _ _ _).
  set (parent := find_parent stack2 _ _ _).
  assert (Hlen1 : length (<[h := Some {| text := py_strip raw;
                                         chunk_index := length (save_chunk st) |}]>
                            (current_headers st)) = 6)
    by by rewrite length_insert.
  assert (Hstack2 : ∀ k, k < 6 →
            stack2 !! k
            = if decide (h < k) then Some None
              else if decide (k = h)
                   then Some (Some {| text := py_strip raw;
                                      chunk_index := length hs |})
                   else current_headers st !! k).
  { intros k Hk. subst stack2. rewrite clear_lower_lookup by done.
    destruct (decide (h < k)); [done|].
    destruct (decide (k = h)) as [->|Hne].
    - rewrite list_lookup_insert_eq by lia. by rewrite Hn.
    - by rewrite list_lookup_insert_ne. }
  assert (Hparent : parent
            = match last_at_most h (sk_level <$> hs) with
              | Some j => (λ s, (chunk_id page_id j, sk_header s)) <$> hs !! j
              | None => None
              end).
  { subst parent. rewrite Hn. apply find_parent_encloser; [done|].
    intros k Hk. rewrite Hstack2 by lia.
    rewrite decide_False by lia. rewrite decide_False by lia.
    apply Hstack. lia. }
  set (new := {| sk_header := py_strip raw; sk_level := h + 1;
                 sk_parent := fst <$> parent;
                 sk_parent_header := snd <$> parent |}).
  assert (Hhs' : headers_so_far
                   {| chunks := save_chunk st; current_headers := stack2;
                      current_chunk :=
                        Some {| Chunker.header := py_strip raw;
                                Chunker.level := h + 1;
                                Chunker.parent_chunk_id := fst <$> parent;
                                parent_header := snd <$> parent;
                                header_path :=
                                  build_header_path stack2 page_id h;
                                depth := h; Chunker.children := [];
                                Chunker.content := "";
                                Chunker.full_context := "" |};
                      chunk_lines := [] |}
                 = hs ++ [new]).
  { unfold headers_so_far. cbn. by rewrite fmap_app, Hsave. }
  unfold stack_inv. rewrite Hhs'.
  cbn [current_headers].
  split; [|split; [|split]].
  - subst stack2. by rewrite clear_lower_length.
  - intros k Hk. rewrite Hstack2 by done. f_equal.
    unfold slot_at. rewrite fmap_app.
    change (sk_level <$> [new]) with [h + 1].
    rewrite last_at_most_snoc, length_fmap.
    destruct (decide (h < k)) as [Hhk|Hhk].
    + rewrite bool_decide_eq_true_2 by lia.
      rewrite lookup_app_r, Nat.sub_diag by lia. cbn.
      by rewrite decide_False by lia.
    + destruct (decide (k = h)) as [->|Hne].
      * rewrite bool_decide_eq_true_2 by lia.
        rewrite lookup_app_r, Nat.sub_diag by lia. cbn.
        by rewrite decide_True by lia.
      * rewrite bool_decide_eq_false_2 by lia.
        rewrite (Hstack k Hk). f_equal. unfold slot_at.
        destruct (last_at_most (k + 1) (sk_level <$> hs)) as [j|] eqn:Hl;
          [|done].
        apply last_at_most_lt in Hl. rewrite length_fmap in Hl.
        by rewrite lookup_app_l by lia.
  - apply Forall_app. split; [done|]. apply Forall_singleton. cbn. lia.
  - intros i s [Hi|[Hi Hs]]%lookup_app_Some.
    + apply encloser_is_parent_app; [by eapply lookup_lt_Some|by apply Hpar].
    + destruct (i - length hs) as [|?] eqn:Hd; [|done].
      injection Hs as <-. assert (i = length hs) as -> by lia.
      unfold encloser_is_parent. cbn [sk_level new sk_parent sk_parent_header].
      rewrite take_app_length.
      replace (h + 1 - 1) with h by lia. rewrite Hparent.
      destruct (last_at_most h (sk_level <$> hs)) as [j|] eqn:Hl; [|done].
      pose proof (last_at_most_lt _ _ _ Hl) as Hj.
      rewrite length_fmap in Hj.
      destruct (lookup_lt_is_Some_2 hs j Hj) as [sj Hsj].
      rewrite lookup_app_l by lia. by rewrite Hsj.
Qed.

Lemma process_block_stack (page_id : string) (st : loop_state) (t : string) :
  stack_inv page_id st →
  stack_inv page_id (process_element page_id st (Block t)).
Proof.
  intros Hinv. cbn [process_element].
  destruct (current_chunk st) as [c|] eqn:Hc; [|done].
  destruct (str_truthy (py_strip t)); [|done].
  unfold stack_inv, headers_so_far in *. cbn. by rewrite Hc in Hinv.
Qed.

Lemma first_pass_stack (page_id : string) (els : list element) :
  ∀ st cur,
    open_matches st cur →
    Forall (λ s, has_body s = true) (sections_go cur els) →
    stack_inv page_id st →
    stack_inv page_id (foldl (process_element page_id) st els) ∧
    ∀ c, current_chunk (foldl (process_element page_id) st els) = Some c →
         chunk_lines (foldl (process_element page_id) st els) ≠ [].
Proof.
  induction els as [|el els IH]; intros st cur Hm Hbody Hinv.
  - simpl. split; [done|]. intros c Hc.
    unfold open_matches in Hm. rewrite Hc in Hm.
    destruct cur as [[[tag h] body]|]; [|done]. destruct Hm as (_ & _ & ->).
    simpl in Hbody. apply Forall_inv in Hbody.
    unfold has_body in Hbody. simpl in Hbody. by destruct body.
  - destruct el as [tag raw|t].
    + cbn [foldl].
      apply (IH _ (Some (tag, py_strip raw, []))).
      * simpl. done.
      * simpl in Hbody. destruct cur; [by apply Forall_cons in Hbody as [_ ?]|done].
      * apply process_header_stack; [|done].
        intros c Hc. unfold open_matches in Hm. rewrite Hc in Hm.
        destruct cur as [[[tag' h] body]|]; [|done].
        destruct Hm as (_ & _ & ->).
        simpl in Hbody. apply Forall_cons in Hbody as [Hb _].
        unfold has_body in Hb. simpl in Hb. by destruct body.
    + cbn [foldl]. unfold open_matches in Hm.
      destruct (current_chunk st) as [c|] eqn:Hc, cur as [[[tag h] body]|];
        try done; simpl in Hm.
      * destruct Hm as (Hh & Hl & Hb).
        destruct (str_truthy (py_strip t)) eqn:Ht.
        -- rewrite (process_block_kept page_id st c t Hc Ht).
           apply (IH _ (Some (tag, h, body ++ [t]))).
           ++ unfold open_matches. simpl. by rewrite Hc, Hb.
           ++ simpl in Hbody. by rewrite Ht in Hbody.
           ++ rewrite <- (process_block_kept page_id st c t Hc Ht).
              by apply process_block_stack.
        -- rewrite (process_block_blank page_id st t Ht).
           apply (IH _ (Some (tag, h, body))).
           ++ unfold open_matches. by rewrite Hc.
           ++ simpl in Hbody. by rewrite Ht in Hbody.
           ++ done.
      * rewrite (process_block_dropped page_id st t Hc).
        apply (IH _ None); [|done|done].
        unfold open_matches. by rewrite Hc.
Qed.

End chunk_stack.

(** X13: when every header of the page has a text under it, the parent of a chunk
    is the chunk of the header that encloses it: the last chunk before it
    whose level is above its own, with that chunk's header as
    [parent_header]; a chunk with no such chunk before it has no parent. *)
Theorem parent_is_enclosing_header (all_elements : list Chunker.element)
    (page_id : string) (i : nat) (c : Chunker.chunk) :
  Forall (λ s, Chunker.has_body s = true) (Chunker.sections all_elements) →
  let cs := Chunker.chunk_content all_elements page_id in
  cs !! i = Some c →
  match last_at_most (Chunker.level c - 1) (Chunker.level <$> take i cs) with
  | Some j =>
      Chunker.parent_chunk_id c = Some (Chunker.chunk_id page_id j) ∧
      Chunker.parent_header c = Chunker.header <$> cs !! j
  | None =>
      Chunker.parent_chunk_id c = None ∧ Chunker.parent_header c = None
  end.
Proof.
  intros Hbody cs Hc. subst cs.
  unfold Chunker.chunk_content in *. cbv zeta in *.
  destruct (first_pass_stack page_id all_elements Chunker.initial_state None)
    as [(_ & _ & _ & Hpar) Hlines]; [done|done| |].
  { split; [done|]. split; [|split].
    - intros k Hk. unfold headers_so_far, slot_at. cbn.
      do 6 (destruct k as [|k]; [done|]). lia.
    - constructor.
    - intros k s Hk. cbn in Hk. by rewrite lookup_nil in Hk. }
  set (st := foldl _ _ _) in *.
  pose proof (save_chunk_headers st Hlines) as Hsave.
  assert (Hsk : skeleton_of <$> Chunker.fill_children page_id
                                  (Chunker.save_chunk st)
                = headers_so_far st).
  { rewrite <- Hsave. apply list_eq. intros k.
    rewrite !list_lookup_fmap.
    assert (H : chunk_static <$> Chunker.fill_children page_id
                                   (Chunker.save_chunk st) !! k
                = chunk_static <$> Chunker.save_chunk st !! k).
    { rewrite <- !list_lookup_fmap. by rewrite fill_children_static. }
    destruct (Chunker.fill_children _ _ !! k) as [c1|],
             (Chunker.save_chunk st !! k) as [c2|]; try done.
    cbn in H. injection H as Hh Hl Hp Hph _ _ _ _.
    cbn. unfold skeleton_of. by rewrite Hh, Hl, Hp, Hph. }
  set (cs := Chunker.fill_children _ _) in *.
  specialize (Hpar i (skeleton_of c)).
  rewrite <- Hsk in Hpar. rewrite list_lookup_fmap, Hc in Hpar.
  specialize (Hpar eq_refl). unfold encloser_is_parent in Hpar.
  cbn [skeleton_of sk_level sk_parent sk_parent_header] in Hpar.
  rewrite <- fmap_take, <- list_fmap_compose in Hpar.
  change (sk_level ∘ skeleton_of) with Chunker.level in Hpar.
  destruct (last_at_most _ _) as [j|]; [|done].
  rewrite list_lookup_fmap in Hpar.
  destruct Hpar as [-> ->]. split; [done|]. by destruct (cs !! j).
Qed.

Lemma parent_is_enclosing_header_witness :
  let cs := Chunker.chunk_content
              [Chunker.Header Chunker.h1 "A"; Chunker.Block "a";
               Chunker.Header Chunker.h3 "B"; Chunker.Block "b";
               Chunker.Header Chunker.h2 "C"; Chunker.Block "c"] "page" in
  ∃ c, cs !! 2 = Some c ∧
       match last_at_most (Chunker.level c - 1)
               (Chunker.level <$> take 2 cs) with
       | Some j =>
           Chunker.parent_chunk_id c = Some (Chunker.chunk_id "page" j) ∧
           Chunker.parent_header c = Chunker.header <$> cs !! j
       | None =>
           Chunker.parent_chunk_id c = None ∧ Chunker.parent_header c = None
       end.
Proof.
  eexists. split; [vm_compute; reflexivity|].
  apply (parent_is_enclosing_header
           [Chunker.Header Chunker.h1 "A"; Chunker.Block "a";
            Chunker.Header Chunker.h3 "B"; Chunker.Block "b";
            Chunker.Header Chunker.h2 "C"; Chunker.Block "c"] "page" 2).
  - repeat constructor.
  - vm_compute. reflexivity.
Defined.

(** ** Strings *)

Lemma String_app (c : ascii) (s t : string) :
  String c s +:+ t = String c (s +:+ t).
Proof. reflexivity. Qed.

Lemma chars_app (s t : string) : chars (s +:+ t) = chars s ++ chars t.
Proof.
  unfold chars. induction s as [|c s IH]; [done|].
  rewrite String_app. cbn. by rewrite IH.
Qed.

Lemma chars_inj (s t : string) : chars s = chars t → s = t.
Proof.
  intros H. rewrite <- (string_of_list_ascii_of_string s),
    <- (string_of_list_ascii_of_string t). unfold chars in H. by rewrite H.
Qed.

Lemma chars_rev_app (s acc : string) :
  chars (String.rev_app s acc) = reverse (chars s) ++ chars acc.
Proof.
  revert acc. induction s as [|c s IH]; intros acc; [done|].
  change (String.rev_app (String c s) acc)
    with (String.rev_app s (String c acc)).
  rewrite IH. change (chars (String c acc)) with (c :: chars acc).
  change (chars (String c s)) with (c :: chars s).
  by rewrite reverse_cons, <- app_assoc.
Qed.

Lemma chars_rev (s : string) : chars (String.rev s) = reverse (chars s).
Proof. unfold String.rev. rewrite chars_rev_app. cbn. by rewrite app_nil_r. Qed.

Lemma rev_involutive (s : string) : String.rev (String.rev s) = s.
Proof. apply chars_inj. by rewrite !chars_rev, reverse_involutive. Qed.

Lemma rev_app_rev (s acc : string) :
  String.rev_app s acc = String.rev s +:+ acc.
Proof. apply chars_inj. by rewrite chars_app, chars_rev, chars_rev_app. Qed.

Lemma chars_nil (s : string) : chars s = [] ↔ s = "".
Proof. split; [|by intros ->]. by destruct s. Qed.

Lemma str_truthy_spec (s : string) : str_truthy s = true ↔ s ≠ "".
Proof. by destruct s. Qed.

Lemma rev_truthy (s : string) : str_truthy (String.rev s) = str_truthy s.
Proof.
  destruct s as [|c s]; [done|].
  apply str_truthy_spec. intros H%chars_nil. rewrite chars_rev in H.
  apply (f_equal length) in H. rewrite length_reverse in H. done.
Qed.

Lemma app_empty_r (s : string) : s +:+ "" = s.
Proof. apply chars_inj. rewrite chars_app. cbn. by rewrite app_nil_r. Qed.

(** *** [str.split()] *)

Lemma py_split_ws_go_words (s cur : string) :
  Forall (λ c, py_isspace c = false) (chars cur) →
  Forall (λ w, is_word w ∧ ∀ c, c ∈ chars w → c ∈ chars cur ∨ c ∈ chars s)
    (py_split_ws_go cur s).
Proof.
  revert cur. induction s as [|a s IH]; intros cur Hcur; simpl.
  - destruct (str_truthy cur) eqn:Ht; [|constructor].
    apply Forall_singleton. split; [split|].
    + apply str_truthy_spec. by rewrite rev_truthy.
    + rewrite chars_rev. by apply Forall_reverse.
    + intros c. rewrite chars_rev, elem_of_reverse. auto.
  - destruct (py_isspace a) eqn:Ha.
    + assert (Hrest : Forall (λ w, is_word w ∧ ∀ c, c ∈ chars w →
                         c ∈ chars cur ∨ c ∈ chars (String a s))
                        (py_split_ws_go "" s)).
      { eapply Forall_impl; [apply (IH ""); constructor|].
        intros w [Hw Hc]. split; [done|]. intros c [Hin|Hin]%Hc.
        - by apply elem_of_nil in Hin.
        - right. cbn. by right. }
      destruct (str_truthy cur) eqn:Ht; [|done].
      constructor; [|done]. split; [split|].
      * apply str_truthy_spec. by rewrite rev_truthy.
      * rewrite chars_rev. by apply Forall_reverse.
      * intros c. rewrite chars_rev, elem_of_reverse. auto.
    + eapply Forall_impl; [apply (IH (String a cur))|].
      * cbn. by constructor.
      * intros w [Hw Hc]. split; [done|]. cbn. intros c [Hin|Hin]%Hc.
        -- cbn in Hin. apply elem_of_cons in Hin as [->|Hin]; [|by left].
           right. by left.
        -- right. by right.
Qed.

Lemma py_split_ws_words (s : string) :
  Forall (λ w, is_word w ∧ ∀ c, c ∈ chars w → c ∈ chars s) (py_split_ws s).
Proof.
  eapply Forall_impl; [apply (py_split_ws_go_words s ""); constructor|].
  intros w [Hw Hc]. split; [done|]. intros c [Hin|Hin]%Hc; [|done].
  by apply elem_of_nil in Hin.
Qed.

Lemma py_split_ws_go_word (w cur rest : string) :
  Forall (λ c, py_isspace c = false) (chars w) →
  py_split_ws_go cur (w +:+ rest)
  = py_split_ws_go (String.rev_app w cur) rest.
Proof.
  revert cur. induction w as [|a w IH]; intros cur Hw; [done|].
  cbn in Hw. apply Forall_cons in Hw as [Ha Hw].
  rewrite String_app. simpl. rewrite Ha. by apply IH.
Qed.

(** Splitting what was joined with single spaces gives the words back. *)
Lemma py_split_ws_join (ws : list string) :
  Forall is_word ws → py_split_ws (py_join " " ws) = ws.
Proof.
  unfold py_split_ws. induction 1 as [|w ws [Hne Hw] Hws IH]; [done|].
  assert (Hrev : String.rev (String.rev_app w "") = w).
  { rewrite rev_app_rev, app_empty_r. apply rev_involutive. }
  assert (Ht : str_truthy (String.rev_app w "") = true).
  { rewrite rev_app_rev, app_empty_r, rev_truthy. by apply str_truthy_spec. }
  destruct ws as [|w2 ws].
  - simpl. rewrite <- (app_empty_r w) at 1.
    rewrite py_split_ws_go_word by done. simpl. by rewrite Ht, Hrev.
  - change (py_join " " (w :: w2 :: ws))
      with (w +:+ String " " (py_join " " (w2 :: ws))).
    rewrite py_split_ws_go_word by done.
    change (py_split_ws_go (String.rev_app w "")
              (String " " (py_join " " (w2 :: ws))))
      with (if str_truthy (String.rev_app w "")
            then String.rev (String.rev_app w "")
                 :: py_split_ws_go "" (py_join " " (w2 :: ws))
            else py_split_ws_go "" (py_join " " (w2 :: ws))).
    by rewrite Ht, Hrev, IH.
Qed.

Lemma chars_join (sep : string) (ws : list string) (c : ascii) :
  c ∈ chars (py_join sep ws) → c ∈ chars sep ∨ ∃ w, w ∈ ws ∧ c ∈ chars w.
Proof.
  induction ws as [|w ws IH]; [by intros ?%elem_of_nil|].
  destruct ws as [|w2 ws].
  - simpl. intros Hc. right. exists w. split; [by left|done].
  - change (py_join sep (w :: w2 :: ws))
      with (w +:+ sep +:+ py_join sep (w2 :: ws)).
    rewrite !chars_app, !elem_of_app.
    intros [Hc|[Hc|Hc]]; [right; exists w; split; [by left|done] | by left |].
    destruct (IH Hc) as [?|(w' & Hw' & ?)]; [by left|].
    right. exists w'. split; [by right|done].
Qed.

Lemma chars_replace (a b c : ascii) (s : string) :
  c ∈ chars (py_replace_char a b s) → c = b ∨ (c ≠ a ∧ c ∈ chars s).
Proof.
  induction s as [|x s IH]; [by intros ?%elem_of_nil|].
  cbn. intros [->|Hc]%elem_of_cons.
  - destruct (Ascii.eqb x a) eqn:Hx; [by left|].
    right. apply Ascii.eqb_neq in Hx. split; [done|by left].
  - destruct (IH Hc) as [?|[? ?]]; [by left|]. right. split; [done|by right].
Qed.

(** X14: a cleaned title has no ["+"] and no ["-"], and its words are separated
    by single spaces with none at either end: joining its words with single
    spaces gives the title back. *)
Theorem clean_title_normal (title : string) :
  let t := _clean_title title in
  ("+"%char ∉ chars t) ∧ ("-"%char ∉ chars t) ∧
  py_join " " (py_split_ws t) = t.
Proof.
  intros t. subst t. unfold _clean_title. cbv zeta.
  set (s := py_replace_char "-" " " _).
  pose proof (py_split_ws_words s) as Hwords.
  assert (Hno : ∀ c, c ∈ chars (py_join " " (py_split_ws s)) →
                     c = " "%char ∨ c ∈ chars s).
  { intros c [Hc|(w & Hw & Hc)]%chars_join.
    - left. cbn in Hc. by apply list_elem_of_singleton in Hc.
    - right. rewrite Forall_forall in Hwords.
      by apply (Hwords w Hw). }
  split; [|split].
  - intros [H|H]%Hno; [done|]. subst s.
    apply chars_replace in H as [H|[_ H]]; [done|].
    by apply chars_replace in H as [H|[H _]].
  - intros [H|H]%Hno; [done|]. subst s.
    by apply chars_replace in H as [H|[H _]].
  - rewrite py_split_ws_join; [done|].
    eapply Forall_impl; [exact Hwords|]. by intros w [? _].
Qed.

(** *** [str.strip()] and [str.split(sep)] *)

Lemma py_lstrip_spec (s : string) :
  ∃ pre, chars s = pre ++ chars (py_lstrip s) ∧
         Forall (λ c, py_isspace c = true) pre ∧
         ∀ c, head (chars (py_lstrip s)) = Some c → py_isspace c = false.
Proof.
  induction s as [|a s (pre & Hs & Hpre & Hhead)]; simpl.
  - exists []. by repeat split.
  - destruct (py_isspace a) eqn:Ha.
    + exists (a :: pre). split; [|split; [by constructor|done]].
      change (chars (String a s)) with (a :: chars s). by rewrite Hs.
    + exists []. split; [done|]. split; [constructor|].
      intros c [= <-]. done.
Qed.

Lemma last_app_nonempty {A} (l1 l2 : list A) :
  l2 ≠ [] → last (l1 ++ l2) = last l2.
Proof.
  intros H. destruct l2 as [|x l2 _] using rev_ind; [done|].
  by rewrite app_assoc, !last_snoc.
Qed.

Lemma py_strip_stripped (s : string) : is_stripped (py_strip s).
Proof.
  unfold py_strip.
  destruct (py_lstrip_spec s) as (pre1 & _ & _ & Ha).
  set (a := py_lstrip s) in *.
  destruct (py_lstrip_spec (String.rev a)) as (pre2 & Hb & _ & Hhead).
  set (b := py_lstrip (String.rev a)) in *.
  rewrite chars_rev in Hb.
  split; intros c; rewrite chars_rev.
  - rewrite head_reverse. intros Hc. apply Ha.
    rewrite <- last_reverse, Hb, last_app_nonempty; [done|].
    intros Hnil. by rewrite Hnil in Hc.
  - rewrite last_reverse. apply Hhead.
Qed.






(** ** The topics of a query *)



(** ** The text of an element with code *)

Lemma py_lstrip_fixed (s : string) :
  (∀ c, head (chars s) = Some c → py_isspace c = false) → py_lstrip s = s.
Proof.
  destruct s as [|a s]; [done|]. intros H. simpl.
  by rewrite (H a eq_refl).
Qed.

Lemma py_strip_fixed (s : string) : is_stripped s → py_strip s = s.
Proof.
  intros [Hhead Hlast]. unfold py_strip.
  rewrite (py_lstrip_fixed s Hhead), py_lstrip_fixed; [apply rev_involutive|].
  intros c. rewrite chars_rev, head_reverse. apply Hlast.
Qed.

Lemma py_lstrip_keeps (s : string) (c : ascii) :
  c ∈ chars s → py_isspace c = false → c ∈ chars (py_lstrip s).
Proof.
  destruct (py_lstrip_spec s) as (pre & Hs & Hpre & _). rewrite Hs at 1.
  intros [Hc|Hc]%elem_of_app Hsp; [|done].
  rewrite Forall_forall in Hpre. by rewrite (Hpre c Hc) in Hsp.
Qed.

Lemma py_strip_keeps (s : string) (c : ascii) :
  c ∈ chars s → py_isspace c = false → c ∈ chars (py_strip s).
Proof.
  intros Hc Hsp. unfold py_strip. rewrite chars_rev, elem_of_reverse.
  apply py_lstrip_keeps; [|done]. rewrite chars_rev, elem_of_reverse.
  by apply py_lstrip_keeps.
Qed.

Lemma chars_join_cons (sep w : string) (ws : list string) :
  chars (py_join sep (w :: ws))
  = chars w ++ match ws with
               | [] => []
               | _ :: _ => chars sep ++ chars (py_join sep ws)
               end.
Proof.
  destruct ws as [|w2 ws].
  - simpl. by rewrite app_nil_r.
  - change (py_join sep (w :: w2 :: ws))
      with (w +:+ sep +:+ py_join sep (w2 :: ws)).
    by rewrite !chars_app.
Qed.

Lemma chars_join_elem (sep w : string) (ws : list string) (c : ascii) :
  w ∈ ws → c ∈ chars w → c ∈ chars (py_join sep ws).
Proof.
  induction ws as [|w' ws IH]; [by intros ?%elem_of_nil|].
  rewrite chars_join_cons. intros [->|Hw]%elem_of_cons Hc.
  - apply elem_of_app. by left.
  - apply elem_of_app. right. destruct ws as [|w2 ws];
      [by apply elem_of_nil in Hw|].
    apply elem_of_app. right. by apply IH.
Qed.

Lemma chars_join_last (sep : string) (ws : list string) (w : string) :
  last ws = Some w → chars w ≠ [] →
  last (chars (py_join sep ws)) = last (chars w).
Proof.
  induction ws as [|w' ws IH]; [done|]. intros Hl Hw.
  rewrite chars_join_cons. destruct ws as [|w2 ws].
  - injection Hl as ->. by rewrite app_nil_r.
  - rewrite last_cons_cons in Hl. specialize (IH Hl Hw).
    rewrite app_assoc, last_app_nonempty; [done|].
    intros Hnil. rewrite Hnil in IH. simpl in IH.
    destruct (chars w) using rev_ind; [done|]. by rewrite last_snoc in IH.
Qed.

Lemma child_text_code (ch : child) :
  is_code ch = true →
  head (chars (child_text ch)) = Some "`"%char ∧
  last (chars (child_text ch)) = Some "`"%char.
Proof.
  destruct ch as [code|code|text]; [| |done]; intros _; cbn [child_text];
    (split; [by rewrite chars_app|]); rewrite !chars_app, !app_assoc.
  - by rewrite (last_app_nonempty _ (chars "```")).
  - by rewrite (last_app_nonempty _ (chars "`")).
Qed.

(** X16: the text of an element neither begins nor ends with whitespace.  An
    element with a [pre] or a [code] among its children never gives a blank
    text, so that [chunk_content] keeps it even when the code is empty; and
    when its first and its last child are code, nothing is stripped: the
    text is the texts of the children joined by single spaces, the code in
    its fences as it was written. *)
Theorem code_is_kept_in_text (children : list child) :
  let text := _extract_text_with_code children in
  is_stripped text ∧
  ((∃ ch, ch ∈ children ∧ is_code ch = true) →
   str_truthy (py_strip text) = true) ∧
  (∀ ch1 ch2, head children = Some ch1 → last children = Some ch2 →
              is_code ch1 = true → is_code ch2 = true →
              text = py_join " " (child_text <$> children)).
Proof.
  intros text. subst text. unfold _extract_text_with_code.
  split; [apply py_strip_stripped|]. split.
  - intros (ch & Hch & Hcode).
    rewrite (py_strip_fixed (py_strip _)) by apply py_strip_stripped.
    apply str_truthy_spec. intros Hempty.
    assert (Hin : "`"%char ∈ chars (py_strip (py_join " "
                                              (child_text <$> children)))).
    { apply py_strip_keeps; [|done].
      apply chars_join_elem with (child_text ch);
        [by apply list_elem_of_fmap_2|].
      destruct (child_text_code ch Hcode) as [Hh _].
      destruct (chars (child_text ch)) as [|a l]; [done|].
      injection Hh as ->. by left. }
    rewrite Hempty in Hin. by apply elem_of_nil in Hin.
  - intros ch1 ch2 Hh Hl Hc1 Hc2. apply py_strip_fixed.
    destruct (child_text_code ch1 Hc1) as [Hh1 _].
    destruct (child_text_code ch2 Hc2) as [_ Hl2].
    split; intros c.
    + destruct children as [|ch children]; [done|]. injection Hh as ->.
      rewrite fmap_cons, chars_join_cons.
      destruct (chars (child_text ch1)) as [|a l]; [done|].
      injection Hh1 as ->. by intros [= <-].
    + rewrite (chars_join_last _ _ (child_text ch2)).
      * rewrite Hl2. by intros [= <-].
      * by rewrite fmap_last, Hl.
      * intros Hnil. by rewrite Hnil in Hl2.
Qed.

Lemma code_is_kept_in_text_witness :
  _extract_text_with_code [Pre " x = 1 "; Other " and "; Code "y"]
  = py_join " " (child_text <$> [Pre " x = 1 "; Other " and "; Code "y"]).
Proof.
  destruct (code_is_kept_in_text [Pre " x = 1 "; Other " and "; Code "y"])
    as (_ & _ & H).
  apply (H (Pre " x = 1 ") (Code "y")); reflexivity.
Defined.

(** ** The store of chunks *)

Lemma find_chunk_cons (d : chunk_doc) (collection : list chunk_doc)
    (k : string) :
  find_chunk (d :: collection) k
  = if bool_decide (cd_id d = k) then Some d else find_chunk collection k.
Proof. done. Qed.

Lemma find_chunk_None (collection : list chunk_doc) (k : string) :
  find_chunk collection k = None ↔ k ∉ cd_id <$> collection.
Proof.
  induction collection as [|d l IH]; [by split; [intros _; apply not_elem_of_nil|]|].
  rewrite find_chunk_cons, fmap_cons, not_elem_of_cons.
  case_bool_decide; [|rewrite IH]; naive_solver.
Qed.

Lemma find_chunk_Some (collection : list chunk_doc) (k : string)
    (d : chunk_doc) :
  find_chunk collection k = Some d → d ∈ collection ∧ cd_id d = k.
Proof.
  unfold find_chunk. intros [Hd Hk]%find_some.
  apply bool_decide_eq_true_1 in Hk. split; [|done].
  by apply list_elem_of_In.
Qed.

Lemma upsert_find (d : chunk_doc) (collection : list chunk_doc) (k : string) :
  find_chunk (upsert d collection) k
  = if bool_decide (cd_id d = k) then Some d else find_chunk collection k.
Proof.
  induction collection as [|d' l IH]; cbn [upsert].
  - rewrite find_chunk_cons. by destruct (bool_decide (cd_id d = k)).
  - destruct (decide (cd_id d' = cd_id d)) as [Hd'|Hd'].
    + rewrite (bool_decide_eq_true_2 _ Hd'), !find_chunk_cons.
      destruct (decide (cd_id d = k)) as [Hk|Hk].
      * by rewrite (bool_decide_eq_true_2 _ Hk).
      * rewrite (bool_decide_eq_false_2 _ Hk).
        by rewrite bool_decide_eq_false_2 by congruence.
    + rewrite (bool_decide_eq_false_2 _ Hd'), !find_chunk_cons, IH.
      destruct (decide (cd_id d = k)) as [Hk|Hk].
      * rewrite (bool_decide_eq_true_2 _ Hk).
        by rewrite bool_decide_eq_false_2 by congruence.
      * by rewrite (bool_decide_eq_false_2 _ Hk).
Qed.



(** ** The descendants that [_explore_children] collects *)

Lemma explore_children_spec (collection : list chunk_doc) (levels : nat) :
  ∀ node_id collected x,
    x ∈ explore_children collection levels node_id collected ↔
    x ∈ collected ∨ child_within collection levels node_id x.
Proof.
  induction levels as [|levels IH]; intros node_id collected x; simpl.
  - split; [by left|]. intros [?|H]; [done|]. inversion H.
  - destruct (find_chunk collection node_id) as [d|] eqn:Hd.
    + assert (Hfold : ∀ cs acc,
        x ∈ foldl (λ collected child_id,
                     explore_children collection levels child_id
                       ({[child_id]} ∪ collected)) acc cs ↔
        x ∈ acc ∨ ∃ child_id, child_id ∈ cs ∧
                    (x = child_id ∨ child_within collection levels child_id x)).
      { induction cs as [|c cs IHcs]; intros acc; simpl.
        - split; [by left|]. intros [?|(c & Hc & _)]; [done|].
          by apply elem_of_nil in Hc.
        - rewrite IHcs, IH, elem_of_union, elem_of_singleton.
          setoid_rewrite elem_of_cons. naive_solver. }
      rewrite Hfold. split.
      * intros [?|(c & Hc & [Hx|?])]; [by left| |].
        -- subst c. right. by eapply child_here.
        -- right. by eapply child_below.
      * intros [?|H]; [by left|]. right.
        inversion H as [k n d' c Hf Hc|k n d' c y Hf Hc Hw]; subst;
          rewrite Hd in Hf; injection Hf as <-.
        -- exists x. split; [done|by left].
        -- exists c. split; [done|by right].
    + split; [by left|]. intros [?|H]; [done|].
      inversion H as [k n d' c Hf Hc|k n d' c y Hf Hc Hw]; subst; congruence.
Qed.

(** X18: [_explore_children] adds to the collected nodes exactly the nodes that
    are reached from the node by going down to a child at least once and at
    most [max_depth - current_depth] times; what was collected stays, and a
    cycle of children does not keep it from coming to an end. *)
Theorem explore_children_reach (collection : list chunk_doc) (node_id : string)
    (collected_nodes : gset string) (current_depth max_depth : Z) (x : string) :
  x ∈ _explore_children collection node_id collected_nodes current_depth
        max_depth ↔
  x ∈ collected_nodes ∨
  child_within collection (Z.to_nat (max_depth - current_depth)) node_id x.
Proof. apply explore_children_spec. Qed.

(** ** The first retrieval *)

Lemma docs_with_scores_elem (collection : list chunk_doc)
    (embedding : list float) (d : chunk_doc) (s : float) :
  (d, s) ∈ docs_with_scores collection embedding →
  d ∈ collection ∧
  ∃ v, cd_embedding d = Some v ∧ s = inline_similarity embedding v.
Proof.
  unfold docs_with_scores. rewrite sort_desc_perm.
  intros (d' & Hd' & Hs)%list_elem_of_omap.
  destruct (cd_embedding d') as [v|] eqn:Hv; [|done].
  injection Hs as <- <-. split; [done|]. by exists v.
Qed.

Lemma graph_docs_elem (collection : list chunk_doc)
    (scored : list (chunk_doc * float)) (seed_nodes : list string)
    (nodes : gset string) (d : chunk_doc) (s : float) :
  (d, s) ∈ graph_docs collection scored seed_nodes nodes →
  cd_id d ∈ nodes ∧
  ∃ score, (d, score) ∈ scored ∧ (s = score ∨ s = (score * 1.2)%float).
Proof.
  unfold graph_docs. intros (node_id & Hn & Hs)%list_elem_of_omap.
  apply elem_of_elements in Hn.
  destruct (List.find _ scored) as [[d' score]|] eqn:Hf; [|done].
  apply find_some in Hf as [Hin Hid].
  apply list_elem_of_In in Hin. apply bool_decide_eq_true_1 in Hid.
  simpl in Hid. injection Hs as <- <-. split; [by rewrite Hid|].
  exists score. split; [done|]. destruct (existsb _ _); auto.
Qed.

Lemma StronglySorted_take {A} (R : relation A) (n : nat) (l : list A) :
  StronglySorted R l → StronglySorted R (take n l).
Proof.
  intros Hs. rewrite <- (take_drop n l) in Hs.
  by apply StronglySorted_app in Hs as (_ & ? & _).
Qed.

Lemma py_take_nonneg {A} (n : Z) (l : list A) :
  (0 ≤ n)%Z → py_take n l = take (Z.to_nat n) l.
Proof. intros Hn. unfold py_take. by rewrite (proj2 (Z.leb_le _ _) Hn). Qed.

(** X19: with [max_results] at zero or more and similarities that are numbers, at
    most [max_results] entries are returned, ranked best first.  Every entry
    is a document of the collection that has an embedding and is among the
    relevant nodes; its score is its similarity to the query, or that raised
    by a fifth; it is marked a seed exactly when its id is one of the seeds,
    and is then said to be found by ["vector"], otherwise by ["graph"]. *)
Theorem graph_based_retrieve_results (collection : list chunk_doc)
    (embedding : list float) (max_results max_depth : Z) :
  (0 ≤ max_results)%Z →
  (∀ d v, d ∈ collection → cd_embedding d = Some v →
          is_number (inline_similarity embedding v)) →
  let results :=
    graph_based_retrieve collection embedding max_results max_depth in
  let seeds := seed_ids collection embedding max_results in
  length results ≤ Z.to_nat max_results ∧
  StronglySorted (ranked_before similarity_score) results ∧
  ∀ r, r ∈ results →
    r_id r ∈ relevant_nodes collection seeds max_depth ∧
    (is_seed r = true ↔ r_id r ∈ seeds) ∧
    found_by r = (if is_seed r then "vector" else "graph") ∧
    ∃ d v, d ∈ collection ∧ cd_embedding d = Some v ∧
           r_id r = cd_id d ∧ r_page_title r = cd_page_title d ∧
           r_header r = cd_header d ∧ r_content r = cd_content d ∧
           (similarity_score r = inline_similarity embedding v ∨
            similarity_score r
            = (inline_similarity embedding v * 1.2)%float).
Proof.
  intros Hmax Hnum results seeds. subst results seeds.
  unfold graph_based_retrieve. cbv zeta.
  set (seeds := seed_ids collection embedding max_results).
  set (nodes := relevant_nodes collection seeds max_depth).
  set (gd := graph_docs collection _ seeds nodes).
  rewrite py_take_nonneg by done.
  assert (Hgd : ∀ d s, (d, s) ∈ gd →
            cd_id d ∈ nodes ∧ d ∈ collection ∧
            ∃ v, cd_embedding d = Some v ∧
                 (s = inline_similarity embedding v ∨
                  s = (inline_similarity embedding v * 1.2)%float)).
  { intros d s (Hn & score & Hsc & Hs)%graph_docs_elem.
    apply docs_with_scores_elem in Hsc as (Hd & v & Hv & ->).
    split; [done|]. split; [done|]. by exists v. }
  split; [|split].
  - rewrite length_fmap, length_take. lia.
  - assert (Hsorted : StronglySorted (ranked_before snd)
                        (take (Z.to_nat max_results) (sort_desc snd gd))).
    { apply StronglySorted_take, sort_desc_sorted.
      apply Forall_forall. intros [d s] (_ & Hd & v & Hv & [->| ->])%Hgd; simpl.
      - by eapply Hnum.
      - eapply (mul_number 1 1); [by eapply Hnum|]. finite_between_compute. }
    induction Hsorted as [|[d s] l Hs IH Hall]; cbn; constructor; [done|].
    apply Forall_fmap. eapply Forall_impl; [exact Hall|]. by intros [d' s'].
  - intros r ([d s] & -> & Hin)%list_elem_of_fmap.
    apply (subseteq_take (Z.to_nat max_results)) in Hin.
    rewrite sort_desc_perm in Hin.
    apply Hgd in Hin as (Hn & Hd & v & Hv & Hs). cbn.
    split; [done|]. split; [apply bool_decide_eq_true|].
    split; [done|]. by exists d, v.
Qed.

Lemma graph_based_retrieve_results_witness :
  let results := graph_based_retrieve shelf [1.0%float; 0.0%float] 5 2 in
  let seeds := seed_ids shelf [1.0%float; 0.0%float] 5 in
  length results ≤ Z.to_nat 5 ∧
  StronglySorted (ranked_before similarity_score) results ∧
  ∀ r, r ∈ results →
    r_id r ∈ relevant_nodes shelf seeds 2 ∧
    (is_seed r = true ↔ r_id r ∈ seeds) ∧
    found_by r = (if is_seed r then "vector" else "graph") ∧
    ∃ d v, d ∈ shelf ∧ cd_embedding d = Some v ∧
           r_id r = cd_id d ∧ r_page_title r = cd_page_title d ∧
           r_header r = cd_header d ∧ r_content r = cd_content d ∧
           (similarity_score r = inline_similarity [1.0%float; 0.0%float] v ∨
            similarity_score r
            = (inline_similarity [1.0%float; 0.0%float] v * 1.2)%float).
Proof.
  apply (graph_based_retrieve_results shelf [1.0%float; 0.0%float] 5 2);
    [lia|].
  intros d v Hd Hv. unfold shelf in Hd.
  repeat (apply elem_of_cons in Hd as [->|Hd]);
    [..|by apply elem_of_nil in Hd];
    injection Hv as <-; reflexivity.
Defined.

(** ** The two similarities *)

Section similarity.
Local Open Scope Z_scope.

Lemma binary_round_aux_class (m e : Z) (l : location) :
  sf_nonneg (binary_round_aux prec emax false m e l) = true \/
  binary_round_aux prec emax false m e l = S754_nan.
Proof.
  unfold binary_round_aux.
  destruct (shr_fexp prec emax m e l) as [mrs1 e1].
  destruct (shr_fexp prec emax _ e1 loc_Exact) as [mrs2 e2].
  destruct (shr_m mrs2); [by left| |by right].
  destruct (e2 <=? emax - prec); by left.
Qed.

Lemma SFsqrt_class (x : spec_float) :
  sf_nonneg (SFsqrt prec emax x) = true \/ SFsqrt prec emax x = S754_nan.
Proof.
  destruct x as [[]|[]| |[] m e]; cbn [SFsqrt]; try (by left); try (by right).
  destruct (SFsqrt_core_binary prec emax (Zpos m) e) as [[mz ez] lz].
  apply binary_round_aux_class.
Qed.

Lemma SFmul_class (x y : spec_float) :
  sf_nonneg x = true \/ x = S754_nan ->
  sf_nonneg y = true \/ y = S754_nan ->
  sf_nonneg (SFmul prec emax x y) = true \/ SFmul prec emax x y = S754_nan.
Proof.
  intros [Hx| ->] [Hy| ->]; try (by right);
    [|destruct x as [[]|[]| |[] ? ?]; by right].
  destruct x as [[]|[]| |[] m1 e1]; try discriminate;
    destruct y as [[]|[]| |[] m2 e2]; try discriminate;
    cbn [SFmul xorb]; try (by left); try (by right).
  apply binary_round_aux_class.
Qed.

Lemma norm_product_class (x y : float) :
  sf_nonneg (Prim2SF (PrimFloat.sqrt x * PrimFloat.sqrt y)) = true \/
  Prim2SF (PrimFloat.sqrt x * PrimFloat.sqrt y) = S754_nan.
Proof.
  rewrite FloatAxioms.mul_spec, !FloatAxioms.sqrt_spec.
  apply SFmul_class; apply SFsqrt_class.
Qed.

End similarity.

(** X20: the similarity that the first retrieval computes in line is the cosine
    similarity of the engine whenever the product of the two norms is a
    number.  When it is not (an infinite norm against a zero norm), the
    engine answers 0 and the first retrieval answers with what is not a
    number. *)
Theorem inline_similarity_agrees (embedding doc_vector : list float) :
  let product :=
    (PrimFloat.sqrt (sum_squares embedding)
     * PrimFloat.sqrt (sum_squares doc_vector))%float in
  (is_number product →
   inline_similarity embedding doc_vector
   = _cosine_similarity embedding doc_vector) ∧
  (¬ is_number product →
   _cosine_similarity embedding doc_vector = 0%float ∧
   ¬ is_number (inline_similarity embedding doc_vector)).
Proof.
  intros product. unfold inline_similarity, _cosine_similarity. cbv zeta.
  fold product.
  pose proof (norm_product_class (sum_squares embedding)
                (sum_squares doc_vector)) as Hclass.
  fold product in Hclass.
  rewrite !is_number_spec.
  rewrite FloatAxioms.ltb_spec, FloatAxioms.eqb_spec, prim_zero.
  split.
  - intros Hnum. destruct Hclass as [Hnn|Hnan]; [|done].
    destruct (Prim2SF product) as [[]|[]| |[] m e]; try discriminate;
      reflexivity.
  - intros Hnan. destruct Hclass as [Hnn|Hn].
    + destruct Hnan. by destruct (Prim2SF product).
    + rewrite Hn. split; [done|].
      change (SFeqb S754_nan (S754_zero false)) with false. cbv iota.
      rewrite FloatAxioms.div_spec, Hn.
      intros H. apply H. unfold SF64div.
      by destruct (Prim2SF (dot_product embedding doc_vector))
        as [[]|[]| |[] ? ?].
Qed.

(** ** The statistics of a search *)

Lemma py_take_sublist {A} (n : Z) (l : list A) : py_take n l `sublist_of` l.
Proof. unfold py_take. destruct (0 <=? n)%Z; apply sublist_take. Qed.

Lemma List_filter_sublist {A} (f : A → bool) (l : list A) :
  List.filter f l `sublist_of` l.
Proof.
  induction l as [|x l IH]; [done|]. cbn.
  destruct (f x); [by apply sublist_skip | by apply sublist_cons].
Qed.

Lemma score_documents_ids (query_embedding : list float)
    (documents : list doc) :
  NoDup (_id <$> documents) →
  NoDup ((λ p, _id p.1) <$> _score_documents query_embedding documents).
Proof.
  intros Hnd. unfold _score_documents. rewrite sort_desc_perm.
  eapply sublist_NoDup; [exact Hnd|]. clear Hnd.
  induction documents as [|d l IH]; [done|]. cbn.
  destruct (embedding d) as [[|a e]|]; cbn;
    [by apply sublist_cons | by apply sublist_skip | by apply sublist_cons].
Qed.

(** X21: over a collection with distinct ids and an embedding, when the embedding
    of the query is obtained, the statistics of a search add up: the total
    number of nodes is the number of seeds plus the number of nodes that the
    traversal added, and that number is the sum of the relationship
    counts. *)
Theorem search_stats_add_up (svc : services) (collection : list doc)
    (query : string) (query_embedding : list float)
    (n_seed_results n_total_results max_traversal_depth : Z) :
  embeddings_create svc query = Returned query_embedding →
  NoDup (_id <$> collection) →
  find_with_embedding collection ≠ [] →
  match stats (search svc collection query n_seed_results n_total_results
                 max_traversal_depth) with
  | Stats seed_nodes graph_traversed_nodes total_nodes counts _ _ =>
      total_nodes = (seed_nodes + graph_traversed_nodes)%Z ∧
      graph_traversed_nodes = counters_total counts ∧
      (0 ≤ graph_traversed_nodes)%Z
  | StatsError _ => False
  end.
Proof.
  intros Hq Hnd Hall. unfold search, _compute_embedding. rewrite Hq. cbv zeta.
  destruct (find_with_embedding collection) as [|d0 l] eqn:Hdocs; [done|].
  cbn [stats].
  set (seeds := (λ p, _id p.1) <$> py_take n_seed_results _).
  assert (Hseeds : NoDup seeds).
  { subst seeds. eapply sublist_NoDup;
      [|apply fmap_sublist, py_take_sublist].
    apply score_documents_ids. rewrite <- Hdocs.
    eapply sublist_NoDup; [exact Hnd|].
    apply fmap_sublist, List_filter_sublist. }
  destruct (traverse_graph_counted collection seeds (n_total_results * 3)
              max_traversal_depth Hnd) as (st & [_ Hsize] & Hst).
  destruct (traverse_graph_in_range collection seeds (n_total_results * 3)
              max_traversal_depth) as (st' & [Hin _] & Hst').
  rewrite Hst. cbn [visited_nodes result_counts].
  rewrite size_list_to_set in Hsize by done.
  assert (Hle : length seeds ≤ length (elements (visited st))).
  { apply submseteq_length, NoDup_submseteq; [done|].
    intros x Hx. rewrite Hst in Hst'. injection Hst' as -> _ _.
    apply elem_of_elements. by apply Hin. }
  change (size (visited st)) with (length (elements (visited st))) in Hsize.
  lia.
Qed.

Lemma search_stats_add_up_witness :
  match stats (search services_up family "install the driver" 5 15 3) with
  | Stats seed_nodes graph_traversed_nodes total_nodes counts _ _ =>
      total_nodes = (seed_nodes + graph_traversed_nodes)%Z ∧
      graph_traversed_nodes = counters_total counts ∧
      (0 ≤ graph_traversed_nodes)%Z
  | StatsError _ => False
  end.
Proof.
  apply (search_stats_add_up services_up family "install the driver"
           [1.0%float; 0.0%float] 5 15 3).
  - reflexivity.
  - refine (bool_decide_unpack _ _). vm_compute. exact I.
  - discriminate.
Defined.

(** ** The crawl of referenced pages *)

(** The recursive call of the source: one level down, one level less. *)
Lemma process_page_recursive_deeper (s : site) (url : string)
    (current_depth max_depth : Z) (processed_urls : gset string)
    (levels : nat) :
  Z.to_nat (max_depth - current_depth) = S levels →
  process_page_recursive s url (current_depth + 1) max_depth processed_urls
  = process_pages s levels url processed_urls.
Proof.
  intros Hl. unfold process_page_recursive.
  rewrite bool_decide_eq_false_2 by lia. f_equal. lia.
Qed.

Section crawl_cases.
Context (s : site) (processed : gset string) (u0 : string).
Context (Hnew : u0 ∉ processed).

Lemma crawled_missing (n : nat) :
  get_page_content s u0 = None →
  crawled s processed u0 n [] ({[u0]} ∪ processed).
Proof.
  intros Hpg. split; [done|]. exists []. split_and!.
  - constructor.
  - apply NoDup_nil_2.
  - intros u. split; [by intros ?%elem_of_nil|].
    intros (Hu & Hnu & Hsome). assert (u = u0) as -> by set_solver.
    rewrite Hpg in Hsome. by destruct Hsome.
  - intros u Hu Hnu. assert (u = u0) as -> by set_solver. constructor.
Qed.

Lemma crawled_page (n : nat) (pg : page) :
  get_page_content s u0 = Some pg →
  crawled s processed u0 n [pg] ({[u0]} ∪ processed).
Proof.
  intros Hpg. split; [done|]. exists [u0]. split_and!.
  - by repeat constructor.
  - apply NoDup_singleton.
  - intros u. rewrite list_elem_of_singleton. split.
    + intros ->. split_and!; [set_solver | done | by eexists].
    + intros (Hu & Hnu & _). set_solver.
  - intros u Hu Hnu. assert (u = u0) as -> by set_solver. constructor.
Qed.

End crawl_cases.

Lemma crawled_spec (s : site) (processed : gset string) (url u0 : string)
    (n : nat) (pages : list page) (pr : gset string) :
  _clean_url s url = Returned u0 →
  crawled s processed u0 n pages pr →
  crawl_spec s n url processed (Returned pages, pr).
Proof.
  intros Hclean (Hsub & urls & Hpages & Hnd & Hiff & Hwithin).
  split; simpl; [set_solver|]. exists u0, urls. split_and!; try done.
  set_solver.
Qed.

Lemma process_pages_spec (s : site) (levels : nat) :
  ∀ url processed,
    crawl_spec s levels url processed (process_pages s levels url processed).
Proof.
  induction levels as [|levels IH]; intros url processed; simpl;
    destruct (_clean_url s url) as [u0|m] eqn:Hclean; try done;
    (case_bool_decide as Hin;
     [split; simpl; [done|]; exists u0, []; split_and!;
      [done | done | constructor | apply NoDup_nil_2
      | intros u; split; [by intros ?%elem_of_nil | by intros (? & ? & _)]
      | done] |]).
  - destruct (get_page_content s u0) as [pg|] eqn:Hpg.
    + by apply crawled_spec with u0, crawled_page.
    + by apply crawled_spec with u0, crawled_missing.
  - destruct (get_page_content s u0) as [pg|] eqn:Hpg;
      [|by apply crawled_spec with u0, crawled_missing].
    destruct (_extract_confluence_links s (pg_content pg)) as [refs|m]
      eqn:Hrefs; [|by apply crawled_spec with u0, crawled_page].
    (* the loop over the references *)
    set (step := λ (acc : list page * gset string) ref_url,
           match process_pages s levels ref_url acc.2 with
           | (Returned sub_pages, processed_urls) =>
               (acc.1 ++ sub_pages, processed_urls)
           | (Raised _, processed_urls) => (acc.1, processed_urls)
           end).
    assert (Hloop : ∀ l acc,
              (∀ r, r ∈ l → r ∈ refs) →
              crawled s processed u0 (S levels) acc.1 acc.2 →
              crawled s processed u0 (S levels)
                (foldl step acc l).1 (foldl step acc l).2).
    { induction l as [|r l IHl]; intros acc Hl HI; [done|].
      simpl. apply IHl; [intros r' Hr'; apply Hl; by right|].
      assert (Hr : r ∈ refs) by (apply Hl; by left).
      destruct HI as (Hsub & urls & Hpages & Hnd & Hiff & Hwithin).
      pose proof (IH r acc.2) as [Hsub' Hcall].
      unfold step. destruct (process_pages s levels r acc.2) as [[sub|m] pr];
        simpl in *.
      - destruct Hcall as (r0 & urls' & Hr0 & Hr0in & Hsubpages & Hnd' &
                           Hiff' & Hwithin').
        assert (Hhop : refers_to s u0 r0) by (by exists pg, refs, r).
        split; [set_solver|]. exists (urls ++ urls'). split_and!.
        + by apply Forall2_app.
        + apply NoDup_app. split; [done|]. split; [|done].
          intros u Hu Hu'. apply Hiff in Hu as (Hu & _).
          apply Hiff' in Hu' as (_ & Hnu & _). done.
        + intros u. rewrite elem_of_app, Hiff, Hiff'. split.
          * intros [(? & ? & ?)|(? & ? & ?)]; split_and!; set_solver.
          * intros (Hu & Hnu & Hsome).
            destruct (decide (u ∈ acc.2)); [by left | by right].
        + intros u Hu Hnu. destruct (decide (u ∈ acc.2)).
          * by apply Hwithin.
          * eapply within_link; [exact Hhop|]. by apply Hwithin'.
      - destruct Hcall as [-> _]. split; [done|]. by exists urls. }
    apply crawled_spec with u0; [done|].
    apply (Hloop refs ([pg], {[u0]} ∪ processed)); [done|].
    by apply crawled_page.
Qed.

(** X22: a crawl returns the pages of the URLs it adds to the set of processed
    URLs, those that have a page, each one once; it takes nothing out of
    the set; and every URL it adds is at most
    [max_depth - current_depth] links away from the URL it starts at, so
    that it ends on pages that refer to each other. *)
Theorem crawl_returns_new_pages (s : site) (url : string)
    (current_depth max_depth : Z) (processed : gset string)
    (pages : list page) (processed' : gset string) :
  process_page_recursive s url current_depth max_depth processed
  = (Returned pages, processed') →
  processed ⊆ processed' ∧
  ∃ urls,
    Forall2 (λ u p, get_page_content s u = Some p) urls pages ∧
    NoDup urls ∧
    (∀ u, u ∈ urls ↔
          (u ∈ processed' ∧ (u ∉ processed) ∧
           is_Some (get_page_content s u))) ∧
    (∀ u, u ∈ processed' → u ∉ processed →
          ∃ u0, _clean_url s url = Returned u0 ∧
                within s (Z.to_nat (max_depth - current_depth)) u0 u).
Proof.
  unfold process_page_recursive. case_bool_decide as Hdepth.
  - intros [= <- <-]. split; [done|]. exists []. split_and!.
    + constructor.
    + apply NoDup_nil_2.
    + intros u. split; [by intros ?%elem_of_nil | by intros (? & ? & _)].
    + done.
  - intros Hrun.
    pose proof (process_pages_spec s (Z.to_nat (max_depth - current_depth))
                  url processed) as [Hsub Hspec].
    rewrite Hrun in Hsub, Hspec. simpl in Hsub, Hspec.
    destruct Hspec as (u0 & urls & Hclean & _ & Hpages & Hnd & Hiff & Hwithin).
    split; [done|]. exists urls. split_and!; try done.
    intros u Hu Hnu. exists u0. split; [done|]. by apply Hwithin.
Qed.

Lemma crawl_returns_new_pages_witness :
  let pages := [ {| pg_id := "1"; pg_title := "A"; pg_content := "see b" |};
                 {| pg_id := "2"; pg_title := "B";
                    pg_content := "see a, c" |} ] in
  let processed' := (process_page_recursive wiki "a" 0 2 ∅).2 in
  ∅ ⊆ processed' ∧
  ∃ urls,
    Forall2 (λ u p, get_page_content wiki u = Some p) urls pages ∧
    NoDup urls ∧
    (∀ u, u ∈ urls ↔
          (u ∈ processed' ∧ (u ∉ (∅ : gset string)) ∧
           is_Some (get_page_content wiki u))) ∧
    (∀ u, u ∈ processed' → u ∉ (∅ : gset string) →
          ∃ u0, _clean_url wiki "a" = Returned u0 ∧
                within wiki (Z.to_nat (2 - 0)) u0 u).
Proof.
  apply (crawl_returns_new_pages wiki "a" 0 2 ∅). vm_compute. reflexivity.
Defined.

(** X23: a call of the crawl at a depth within [max_depth] either raises the
    error that [_clean_url] raises on its URL, leaving the set of processed
    URLs as it was, or marks the URL: a later crawl from it, at any depth and
    to any depth, returns no page and leaves the set as it is. *)
Theorem crawl_again_returns_nothing (s : site) (url : string)
    (current_depth max_depth : Z) (processed : gset string) :
  (current_depth ≤ max_depth)%Z →
  let r := process_page_recursive s url current_depth max_depth processed in
  match r.1 with
  | Raised message => r.2 = processed ∧ _clean_url s url = Raised message
  | Returned _ =>
      ∀ current_depth' max_depth',
        process_page_recursive s url current_depth' max_depth' r.2
        = (Returned [], r.2)
  end.
Proof.
  intros Hdepth r.
  assert (Hr : r = process_pages s (Z.to_nat (max_depth - current_depth)) url
                     processed).
  { subst r. unfold process_page_recursive.
    by rewrite bool_decide_eq_false_2 by lia. }
  clearbody r. subst r.
  pose proof (process_pages_spec s (Z.to_nat (max_depth - current_depth))
                url processed) as [_ Hspec].
  destruct (process_pages _ _ _ _) as [[pages|m] pr]; simpl in *; [|done].
  destruct Hspec as (u0 & _ & Hclean & Hin & _).
  intros cd' md'. unfold process_page_recursive.
  case_bool_decide; [done|].
  destruct (Z.to_nat (md' - cd')); simpl;
    by rewrite Hclean, bool_decide_eq_true_2.
Qed.

Lemma crawl_again_returns_nothing_witness :
  let r := process_page_recursive wiki "a" 0 2 ∅ in
  match r.1 with
  | Raised message => r.2 = ∅ ∧ _clean_url wiki "a" = Raised message
  | Returned _ =>
      ∀ current_depth' max_depth',
        process_page_recursive wiki "a" current_depth' max_depth' r.2
        = (Returned [], r.2)
  end.
Proof. apply (crawl_again_returns_nothing wiki "a" 0 2 ∅). lia. Defined.

(** ** The chunks of a page in the store *)

Lemma store_chunk_Returned (svc : services) (s : site)
    (processed_urls : gset string) (pg : page) (collection : list chunk_doc)
    (i : nat) (c : Chunker.chunk) (collection' : list chunk_doc) :
  store_chunk svc s processed_urls pg collection i c = Returned collection' →
  ∃ e refs,
    embeddings_create svc (Chunker.full_context c) = Returned e ∧
    _extract_confluence_links s (Chunker.content c) = Returned refs ∧
    collection' = upsert (chunk_document processed_urls pg i c e refs)
                    collection.
Proof.
  unfold store_chunk.
  destruct (embeddings_create svc _) as [e|]; [|done].
  destruct (_extract_confluence_links s _) as [refs|]; [|done].
  intros [= <-]. by exists e, refs.
Qed.

(** After a loop without error every chunk is found under its id, and a
    document under another id is found as before. *)
Lemma store_chunks_find (svc : services) (s : site)
    (processed_urls : gset string) (pg : page) (chunks : list Chunker.chunk) :
  ∀ collection i0 collection',
    store_chunks svc s processed_urls pg collection i0 chunks
    = (collection', None) →
    (∀ j c, chunks !! j = Some c →
       ∃ e refs,
         embeddings_create svc (Chunker.full_context c) = Returned e ∧
         _extract_confluence_links s (Chunker.content c) = Returned refs ∧
         find_chunk collection' (Chunker.chunk_id (pg_id pg) (i0 + j))
         = Some (chunk_document processed_urls pg (i0 + j) c e refs)) ∧
    (∀ k, (∀ j, j < length chunks →
                k ≠ Chunker.chunk_id (pg_id pg) (i0 + j)) →
          find_chunk collection' k = find_chunk collection k).
Proof.
  induction chunks as [|c chunks IH]; intros collection i0 collection'; simpl.
  - intros [= <-]. split; [|done]. intros j c Hj.
    by rewrite lookup_nil in Hj.
  - destruct (store_chunk _ _ _ _ _ _ _) as [collection1|] eqn:Hstore;
      [|done].
    apply store_chunk_Returned in Hstore as (e & refs & He & Hrefs & ->).
    intros [Hfound Hother]%IH. split.
    + intros [|j] c' Hj; simpl in Hj.
      * injection Hj as <-. exists e, refs. split; [done|]. split; [done|].
        rewrite Nat.add_0_r, Hother.
        -- rewrite upsert_find. by rewrite bool_decide_eq_true_2.
        -- intros j _ H%chunk_id_inj. lia.
      * replace (i0 + S j) with (S i0 + j) by lia. by apply Hfound.
    + intros k Hk. rewrite Hother.
      * rewrite upsert_find, bool_decide_eq_false_2; [done|].
        simpl. intros <-. apply (Hk 0); [lia|]. by rewrite Nat.add_0_r.
      * intros j Hj. replace (S i0 + j) with (i0 + S j) by lia.
        apply Hk. lia.
Qed.

(** X24: when the chunks of a page have gone to the store without an error,
    every chunk is found under the id that its position gives it, with its
    header, its text, its embedding and its links; the parent that a
    stored chunk names is in the store and lists the chunk among its
    children, and every child that it lists is in the store and names it
    as its parent. *)
Theorem stored_page_is_closed (svc : services) (s : site)
    (processed_urls : gset string) (pg : page)
    (all_elements : list Chunker.element)
    (collection collection' : list chunk_doc) (i : nat) (c : Chunker.chunk) :
  store_page svc s processed_urls pg all_elements collection
  = (collection', None) →
  Chunker.chunk_content all_elements (pg_id pg) !! i = Some c →
  ∃ d, find_chunk collection' (Chunker.chunk_id (pg_id pg) i) = Some d ∧
       cd_page_id d = pg_id pg ∧
       cd_header d = Chunker.header c ∧
       cd_content d = Chunker.content c ∧
       embeddings_create svc (Chunker.full_context c)
       = Returned (default [] (cd_embedding d)) ∧
       cd_parent_chunk_id d = Chunker.parent_chunk_id c ∧
       cd_children d = Chunker.children c ∧
       (∀ q, cd_parent_chunk_id d = Some q →
             ∃ dq, find_chunk collection' q = Some dq ∧
                   cd_id d ∈ cd_children dq) ∧
       (∀ k, k ∈ cd_children d →
             ∃ dk, find_chunk collection' k = Some dk ∧
                   cd_parent_chunk_id dk = Some (cd_id d)).
Proof.
  unfold store_page. intros [Hfound _]%store_chunks_find Hc.
  set (cs := Chunker.chunk_content all_elements (pg_id pg)) in *.
  destruct (Hfound i c Hc) as (e & refs & He & _ & Hd). simpl in Hd.
  destruct (chunk_content_links all_elements (pg_id pg) i c Hc)
    as [Hpar Hch]. fold cs in Hch.
  eexists. split; [exact Hd|]. simpl. split_and!; try done.
  - intros q Hq. destruct (Hpar q Hq) as (j & Hj & ->).
    destruct (lookup_lt_is_Some_2 cs j) as [cj Hcj].
    { apply lookup_lt_Some in Hc. lia. }
    destruct (Hfound j cj Hcj) as (ej & refsj & _ & _ & Hdj). simpl in Hdj.
    eexists. split; [exact Hdj|]. simpl.
    destruct (chunk_content_links all_elements (pg_id pg) j cj Hcj)
      as [_ ->]. fold cs.
    apply list_elem_of_fmap_2. unfold child_indexes.
    apply list_elem_of_In, filter_In. split.
    + apply in_seq. apply lookup_lt_Some in Hc. lia.
    + apply bool_decide_eq_true_2. by rewrite Hc.
  - intros k Hk. rewrite Hch in Hk.
    apply list_elem_of_fmap in Hk as (j & -> & Hj).
    unfold child_indexes in Hj.
    apply list_elem_of_In, filter_In in Hj as [Hj Hpj].
    apply bool_decide_eq_true_1 in Hpj.
    destruct (cs !! j) as [cj|] eqn:Hcj; [|done]. simpl in Hpj.
    destruct (Hfound j cj Hcj) as (ej & refsj & _ & _ & Hdj). simpl in Hdj.
    eexists. split; [exact Hdj|]. done.
Qed.

Lemma stored_page_is_closed_witness :
  let pg := {| pg_id := "page"; pg_title := "Guide"; pg_content := "" |} in
  let all_elements :=
    [Chunker.Header Chunker.h1 "A"; Chunker.Block "a";
     Chunker.Header Chunker.h2 "B"; Chunker.Block "b"] in
  let collection' := (store_page services_up plain_site ∅ pg all_elements []).1 in
  ∃ c, Chunker.chunk_content all_elements "page" !! 1 = Some c ∧
  ∃ d, find_chunk collection' (Chunker.chunk_id "page" 1) = Some d ∧
       cd_page_id d = "page" ∧
       cd_header d = Chunker.header c ∧
       cd_content d = Chunker.content c ∧
       embeddings_create services_up (Chunker.full_context c)
       = Returned (default [] (cd_embedding d)) ∧
       cd_parent_chunk_id d = Chunker.parent_chunk_id c ∧
       cd_children d = Chunker.children c ∧
       (∀ q, cd_parent_chunk_id d = Some q →
             ∃ dq, find_chunk collection' q = Some dq ∧
                   cd_id d ∈ cd_children dq) ∧
       (∀ k, k ∈ cd_children d →
             ∃ dk, find_chunk collection' k = Some dk ∧
                   cd_parent_chunk_id dk = Some (cd_id d)).
Proof.
  eexists. split; [vm_compute; reflexivity|].
  apply (stored_page_is_closed services_up plain_site ∅
           {| pg_id := "page"; pg_title := "Guide"; pg_content := "" |}
           [Chunker.Header Chunker.h1 "A"; Chunker.Block "a";
            Chunker.Header Chunker.h2 "B"; Chunker.Block "b"] []).
  - vm_compute. reflexivity.
  - vm_compute. reflexivity.
Defined.

(** A loop that an error has left: the chunks before the one whose call
    failed are in the store, and nothing else was written. *)
Lemma store_chunks_error (svc : services) (s : site)
    (processed_urls : gset string) (pg : page) (chunks : list Chunker.chunk) :
  ∀ collection i0 collection' message,
    store_chunks svc s processed_urls pg collection i0 chunks
    = (collection', Some message) →
    ∃ j c,
      chunks !! j = Some c ∧
      (embeddings_create svc (Chunker.full_context c) = Raised message ∨
       _extract_confluence_links s (Chunker.content c) = Raised message) ∧
      (∀ i ci, i < j → chunks !! i = Some ci →
         ∃ e refs,
           find_chunk collection' (Chunker.chunk_id (pg_id pg) (i0 + i))
           = Some (chunk_document processed_urls pg (i0 + i) ci e refs)) ∧
      (∀ k, (∀ i, i < j → k ≠ Chunker.chunk_id (pg_id pg) (i0 + i)) →
            find_chunk collection' k = find_chunk collection k).
Proof.
  induction chunks as [|c chunks IH];
    intros collection i0 collection' message; simpl; [done|].
  destruct (store_chunk _ _ _ _ _ _ _) as [collection1|m] eqn:Hstore.
  - apply store_chunk_Returned in Hstore as (e & refs & He & Hrefs & ->).
    intros (j & cj & Hj & Hfail & Hfound & Hother)%IH.
    exists (S j), cj. split; [done|]. split; [done|]. split.
    + intros [|i] ci Hi Hci; simpl in Hci.
      * injection Hci as <-. exists e, refs.
        rewrite Nat.add_0_r, Hother.
        -- rewrite upsert_find. by rewrite bool_decide_eq_true_2.
        -- intros i' _ H%chunk_id_inj. lia.
      * replace (i0 + S i) with (S i0 + i) by lia.
        apply Hfound; [lia | done].
    + intros k Hk. rewrite Hother.
      * rewrite upsert_find, bool_decide_eq_false_2; [done|].
        simpl. intros <-. apply (Hk 0); [lia|]. by rewrite Nat.add_0_r.
      * intros i Hi. replace (S i0 + i) with (i0 + S i) by lia.
        apply Hk. lia.
  - intros [= <- <-]. exists 0, c. split; [done|]. split.
    + unfold store_chunk in Hstore.
      destruct (embeddings_create svc _) as [e|]; [|left; congruence].
      destruct (_extract_confluence_links s _) as [refs|]; [done|].
      right. congruence.
    + split; [intros; lia | done].
Qed.

(** X25: when a call for a chunk fails, the loop of [main] leaves the page half
    written: the error is the one that the embedding or the extraction of
    links raised for some chunk; the chunks before it are found in the
    store, and under every other id, those of the later chunks too, the
    store holds what it held before. *)
Theorem store_page_stops_at_error (svc : services) (s : site)
    (processed_urls : gset string) (pg : page)
    (all_elements : list Chunker.element)
    (collection collection' : list chunk_doc) (message : string) :
  store_page svc s processed_urls pg all_elements collection
  = (collection', Some message) →
  ∃ j c,
    Chunker.chunk_content all_elements (pg_id pg) !! j = Some c ∧
    (embeddings_create svc (Chunker.full_context c) = Raised message ∨
     _extract_confluence_links s (Chunker.content c) = Raised message) ∧
    (∀ i ci, i < j →
       Chunker.chunk_content all_elements (pg_id pg) !! i = Some ci →
       ∃ e refs,
         find_chunk collection' (Chunker.chunk_id (pg_id pg) i)
         = Some (chunk_document processed_urls pg i ci e refs)) ∧
    (∀ k, (∀ i, i < j → k ≠ Chunker.chunk_id (pg_id pg) i) →
          find_chunk collection' k = find_chunk collection k).
Proof.
  unfold store_page. intros H.
  apply store_chunks_error in H as (j & c & Hj & Hfail & Hfound & Hother).
  by exists j, c.
Qed.

Lemma store_page_stops_at_error_witness :
  let pg := {| pg_id := "page"; pg_title := "Guide"; pg_content := "" |} in
  let all_elements :=
    [Chunker.Header Chunker.h1 "B"; Chunker.Block "b";
     Chunker.Header Chunker.h2 "A"; Chunker.Block "a";
     Chunker.Header Chunker.h2 "C"; Chunker.Block "c"] in
  let collection' :=
    (store_page services_flaky plain_site ∅ pg all_elements []).1 in
  ∃ j c,
    Chunker.chunk_content all_elements (pg_id pg) !! j = Some c ∧
    (embeddings_create services_flaky (Chunker.full_context c)
     = Raised "rate limit" ∨
     _extract_confluence_links plain_site (Chunker.content c)
     = Raised "rate limit") ∧
    (∀ i ci, i < j →
       Chunker.chunk_content all_elements (pg_id pg) !! i = Some ci →
       ∃ e refs,
         find_chunk collection' (Chunker.chunk_id (pg_id pg) i)
         = Some (chunk_document ∅ pg i ci e refs)) ∧
    (∀ k, (∀ i, i < j → k ≠ Chunker.chunk_id (pg_id pg) i) →
          find_chunk collection' k = find_chunk [] k).
Proof.
  apply (store_page_stops_at_error services_flaky plain_site ∅
           {| pg_id := "page"; pg_title := "Guide"; pg_content := "" |}
           [Chunker.Header Chunker.h1 "B"; Chunker.Block "b";
            Chunker.Header Chunker.h2 "A"; Chunker.Block "a";
            Chunker.Header Chunker.h2 "C"; Chunker.Block "c"] []).
  vm_compute. reflexivity.
Defined.

(** *** The loop of [admin_load_confluence.process_urls] *)

Lemma admin_store_chunks_find (svc : services) (s : site)
    (processed_urls : gset string) (pg : page) (chunks : list Chunker.chunk) :
  ∀ collection i0 collection',
    admin_store_chunks svc s processed_urls pg collection i0 chunks
    = (collection', None) →
    (∀ j c, chunks !! j = Some c →
       match embeddings_create svc (Chunker.full_context c) with
       | Returned e =>
           ∃ refs,
             _extract_confluence_links s (Chunker.content c) = Returned refs ∧
             find_chunk collection' (Chunker.chunk_id (pg_id pg) (i0 + j))
             = Some (chunk_document processed_urls pg (i0 + j) c e refs)
       | Raised _ =>
           find_chunk collection' (Chunker.chunk_id (pg_id pg) (i0 + j))
           = find_chunk collection (Chunker.chunk_id (pg_id pg) (i0 + j))
       end) ∧
    (∀ k, (∀ j, j < length chunks →
                k ≠ Chunker.chunk_id (pg_id pg) (i0 + j)) →
          find_chunk collection' k = find_chunk collection k).
Proof.
  induction chunks as [|c chunks IH]; intros collection i0 collection'; simpl.
  - intros [= <-]. split; [|done]. intros j c Hj.
    by rewrite lookup_nil in Hj.
  - destruct (embeddings_create svc (Chunker.full_context c)) as [e|m] eqn:He.
    + destruct (_extract_confluence_links s (Chunker.content c))
        as [refs|] eqn:Hrefs; [|done].
      intros [Hfound Hother]%IH. split.
      * intros [|j] c' Hj; simpl in Hj.
        -- injection Hj as <-. rewrite He. exists refs. split; [done|].
           rewrite Nat.add_0_r, Hother.
           ++ unfold add_confluence_chunk. rewrite upsert_find.
              by rewrite bool_decide_eq_true_2.
           ++ intros j _ H%chunk_id_inj. lia.
        -- replace (i0 + S j) with (S i0 + j) by lia.
           specialize (Hfound j c' Hj).
           destruct (embeddings_create svc (Chunker.full_context c')); [done|].
           rewrite Hfound. unfold add_confluence_chunk.
           rewrite upsert_find, bool_decide_eq_false_2; [done|].
           simpl. intros H%chunk_id_inj. lia.
      * intros k Hk. rewrite Hother.
        -- unfold add_confluence_chunk.
           rewrite upsert_find, bool_decide_eq_false_2; [done|].
           simpl. intros <-. apply (Hk 0); [lia|]. by rewrite Nat.add_0_r.
        -- intros j Hj. replace (S i0 + j) with (i0 + S j) by lia.
           apply Hk. lia.
    + intros [Hfound Hother]%IH. split.
      * intros [|j] c' Hj; simpl in Hj.
        -- injection Hj as <-. rewrite He, Nat.add_0_r. apply Hother.
           intros j _ H%chunk_id_inj. lia.
        -- replace (i0 + S j) with (S i0 + j) by lia. by apply Hfound.
      * intros k Hk. apply Hother.
        intros j Hj. replace (S i0 + j) with (i0 + S j) by lia.
        apply Hk. lia.
Qed.

(** X26: in the loop of [process_urls] a chunk whose embedding fails is
    passed over: when the loop ends without an error, a chunk whose
    embedding was returned is found under its id as it was cut, and under
    the id of a chunk whose embedding failed the store holds what it held
    before. *)
Theorem admin_skips_failed_chunks (svc : services) (s : site)
    (processed_urls : gset string) (pg : page)
    (all_elements : list Chunker.element)
    (collection collection' : list chunk_doc) (i : nat) (c : Chunker.chunk) :
  admin_store_page svc s processed_urls pg all_elements collection
  = (collection', None) →
  Chunker.chunk_content all_elements (pg_id pg) !! i = Some c →
  match embeddings_create svc (Chunker.full_context c) with
  | Returned e =>
      ∃ refs,
        _extract_confluence_links s (Chunker.content c) = Returned refs ∧
        find_chunk collection' (Chunker.chunk_id (pg_id pg) i)
        = Some (chunk_document processed_urls pg i c e refs)
  | Raised _ =>
      find_chunk collection' (Chunker.chunk_id (pg_id pg) i)
      = find_chunk collection (Chunker.chunk_id (pg_id pg) i)
  end.
Proof.
  unfold admin_store_page. intros [Hfound _]%admin_store_chunks_find Hc.
  apply (Hfound i c Hc).
Qed.

Lemma admin_skips_failed_chunks_witness :
  let pg := {| pg_id := "page"; pg_title := "Guide"; pg_content := "" |} in
  let all_elements :=
    [Chunker.Header Chunker.h1 "A"; Chunker.Block "a";
     Chunker.Header Chunker.h2 "B"; Chunker.Block "b"] in
  let collection' :=
    (admin_store_page services_flaky plain_site ∅ pg all_elements []).1 in
  ∃ c, Chunker.chunk_content all_elements "page" !! 0 = Some c ∧
       match embeddings_create services_flaky (Chunker.full_context c) with
       | Returned e =>
           ∃ refs,
             _extract_confluence_links plain_site (Chunker.content c)
             = Returned refs ∧
             find_chunk collection' (Chunker.chunk_id "page" 0)
             = Some (chunk_document ∅ pg 0 c e refs)
       | Raised _ =>
           find_chunk collection' (Chunker.chunk_id "page" 0)
           = find_chunk [] (Chunker.chunk_id "page" 0)
       end.
Proof.
  eexists. split; [vm_compute; reflexivity|].
  apply (admin_skips_failed_chunks services_flaky plain_site ∅
           {| pg_id := "page"; pg_title := "Guide"; pg_content := "" |}
           [Chunker.Header Chunker.h1 "A"; Chunker.Block "a";
            Chunker.Header Chunker.h2 "B"; Chunker.Block "b"] []).
  - vm_compute. reflexivity.
  - vm_compute. reflexivity.
Defined.
